(** * Region selection: blocks, the tracelet-to-region builder and the selector

    A shallow embedding of [hphp/runtime/vm/jit/region_selection.cpp].

    Conventions of the embedding.

    - The build flag [debug] is an explicit boolean.  [assert(c)] is active
      only when [debug] is set and then aborts the process on a false [c];
      [always_assert] is active in every build; [not_reached()] aborts in a
      debug build and is undefined behaviour otherwise.
    - A computation ends in an [Outcome]: it returns ([Done]), aborts the
      process ([Abort]), runs into undefined behaviour ([Undefined]) or
      leaves by a C++ exception ([Throw]).
    - [Offset] is the signed 32-bit [int32_t] of the source and is embedded
      in [Z]; signed overflow is undefined in C++ and the embedding computes
      the mathematical sum; a statement that the builder returns a region
      assumes that the offsets of the trace fit the type ([offsetsFit]).
      The explicit [uint32_t(...)] conversions of the source are embedded
      with their wrap-around ([to_uint32]).
    - A block runs its checker after every mutation in a debug build; so
      does [addInstruction], whose body is in the header of the file.
    - The callees of the builder (the allocator, the containers) may throw,
      which the embedding of [createRegion] leaves out; the selector is
      therefore embedded over every way the call of the builder can end
      ([selectRegionOver]), and [selectRegion] is its instance at
      [createRegion].
    - Pointers to [Unit] are compared by address in the source; a [Unit]
      carries its address ([unit_addr]).
    - The bytecode tables and the type lattice are external collaborators
      and enter as the interfaces [Bytecode] and [TypeSystem]; the text of a
      type, [Type::toString], enters as the interface [TypePrinter]. *)

From Stdlib Require Import ZArith List String Ascii Bool Lia Sorted.
From Stdlib Require Import DecimalString DecimalZ.
Import ListNotations.
Local Open Scope Z_scope.

Set Implicit Arguments.

(** ** Outcomes of a computation *)

Inductive Exn : Type :=
| StdException (what : string)   (* an object derived from std::exception *)
| ForeignException.              (* any other thrown object *)

Inductive Outcome (A : Type) : Type :=
| Done (a : A)
| Abort
| Undefined
| Throw (e : Exn).

Arguments Done {A} a.
Arguments Abort {A}.
Arguments Undefined {A}.
Arguments Throw {A} e.

Definition bind {A B : Type} (m : Outcome A) (k : A -> Outcome B) : Outcome B :=
  match m with
  | Done a => k a
  | Abort => Abort
  | Undefined => Undefined
  | Throw e => Throw e
  end.

Notation "x <- m ;; k" := (bind m (fun x => k))
  (at level 61, m at next level, right associativity).
Notation "m ;;; k" := (bind m (fun _ => k))
  (at level 61, right associativity).

(** [assert(c)]: compiled out unless [debug]. *)
Definition assert_ (debug c : bool) : Outcome unit :=
  if debug then (if c then Done tt else Abort) else Done tt.

(** [always_assert(c)]: checked in every build. *)
Definition always_assert (c : bool) : Outcome unit :=
  if c then Done tt else Abort.

(** [not_reached()]. *)
Definition not_reached {A : Type} (debug : bool) : Outcome A :=
  if debug then Abort else Undefined.

(** C-style [for] over a container, stopping at the first failure. *)
Fixpoint for_each {A : Type} (f : A -> Outcome unit) (l : list A) : Outcome unit :=
  match l with
  | [] => Done tt
  | a :: l' => f a ;;; for_each f l'
  end.

(** ** External collaborators *)

(** The opcode table: [OpJmp], [isFPassStar], [instrFlags(op) & TF] and
    [instrIsNonCallControlFlow]. *)
Class Bytecode : Type := {
  Op : Type;
  OpJmp : Op;
  Op_eq_dec : forall a b : Op, {a = b} + {a <> b};
  isFPassStar : Op -> bool;
  instrFlagsTF : Op -> bool;
  instrIsNonCallControlFlow : Op -> bool
}.

(** The type lattice of the JIT and the tracer's runtime types:
    [rtt.isVagueValue()], [Type::fromRuntimeType] and
    [type.subtypeOf(Type::Gen | Type::Cls)]. *)
Class TypeSystem : Type := {
  JitType : Type;
  RuntimeType : Type;
  isVagueValue : RuntimeType -> bool;
  fromRuntimeType : RuntimeType -> JitType;
  subtypeOfGenCls : JitType -> bool
}.

(** ** Source positions, units and functions *)

Definition Offset : Type := Z.

(** [uint32_t(x)]. *)
Definition to_uint32 (x : Z) : Z := x mod 2 ^ 32.

(** A code unit as region selection sees it: [unit->at(off)] decoded to its
    opcode, and [instrLen] of the instruction found there. *)
Record Unit `{Bytecode} : Type := {
  unit_addr : Z;
  unit_at : Offset -> Op;
  unit_instrLen : Offset -> Z
}.

Record Func `{Bytecode} : Type := {
  func_id : Z;
  func_unit : Unit;
  func_numLocals : Z
}.

(** Modelled from the spec: [SrcKey] (declared in srckey.h): a function
    identity and a byte offset, compared first by function and then by
    offset. *)
Record SrcKey : Type := {
  sk_funcId : Z;
  sk_offset : Offset
}.

Definition SrcKey_eqb (a b : SrcKey) : bool :=
  (sk_funcId a =? sk_funcId b) && (sk_offset a =? sk_offset b).

Definition SrcKey_ltb (a b : SrcKey) : bool :=
  (sk_funcId a <? sk_funcId b)
  || ((sk_funcId a =? sk_funcId b) && (sk_offset a <? sk_offset b)).

(** [sk.setOffset(o)]. *)
Definition setOffset (sk : SrcKey) (o : Offset) : SrcKey :=
  {| sk_funcId := sk_funcId sk; sk_offset := o |}.

(** [sk.advanced(unit)]: the position of the next instruction. *)
Definition advanced `{Bytecode} (sk : SrcKey) (u : Unit) : SrcKey :=
  setOffset sk (sk_offset sk + unit_instrLen u (sk_offset sk)).

(** ** Ordered containers keyed by [SrcKey] *)

(** [std::set<SrcKey>::insert]. *)
Fixpoint set_insert (k : SrcKey) (s : list SrcKey) : list SrcKey :=
  match s with
  | [] => [k]
  | k' :: s' =>
      if SrcKey_ltb k k' then k :: s
      else if SrcKey_eqb k k' then s
      else k' :: set_insert k s'
  end.

(** [set.count(k)]. *)
Definition set_count (k : SrcKey) (s : list SrcKey) : bool :=
  existsb (SrcKey_eqb k) s.

(** Insertion into a multimap: after the entries whose key is not greater. *)
Fixpoint multimap_insert {V : Type} (k : SrcKey) (v : V) (m : list (SrcKey * V))
  : list (SrcKey * V) :=
  match m with
  | [] => [(k, v)]
  | (k', v') :: m' =>
      if SrcKey_ltb k k' then (k, v) :: m
      else (k', v') :: multimap_insert k v m'
  end.

(** Insertion into a map: an existing entry for the key is kept. *)
Fixpoint map_insert {V : Type} (k : SrcKey) (v : V) (m : list (SrcKey * V))
  : list (SrcKey * V) :=
  match m with
  | [] => [(k, v)]
  | (k', v') :: m' =>
      if SrcKey_ltb k k' then (k, v) :: m
      else if SrcKey_eqb k k' then m
      else (k', v') :: map_insert k v m'
  end.

(** [map.find(k)]. *)
Fixpoint map_find {V : Type} (k : SrcKey) (m : list (SrcKey * V)) : option V :=
  match m with
  | [] => None
  | (k', v') :: m' => if SrcKey_eqb k k' then Some v' else map_find k m'
  end.

(** ** The region data model *)

(** Modelled from the spec: [RegionDesc::Location] (declared in
    region_selection.h): a local slot or a stack slot; both fields are
    [uint32_t]. *)
Inductive Location : Type :=
| Local (locId : Z)
| Stack (offset : Z).

Record TypePred `{TypeSystem} : Type := {
  location : Location;
  type : JitType
}.

Inductive ParamByRef : Type := Yes | No.

Record ReffinessPred : Type := {
  mask : list bool;
  vals : list bool;
  arSpOffset : Z
}.

Record Block `{Bytecode} `{TypeSystem} : Type := {
  m_func : Func;
  m_start : Offset;
  m_length : Z;
  m_typePreds : list (SrcKey * TypePred);
  m_byRefs : list (SrcKey * ParamByRef);
  m_refPreds : list (SrcKey * ReffinessPred)
}.

Record RegionDesc `{Bytecode} `{TypeSystem} : Type := {
  blocks : list Block
}.

(** [RegionDescPtr]: [None] is the null pointer, "no region". *)
Definition RegionDescPtr `{Bytecode} `{TypeSystem} : Type := option RegionDesc.

Section BlockOps.
Context `{BC : Bytecode} `{TS : TypeSystem}.
Variable debug : bool.

(** [Block(func, start, length)]. *)
Definition newBlock (f : Func) (start : Offset) (len : Z) : Block :=
  {| m_func := f; m_start := start; m_length := len;
     m_typePreds := []; m_byRefs := []; m_refPreds := [] |}.

(** The accessors [unit()], [start()] and [length()] of a block. *)
Definition Block_unit (b : Block) : Unit := func_unit (m_func b).
Definition Block_start (b : Block) : SrcKey :=
  {| sk_funcId := func_id (m_func b); sk_offset := m_start b |}.
Definition Block_length (b : Block) : Z := m_length b.

(** [lastKey]: the greatest key of the set, with its own assertion. *)
Definition lastKey (keysInRange : list SrcKey) : Outcome SrcKey :=
  match rev keysInRange with
  | [] => Abort
  | k :: _ => Done k
  end.

(** The body of [for (int i = 1; i < length(); ++i)], run for the [n]
    remaining values of [i]. *)
Fixpoint keysLoop (b : Block) (n : nat) (i : Z) (keysInRange : list SrcKey)
  : Outcome (list SrcKey) :=
  match n with
  | O => Done keysInRange
  | S n' =>
      (if negb (i =? Block_length b - 1) then
         k <- lastKey keysInRange ;;
         let pc := unit_at (Block_unit b) (sk_offset k) in
         (if instrFlagsTF pc then Abort else Done tt) ;;;
         (if instrIsNonCallControlFlow pc then Abort else Done tt)
       else Done tt) ;;;
      k <- lastKey keysInRange ;;
      keysLoop b n' (i + 1) (set_insert (advanced k (Block_unit b)) keysInRange)
  end.

(** The lambda [rangeCheck]. *)
Definition rangeCheck (keysInRange : list SrcKey) (sk : SrcKey) : Outcome unit :=
  if set_count sk keysInRange then Done tt else Abort.

(** [RegionDesc::Block::checkInvariants].  The [FTRACE] and [std::cerr]
    lines that precede a failing assertion only report it and are left
    out. *)
Definition checkInvariants (b : Block) : Outcome unit :=
  if negb debug || (Block_length b =? 0) then Done tt
  else
    keysInRange <- keysLoop b (Z.to_nat (Block_length b - 1)) 1 (set_insert (Block_start b) []) ;;
    (if Z.of_nat (List.length keysInRange) =? Block_length b then Done tt else Abort) ;;;
    for_each (fun tpred : SrcKey * TypePred =>
                rangeCheck keysInRange (fst tpred) ;;;
                match location (snd tpred) with
                | Local locId =>
                    if locId <? func_numLocals (m_func b) then Done tt else Abort
                | Stack _ => Done tt
                end)
             (m_typePreds b) ;;;
    for_each (fun byRef : SrcKey * ParamByRef => rangeCheck keysInRange (fst byRef))
             (m_byRefs b) ;;;
    for_each (fun refPred : SrcKey * ReffinessPred =>
                rangeCheck keysInRange (fst refPred))
             (m_refPreds b).

(** Modelled from the spec: [Block::addInstruction] (defined in
    region_selection.h): increments the length by one; as after every
    mutation of a block, the checker runs in a debug build. *)
Definition addInstruction (b : Block) : Outcome Block :=
  let b' := {| m_func := m_func b; m_start := m_start b; m_length := m_length b + 1;
               m_typePreds := m_typePreds b; m_byRefs := m_byRefs b;
               m_refPreds := m_refPreds b |} in
  checkInvariants b' ;;;
  Done b'.

(** [RegionDesc::Block::addPredicted]. *)
Definition addPredicted (b : Block) (sk : SrcKey) (pred : TypePred) : Outcome Block :=
  assert_ debug (subtypeOfGenCls (type pred)) ;;;
  let b' := {| m_func := m_func b; m_start := m_start b; m_length := m_length b;
               m_typePreds := multimap_insert sk pred (m_typePreds b);
               m_byRefs := m_byRefs b; m_refPreds := m_refPreds b |} in
  checkInvariants b' ;;;
  Done b'.

(** [RegionDesc::Block::setParamByRef]. *)
Definition setParamByRef (b : Block) (sk : SrcKey) (byRef : ParamByRef) : Outcome Block :=
  assert_ debug (match map_find sk (m_byRefs b) with None => true | Some _ => false end) ;;;
  let b' := {| m_func := m_func b; m_start := m_start b; m_length := m_length b;
               m_typePreds := m_typePreds b;
               m_byRefs := map_insert sk byRef (m_byRefs b);
               m_refPreds := m_refPreds b |} in
  checkInvariants b' ;;;
  Done b'.

(** [RegionDesc::Block::addReffinessPred]. *)
Definition addReffinessPred (b : Block) (sk : SrcKey) (pred : ReffinessPred)
  : Outcome Block :=
  let b' := {| m_func := m_func b; m_start := m_start b; m_length := m_length b;
               m_typePreds := m_typePreds b; m_byRefs := m_byRefs b;
               m_refPreds := multimap_insert sk pred (m_refPreds b) |} in
  checkInvariants b' ;;;
  Done b'.

End BlockOps.

(** ** The tracer's side of the interface *)

Module Transl.

(** Modelled from the spec: the space of a tracer location (declared in
    translator.h): the stack, the locals, the [this] receiver, or one of the
    other spaces, which the builder never expects among dependencies. *)
Inductive Space : Type :=
| Stack
| Local
| This
| OtherSpace (tag : Z).

(** [Transl::Location]; [offset] is an [int64_t]. *)
Record Location : Type := {
  space : Space;
  offset : Z
}.

Definition isThis (l : Location) : bool :=
  match space l with
  | This => true
  | _ => false
  end.

Record DynLocation `{TypeSystem} : Type := {
  rtt : RuntimeType;
  location : Location
}.

(** [Transl::NormalizedInstruction], with the fields the builder reads;
    [next] is the tail of the instruction list. *)
Record NormalizedInstruction `{Bytecode} : Type := {
  source : SrcKey;
  m_unit : Unit;
  noOp : bool;
  op : Op;
  preppedByRef : bool;
  imm0_BA : Offset
}.

(** [RefDeps::Record]. *)
Record RefDepsRecord : Type := {
  m_mask : list bool;
  m_vals : list bool
}.

(** [Transl::Tracelet]: [m_instrStream] lists the instructions from
    [m_instrStream.first] on, [m_dependencies] and [m_arMap] list their
    entries in iteration order. *)
Record Tracelet `{Bytecode} `{TypeSystem} : Type := {
  m_sk : SrcKey;
  m_func : Func;
  m_instrStream : list NormalizedInstruction;
  m_dependencies : list (Location * DynLocation);
  m_arMap : list (Z * RefDepsRecord)
}.

End Transl.

Section Builder.
Context `{BC : Bytecode} `{TS : TypeSystem}.
Variable debug : bool.

(** [ni->offset()]. *)
Definition ni_offset (ni : Transl.NormalizedInstruction) : Offset :=
  sk_offset (Transl.source ni).

(** [ni->op() == OpJmp]. *)
Definition isJmp (ni : Transl.NormalizedInstruction) : bool :=
  if Op_eq_dec (Transl.op ni) OpJmp then true else false.

(** [ni->next] is non-null. *)
Definition hasNext (next : list Transl.NormalizedInstruction) : bool :=
  match next with
  | [] => false
  | _ :: _ => true
  end.

(** The flag recorded for an argument-passing instruction. *)
Definition byRefOf (ni : Transl.NormalizedInstruction) : ParamByRef :=
  if Transl.preppedByRef ni then Yes else No.

(** The instruction loop of [createRegion].  [closed] are the blocks already
    terminated, in order; [curBlock] is [region->blocks.back()]. *)
Fixpoint walk (f : Func) (u : Unit) (nis : list Transl.NormalizedInstruction)
  (sk : SrcKey) (closed : list Block) (curBlock : Block) : Outcome (list Block) :=
  match nis with
  | [] => Done (closed ++ [curBlock])
  | ni :: next =>
      assert_ debug (SrcKey_eqb sk (Transl.source ni)) ;;;
      assert_ debug (unit_addr (Transl.m_unit ni) =? unit_addr u) ;;;
      curBlock <- addInstruction debug curBlock ;;
      curBlock <- (if negb (Transl.noOp ni) && isFPassStar (Transl.op ni)
                   then setParamByRef debug curBlock sk (byRefOf ni)
                   else Done curBlock) ;;
      if isJmp ni && hasNext next then
        let dest := ni_offset ni + Transl.imm0_BA ni in
        assert_ debug (dest >? sk_offset sk) ;;;
        let sk := setOffset sk dest in
        walk f u next sk (closed ++ [curBlock]) (newBlock f (sk_offset sk) 0)
      else
        walk f u next (advanced sk u) closed curBlock
  end.

(** The body of the loop over [tlet.m_dependencies]. *)
Definition addDependency (tlet : Transl.Tracelet) (frontBlock : Block)
  (dep : Transl.Location * Transl.DynLocation) : Outcome Block :=
  if isVagueValue (Transl.rtt (snd dep)) || Transl.isThis (Transl.location (snd dep))
  then Done frontBlock
  else
    let addPred (loc : Location) :=
      let type := fromRuntimeType (Transl.rtt (snd dep)) in
      addPredicted debug frontBlock (Transl.m_sk tlet) {| location := loc; type := type |} in
    match Transl.space (fst dep) with
    | Transl.Stack => addPred (Stack (to_uint32 (- Transl.offset (fst dep) - 1)))
    | Transl.Local => addPred (Local (to_uint32 (Transl.offset (fst dep))))
    | _ => not_reached debug
    end.

(** The body of the loop over [tlet.m_refDeps.m_arMap]. *)
Definition addRefDep (tlet : Transl.Tracelet) (frontBlock : Block)
  (dep : Z * Transl.RefDepsRecord) : Outcome Block :=
  let pred := {| mask := Transl.m_mask (snd dep);
                 vals := Transl.m_vals (snd dep);
                 arSpOffset := fst dep |} in
  addReffinessPred debug frontBlock (Transl.m_sk tlet) pred.

(** A loop that updates the front block once per entry. *)
Fixpoint foldM {A : Type} (f : Block -> A -> Outcome Block) (l : list A) (b : Block)
  : Outcome Block :=
  match l with
  | [] => Done b
  | a :: l' => b' <- f b a ;; foldM f l' b'
  end.

(** [createRegion]. *)
Definition createRegion (tlet : Transl.Tracelet) : Outcome RegionDesc :=
  match Transl.m_instrStream tlet with
  | [] => Undefined   (* [m_instrStream.first] is dereferenced *)
  | first :: _ =>
      let sk := Transl.m_sk tlet in
      assert_ debug (SrcKey_eqb sk (Transl.source first)) ;;;
      let u := Transl.m_unit first in
      bs <- walk (Transl.m_func tlet) u (Transl.m_instrStream tlet) sk []
                 (newBlock (Transl.m_func tlet) (sk_offset sk) 0) ;;
      match bs with
      | [] => Undefined
      | frontBlock :: rest =>
          frontBlock <- foldM (addDependency tlet) (Transl.m_dependencies tlet) frontBlock ;;
          frontBlock <- foldM (addRefDep tlet) (Transl.m_arMap tlet) frontBlock ;;
          Done {| blocks := frontBlock :: rest |}
      end
  end.

End Builder.

(** ** The selector *)

Module RegionMode.
Inductive t : Type := None | OneBC | Method | Tracelet.
End RegionMode.

(** Modelled from the spec: [RegionContext] (declared in
    region_selection.h): the function, the entry offset, the live types and
    the pending call frames. *)
Record PreLiveAR `{Bytecode} `{TypeSystem} : Type := {
  stackOff : Z;
  ar_func : Func;
  objOrCls : JitType
}.

Record RegionContext `{Bytecode} `{TypeSystem} : Type := {
  ctx_func : Func;
  ctx_offset : Offset;
  liveTypes : list TypePred;
  preLiveARs : list PreLiveAR
}.

Inductive Strategy : Type := RegionOneBC | RegionMethod | CreateRegion.

(** The [FTRACE] lines of the selector, by their format string. *)
Inductive TraceMsg `{Bytecode} `{TypeSystem} : Type :=
| UnknownRegionMode (s : string)
| SelectRegion (context : RegionContext) (mode : RegionMode.t)
| ConvertedTracelet (tlet : Transl.Tracelet) (region : RegionDesc)
| SelectorThrew (what : string)
| ShowRegion (region : RegionDesc)
| NoRegionSelectable.

(** What a run of the selector does besides returning: the [FTRACE] calls
    it makes (with their level) and the strategies it invokes. *)
Inductive Event `{Bytecode} `{TypeSystem} : Type :=
| FTRACE (level : nat) (msg : TraceMsg)
| Invoke (s : Strategy).

Definition Traced `{Bytecode} `{TypeSystem} (A : Type) : Type :=
  (list Event * Outcome A)%type.

Section Selector.
Context `{BC : Bytecode} `{TS : TypeSystem}.
Variable debug : bool.

(** [extern RegionDescPtr regionMethod(const RegionContext&)] and
    [regionOneBC]. *)
Variable regionMethod : RegionContext -> Outcome RegionDescPtr.
Variable regionOneBC : RegionContext -> Outcome RegionDescPtr.

Definition tret {A : Type} (a : A) : Traced A := ([], Done a).

Definition tbind {A B : Type} (m : Traced A) (k : A -> Traced B) : Traced B :=
  match m with
  | (ev, Done a) => let (ev', r) := k a in (ev ++ ev', r)
  | (ev, Abort) => (ev, Abort)
  | (ev, Undefined) => (ev, Undefined)
  | (ev, Throw e) => (ev, Throw e)
  end.

Definition ftrace (level : nat) (msg : TraceMsg) : Traced unit :=
  ([FTRACE level msg], Done tt).

Definition invoke {A : Type} (s : Strategy) (r : Outcome A) : Traced A :=
  ([Invoke s], r).

(** [try { body } catch (const std::exception& e) { handler }]. *)
Definition try_catch {A : Type} (body : Traced A) (handler : string -> Traced A)
  : Traced A :=
  match body with
  | (ev, Throw (StdException what)) =>
      let (ev', r) := handler what in (ev ++ ev', r)
  | _ => body
  end.

(** [regionMode], reading [RuntimeOption::EvalJitRegionSelector]. *)
Definition regionMode (EvalJitRegionSelector : string) : Traced RegionMode.t :=
  let s := EvalJitRegionSelector in
  if (s =? "")%string then tret RegionMode.None
  else if (s =? "onebc")%string then tret RegionMode.OneBC
  else if (s =? "method")%string then tret RegionMode.Method
  else if (s =? "tracelet")%string then tret RegionMode.Tracelet
  else
    tbind (ftrace 1 (UnknownRegionMode s)) (fun _ =>
    if debug then ([], Abort) else tret RegionMode.None).

(** The call of [createRegion] with the [FTRACE] that ends it. *)
Definition createRegion_traced (tlet : Transl.Tracelet) : Traced RegionDescPtr :=
  tbind (invoke CreateRegion (createRegion debug tlet)) (fun region =>
  tbind (ftrace 2 (ConvertedTracelet tlet region)) (fun _ =>
  tret (Some region))).

(** [t], a pointer, read as a condition. *)
Definition isSome {A : Type} (t : option A) : bool :=
  match t with
  | Some _ => true
  | None => false
  end.

(** The body of the [try] block of [selectRegion], the [switch] on the
    mode, over the ways the call [createRegion( *t)] can end: [builder tlet]
    is the run of that call.  The embedding of [createRegion] has no exit
    by an exception, since it leaves out what the callees of the builder
    may throw (the allocator, the containers, the rendering of the
    arguments of its [FTRACE]); the selector is embedded over every builder
    so that what it does with such an exception can be stated. *)
Definition dispatchOver (builder : Transl.Tracelet -> Traced RegionDescPtr)
  (mode : RegionMode.t) (context : RegionContext)
  (t : option Transl.Tracelet) : Traced RegionDescPtr :=
  match mode with
  | RegionMode.None => tret None
  | RegionMode.OneBC => invoke RegionOneBC (regionOneBC context)
  | RegionMode.Method => invoke RegionMethod (regionMethod context)
  | RegionMode.Tracelet =>
      tbind ([], always_assert (isSome t)) (fun _ =>
      match t with
      | Some tlet => builder tlet
      | None => ([], Undefined)   (* [*t] of a null pointer *)
      end)
  end.

(** [selectRegion], over the ways the call of the builder can end. *)
Definition selectRegionOver (builder : Transl.Tracelet -> Traced RegionDescPtr)
  (EvalJitRegionSelector : string)
  (context : RegionContext) (t : option Transl.Tracelet) : Traced RegionDescPtr :=
  tbind (regionMode EvalJitRegionSelector) (fun mode =>
  tbind (ftrace 1 (SelectRegion context mode)) (fun _ =>
  tbind (try_catch (dispatchOver builder mode context t)
           (fun what =>
              tbind (ftrace 1 (SelectorThrew what)) (fun _ => tret None)))
        (fun region =>
  tbind (match region with
         | Some r => ftrace 3 (ShowRegion r)
         | None => ftrace 1 NoRegionSelectable
         end) (fun _ =>
  tret region)))).

(** The body of the [try] block with the embedded builder. *)
Definition dispatch (mode : RegionMode.t) (context : RegionContext)
  (t : option Transl.Tracelet) : Traced RegionDescPtr :=
  dispatchOver createRegion_traced mode context t.

(** [selectRegion]. *)
Definition selectRegion (EvalJitRegionSelector : string)
  (context : RegionContext) (t : option Transl.Tracelet) : Traced RegionDescPtr :=
  selectRegionOver createRegion_traced EvalJitRegionSelector context t.

End Selector.

(** ** Diagnostic rendering *)

(** [show(RegionDesc::ParamByRef)]. *)
Definition show_ParamByRef (byRef : ParamByRef) : string :=
  match byRef with
  | Yes => "by value"
  | No => "by reference"
  end.

(** The decimal digits of an integer, with a leading minus sign for a
    negative one: what [folly::format("{}", n)] and [operator<<] write for
    an integer [n]. *)
Definition decimal (z : Z) : string := NilEmpty.string_of_int (Z.to_int z).

(** [show(RegionDesc::Location)]. *)
Definition show_Location (l : Location) : string :=
  match l with
  | Local locId => "Local{" ++ decimal locId ++ "}"
  | Stack offset => "Stack{" ++ decimal offset ++ "}"
  end.

(** [Type::toString], an external collaborator. *)
Class TypePrinter `{TypeSystem} : Type := {
  toString : JitType -> string
}.

(** [show(RegionDesc::TypePred)]. *)
Definition show_TypePred `{TypePrinter} (ta : TypePred) : string :=
  show_Location (location ta) ++ " :: " ++ toString (type ta).

(** [show(RegionContext::LiveType)]; a live type has the fields of a type
    prediction. *)
Definition show_LiveType `{TypePrinter} (ta : TypePred) : string :=
  show_Location (location ta) ++ " :: " ++ toString (type ta).

(** The loop [for (auto const bit : v) out << (bit ? '1' : '0')]. *)
Definition show_bits (v : list bool) : string :=
  string_of_list_ascii (map (fun bit : bool => if bit then "1" else "0")%char v).

(** [show(const RegionDesc::ReffinessPred&)]. *)
Definition show_ReffinessPred (pred : ReffinessPred) : string :=
  "offset: " ++ decimal (arSpOffset pred)
  ++ " mask: " ++ show_bits (mask pred)
  ++ " vals: " ++ show_bits (vals pred).

(** ** Sample collaborators and inputs

    A small opcode table with the flags these opcodes have in HHBC, a small
    type lattice, and the units and tracelets the examples below run on. *)

(** *** Collaborators *)

Inductive SampleOp : Type := Nop | Jmp | JmpZ | RetC | FPassC | FCall.

Definition SampleOp_eq_dec (a b : SampleOp) : {a = b} + {a <> b}.
Proof. decide equality. Defined.

#[export] Instance SampleBytecode : Bytecode := {|
  Op := SampleOp;
  OpJmp := Jmp;
  Op_eq_dec := SampleOp_eq_dec;
  isFPassStar := fun o => match o with FPassC => true | _ => false end;
  instrFlagsTF := fun o => match o with Jmp | RetC => true | _ => false end;
  instrIsNonCallControlFlow :=
    fun o => match o with Jmp | JmpZ | RetC => true | _ => false end
|}.

Inductive SampleType : Type := TInt | TStr | TCls | TGen | TStkPtr.
Inductive SampleRtt : Type := RttInt | RttStr | RttVague.

#[export] Instance SampleTypes : TypeSystem := {|
  JitType := SampleType;
  RuntimeType := SampleRtt;
  isVagueValue := fun r => match r with RttVague => true | _ => false end;
  fromRuntimeType := fun r => match r with RttInt => TInt | RttStr => TStr | RttVague => TGen end;
  subtypeOfGenCls := fun t => match t with TStkPtr => false | _ => true end
|}.

Definition sampleToString (t : SampleType) : string :=
  match t with
  | TInt => "Int"
  | TStr => "Str"
  | TCls => "Cls"
  | TGen => "Gen"
  | TStkPtr => "StkPtr"
  end.

#[export] Instance SampleTypePrinter : @TypePrinter SampleTypes := {|
  toString := sampleToString
|}.

(** *** Units, functions and positions *)

(** A unit holding [FPassC] at 10, [Jmp +20] at 11, [FPassC] at 31 and
    [RetC] at 32; every other offset decodes to a one-byte [Nop]. *)
Definition sampleUnit : Unit := {|
  unit_addr := 4096;
  unit_at := fun o =>
    if o =? 10 then FPassC else if o =? 11 then Jmp
    else if o =? 31 then FPassC else if o =? 32 then RetC else Nop;
  unit_instrLen := fun o => if o =? 11 then 5 else 1
|}.

Definition sampleFunc : Func := {|
  func_id := 7;
  func_unit := sampleUnit;
  func_numLocals := 2
|}.

Definition sampleKey (o : Offset) : SrcKey := {| sk_funcId := 7; sk_offset := o |}.

(** A unit with a [RetC] at 10 followed by one-byte [Nop]s. *)
Definition retUnit : Unit := {|
  unit_addr := 8192;
  unit_at := fun o => if o =? 10 then RetC else Nop;
  unit_instrLen := fun _ => 1
|}.

Definition retFunc : Func := {|
  func_id := 9;
  func_unit := retUnit;
  func_numLocals := 0
|}.

(** A unit of three-byte [Nop]s. *)
Definition wideUnit : Unit := {|
  unit_addr := 12288;
  unit_at := fun _ => Nop;
  unit_instrLen := fun _ => 3
|}.

Definition wideFunc : Func := {|
  func_id := 11;
  func_unit := wideUnit;
  func_numLocals := 0
|}.

(** The unit [sampleUnit] with its instructions after the one at 10
    replaced by [Nop]s of the same lengths. *)
Definition straightUnit : Unit := {|
  unit_addr := 4096;
  unit_at := fun o => if o =? 10 then FPassC else Nop;
  unit_instrLen := unit_instrLen sampleUnit
|}.

Definition straightFunc : Func := {|
  func_id := 7;
  func_unit := straightUnit;
  func_numLocals := 2
|}.

(** *** Blocks and their metadata *)

(** An empty block at offset 10 of [sampleFunc], and a position far from it. *)
Definition emptyBlock : Block := newBlock sampleFunc 10 0.
Definition farKey : SrcKey := sampleKey 99.
Definition sampleRefPred : ReffinessPred :=
  {| mask := [true]; vals := [false]; arSpOffset := 3 |}.

(** The empty block after a flag was set at the far position. *)
Definition flaggedEmptyBlock : Block :=
  {| m_func := sampleFunc; m_start := 10; m_length := 0;
     m_typePreds := []; m_byRefs := [ (farKey, Yes) ]; m_refPreds := [] |}.

(** A block of [sampleFunc] holding the two instructions at 10 and 11. *)
Definition twoInstrBlock : Block := newBlock sampleFunc 10 2.

(** The block of the two instructions at 10 and 13 of [wideFunc]. *)
Definition wideBlock : Block := newBlock wideFunc 10 2.

(** The block of the three instructions at 10, 11 and 16 of [sampleFunc]:
    an [FPassC], the [Jmp] and a [Nop]. *)
Definition jmpInsideBlock : Block := newBlock sampleFunc 10 3.

Definition samplePred (l : Location) (t : SampleType) : TypePred :=
  {| location := l; type := t |}.

(** *** Tracelets *)

Definition sampleInstr (o : Offset) (opc : SampleOp) (nop byRef : bool) (ba : Offset)
  : Transl.NormalizedInstruction := {|
  Transl.source := sampleKey o;
  Transl.m_unit := sampleUnit;
  Transl.noOp := nop;
  Transl.op := opc;
  Transl.preppedByRef := byRef;
  Transl.imm0_BA := ba
|}.

Definition sampleDep (s : Transl.Space) (o : Z) (r : SampleRtt)
  : Transl.Location * Transl.DynLocation :=
  ({| Transl.space := s; Transl.offset := o |},
   {| Transl.rtt := r; Transl.location := {| Transl.space := s; Transl.offset := o |} |}).

(** A tracelet that traces through the forward jump at 11. *)
Definition sampleTracelet : Transl.Tracelet := {|
  Transl.m_sk := sampleKey 10;
  Transl.m_func := sampleFunc;
  Transl.m_instrStream :=
    [ sampleInstr 10 FPassC false true 0;
      sampleInstr 11 Jmp false false 20;
      sampleInstr 31 FPassC true false 0;
      sampleInstr 32 RetC false false 0 ];
  Transl.m_dependencies :=
    [ sampleDep Transl.Stack (-1) RttInt;
      sampleDep Transl.Local 1 RttStr;
      sampleDep Transl.Stack (-2) RttVague;
      sampleDep Transl.This 0 RttInt ];
  Transl.m_arMap :=
    [ (3, {| Transl.m_mask := [true; false]; Transl.m_vals := [true; false] |}) ]
|}.

(** A tracelet with two argument passes, the first prepared by reference
    and the second by value, and no dependency. *)
Definition byValueTracelet : Transl.Tracelet := {|
  Transl.m_sk := sampleKey 10;
  Transl.m_func := sampleFunc;
  Transl.m_instrStream :=
    [ sampleInstr 10 FPassC false true 0;
      sampleInstr 11 Jmp false false 20;
      sampleInstr 31 FPassC false false 0;
      sampleInstr 32 RetC false false 0 ];
  Transl.m_dependencies := [];
  Transl.m_arMap := []
|}.

(** A tracelet with one dependency on the stack slot at tracer offset 0. *)
Definition stackZeroTracelet : Transl.Tracelet := {|
  Transl.m_sk := sampleKey 12;
  Transl.m_func := sampleFunc;
  Transl.m_instrStream := [ sampleInstr 12 Nop false false 0 ];
  Transl.m_dependencies := [ sampleDep Transl.Stack 0 RttInt ];
  Transl.m_arMap := []
|}.

(** A tracelet whose jump at 11 leads back to 10. *)
Definition backwardTracelet : Transl.Tracelet := {|
  Transl.m_sk := sampleKey 11;
  Transl.m_func := sampleFunc;
  Transl.m_instrStream :=
    [ sampleInstr 11 Jmp false false (-1); sampleInstr 10 FPassC true false 0 ];
  Transl.m_dependencies := [];
  Transl.m_arMap := []
|}.

(** *** Regions *)

(** The region the builder makes of [sampleTracelet]: a block for the
    instructions at 10 and 11, with the guards, and a block for those at 31
    and 32. *)
Definition sampleRegion : RegionDesc := {|
  blocks :=
    [ {| m_func := sampleFunc; m_start := 10; m_length := 2;
         m_typePreds := [ (sampleKey 10, samplePred (Stack 0) TInt);
                          (sampleKey 10, samplePred (Local 1) TStr) ];
         m_byRefs := [ (sampleKey 10, Yes) ];
         m_refPreds := [ (sampleKey 10,
                          {| mask := [true; false]; vals := [true; false];
                             arSpOffset := 3 |}) ] |};
      newBlock sampleFunc 31 2 ]
|}.

(** The region the builder makes of [byValueTracelet]. *)
Definition byValueRegion : RegionDesc := {|
  blocks :=
    [ {| m_func := sampleFunc; m_start := 10; m_length := 2;
         m_typePreds := []; m_byRefs := [ (sampleKey 10, Yes) ];
         m_refPreds := [] |};
      {| m_func := sampleFunc; m_start := 31; m_length := 2;
         m_typePreds := []; m_byRefs := [ (sampleKey 31, No) ];
         m_refPreds := [] |} ]
|}.

(** A region of one block, of the three instructions at 10, 11 and 12 of
    [retFunc]. *)
Definition retRegion : RegionDesc := {| blocks := [ newBlock retFunc 10 3 ] |}.

(** The region the builder makes of [stackZeroTracelet]. *)
Definition stackZeroRegion : RegionDesc := {|
  blocks :=
    [ {| m_func := sampleFunc; m_start := 12; m_length := 1;
         m_typePreds := [ (sampleKey 12, samplePred (Stack 4294967295) TInt) ];
         m_byRefs := []; m_refPreds := [] |} ]
|}.

(** *** Inputs of the selector *)

Definition sampleContext : RegionContext := {|
  ctx_func := sampleFunc;
  ctx_offset := 10;
  liveTypes := [];
  preLiveARs := []
|}.

(** A strategy that finds no region, one that fails with a
    [std::runtime_error], and one that throws an object that is not a
    [std::exception]. *)
Definition noRegionStrategy (_ : RegionContext) : Outcome RegionDescPtr :=
  Done None.
Definition failingStrategy (_ : RegionContext) : Outcome RegionDescPtr :=
  Throw (StdException "unsupported").
Definition foreignStrategy (_ : RegionContext) : Outcome RegionDescPtr :=
  Throw ForeignException.

(** A call of the builder that a [std::bad_alloc] of the allocator cuts
    short, and one that an object which is no [std::exception] cuts short. *)
Definition outOfMemoryBuilder (_ : Transl.Tracelet) : Traced RegionDescPtr :=
  ([Invoke CreateRegion], Throw (StdException "std::bad_alloc")).
Definition foreignBuilder (_ : Transl.Tracelet) : Traced RegionDescPtr :=
  ([Invoke CreateRegion], Throw ForeignException).

(** ** Notions the properties are stated with *)

(** A computation that can only return or abort. *)
Definition returnsOrAborts {A : Type} (m : Outcome A) : Prop :=
  m = Abort \/ exists a, m = Done a.

Section Notions.
Context `{BC : Bytecode} `{TS : TypeSystem}.

(** *** Positions *)

(** The positions of [n] instructions, stepping through [u] from [sk]. *)
Fixpoint keysFrom (u : Unit) (sk : SrcKey) (n : nat) : list SrcKey :=
  match n with
  | O => []
  | S n' => sk :: keysFrom u (advanced sk u) n'
  end.

(** The position of the [n]-th instruction after the one at [sk]. *)
Fixpoint nthKey (u : Unit) (sk : SrcKey) (n : nat) : SrcKey :=
  match n with
  | O => sk
  | S n' => nthKey u (advanced sk u) n'
  end.

(** The instruction positions of a block. *)
Definition blockKeys (b : Block) : list SrcKey :=
  keysFrom (Block_unit b) (Block_start b) (Z.to_nat (Block_length b)).

(** The position [sk] is one of the block's. *)
Definition inRange (b : Block) (sk : SrcKey) : bool :=
  set_count sk (blockKeys b).

(** The offset of the [n]-th instruction after the one at [o]. *)
Fixpoint nthOffset (u : Unit) (o : Offset) (n : nat) : Offset :=
  match n with
  | O => o
  | S n' => nthOffset u (o + unit_instrLen u o) n'
  end.

(** The offsets of [n] instructions from [o] on. *)
Fixpoint offsetsFrom (u : Unit) (o : Offset) (n : nat) : list Offset :=
  match n with
  | O => []
  | S n' => o :: offsetsFrom u (o + unit_instrLen u o) n'
  end.

(** The instructions at the positions [l] have a positive length. *)
Definition stepsForward (u : Unit) (l : list SrcKey) : Prop :=
  Forall (fun k => 0 < unit_instrLen u (sk_offset k)) l.

(** *** Blocks *)

(** An instruction that may stand in the middle of a block: it falls
    through and is no control flow other than a call. *)
Definition midBlockOk (o : Op) : bool :=
  negb (instrFlagsTF o) && negb (instrIsNonCallControlFlow o).

(** Invariant 1 of [checkInvariants]: every instruction of the block but
    the last may stand in the middle of a block. *)
Definition singleEntrySingleExit (b : Block) : bool :=
  forallb (fun sk => midBlockOk (unit_at (Block_unit b) (sk_offset sk)))
          (removelast (blockKeys b)).

(** What the checker asks of the instructions and the flags of a block:
    the instructions but the last step forward and may stand in the middle
    of a block, and every flag is keyed by a position of the block. *)
Definition blockChecks (b : Block) : Prop :=
  stepsForward (Block_unit b) (removelast (blockKeys b))
  /\ singleEntrySingleExit b = true
  /\ (forall k v, In (k, v) (m_byRefs b) -> In k (blockKeys b)).

(** A type prediction the checker accepts in block [b]. *)
Definition typePredChecks (b : Block) (p : SrcKey * TypePred) : Prop :=
  In (fst p) (blockKeys b)
  /\ match location (snd p) with
     | Local locId => locId < func_numLocals (m_func b)
     | Stack _ => True
     end.

(** Two blocks with the same function, start, length and flags. *)
Definition sameShape (b b' : Block) : Prop :=
  m_func b' = m_func b /\ m_start b' = m_start b /\ m_length b' = m_length b
  /\ m_byRefs b' = m_byRefs b.

(** A mapping whose keys ascend strictly, as those of a [std::map] do. *)
Definition keysAscend {V : Type} (m : list (SrcKey * V)) : Prop :=
  Sorted (fun a b => SrcKey_ltb a b = true) (map fst m).

(** All flags of a region. *)
Definition allByRefs (bs : list Block) : list (SrcKey * ParamByRef) :=
  flat_map m_byRefs bs.

(** *** Traces *)

(** An instruction for which the builder records a by-reference flag. *)
Definition isArgPass (ni : Transl.NormalizedInstruction) : bool :=
  negb (Transl.noOp ni) && isFPassStar (Transl.op ni).

(** A block with one more instruction. *)
Definition lengthened (b : Block) : Block :=
  {| m_func := m_func b; m_start := m_start b; m_length := m_length b + 1;
     m_typePreds := m_typePreds b; m_byRefs := m_byRefs b;
     m_refPreds := m_refPreds b |}.

(** The block an iteration of the loop leaves behind: one instruction
    longer, with a flag when the instruction passes an argument. *)
Definition visited (ni : Transl.NormalizedInstruction) (sk : SrcKey) (b : Block) : Block :=
  {| m_func := m_func b; m_start := m_start b; m_length := m_length b + 1;
     m_typePreds := m_typePreds b;
     m_byRefs := if isArgPass ni then map_insert sk (byRefOf ni) (m_byRefs b)
                 else m_byRefs b;
     m_refPreds := m_refPreds b |}.

(** The jumps the builder traces through: every [Jmp] that has a successor. *)
Fixpoint nonFinalJmps (nis : list Transl.NormalizedInstruction)
  : list Transl.NormalizedInstruction :=
  match nis with
  | [] => []
  | ni :: next =>
      if isJmp ni && hasNext next then ni :: nonFinalJmps next
      else nonFinalJmps next
  end.

(** The branch target of a jump. *)
Definition jmpTarget (ni : Transl.NormalizedInstruction) : Offset :=
  ni_offset ni + Transl.imm0_BA ni.

(** The trace cut after each jump that has a successor; [seg] collects, in
    reverse, the instructions of the segment under construction. *)
Fixpoint splitAtJmps (nis seg : list Transl.NormalizedInstruction)
  : list (list Transl.NormalizedInstruction) :=
  match nis with
  | [] => [rev seg]
  | ni :: next =>
      if isJmp ni && hasNext next then rev (ni :: seg) :: splitAtJmps next []
      else splitAtJmps next (ni :: seg)
  end.

(** The position at which the loop of [createRegion] visits each
    instruction, starting at [sk]. *)
Fixpoint visits (u : Unit) (sk : SrcKey) (nis : list Transl.NormalizedInstruction)
  : list (SrcKey * Transl.NormalizedInstruction) :=
  match nis with
  | [] => []
  | ni :: next =>
      (sk, ni)
      :: visits u (if isJmp ni && hasNext next then setOffset sk (jmpTarget ni)
                   else advanced sk u) next
  end.

(** The trace agrees with the unit: every instruction records the position
    at which the loop visits it and the opcode the unit holds there. *)
Definition followsUnit (u : Unit) (sk : SrcKey)
  (nis : list Transl.NormalizedInstruction) : Prop :=
  Forall (fun v => Transl.source (snd v) = fst v
                   /\ Transl.op (snd v) = unit_at u (sk_offset (fst v)))
         (visits u sk nis).

(** The tracelet is one of its function's unit. *)
Definition traceFollowsUnit (tlet : Transl.Tracelet) : Prop :=
  match Transl.m_instrStream tlet with
  | [] => False
  | first :: _ => Transl.m_unit first = func_unit (Transl.m_func tlet)
  end
  /\ followsUnit (func_unit (Transl.m_func tlet)) (Transl.m_sk tlet)
                 (Transl.m_instrStream tlet).

(** Every instruction of the trace that has a successor and is no [Jmp] may
    stand in the middle of a block. *)
Fixpoint midTraceOk (nis : list Transl.NormalizedInstruction) : Prop :=
  match nis with
  | [] => True
  | ni :: next =>
      (hasNext next = true -> isJmp ni = false -> midBlockOk (Transl.op ni) = true)
      /\ midTraceOk next
  end.

(** *** Dependencies *)

(** A dependency the builder lifts into a type prediction. *)
Definition isLifted (dep : Transl.Location * Transl.DynLocation) : bool :=
  negb (isVagueValue (Transl.rtt (snd dep)))
  && negb (Transl.isThis (Transl.location (snd dep))).

(** The location the builder gives to a dependency of the tracer. *)
Definition liftedLocation (l : Transl.Location) : option Location :=
  match Transl.space l with
  | Transl.Stack => Some (Stack (to_uint32 (- Transl.offset l - 1)))
  | Transl.Local => Some (Local (to_uint32 (Transl.offset l)))
  | _ => None
  end.

(** The entry of the type-prediction mapping a dependency is lifted to. *)
Definition liftedPred (tlet : Transl.Tracelet)
  (dep : Transl.Location * Transl.DynLocation) : option (SrcKey * TypePred) :=
  option_map (fun loc => (Transl.m_sk tlet,
                          {| location := loc;
                             type := fromRuntimeType (Transl.rtt (snd dep)) |}))
             (liftedLocation (fst dep)).

(** The entry of the reffiness mapping a reffiness dependency is lifted to. *)
Definition liftedRefPred (tlet : Transl.Tracelet) (dep : Z * Transl.RefDepsRecord)
  : SrcKey * ReffinessPred :=
  (Transl.m_sk tlet,
   {| mask := Transl.m_mask (snd dep); vals := Transl.m_vals (snd dep);
      arSpOffset := fst dep |}).

(** Every dependency that is lifted is a stack or a local one. *)
Definition dependenciesInSpace (tlet : Transl.Tracelet) : Prop :=
  forall dep, In dep (Transl.m_dependencies tlet) -> isLifted dep = true ->
    Transl.space (fst dep) = Transl.Stack \/ Transl.space (fst dep) = Transl.Local.

(** A dependency whose lifting passes the assertions of a debug build. *)
Definition dependencyChecks (tlet : Transl.Tracelet)
  (dep : Transl.Location * Transl.DynLocation) : Prop :=
  isLifted dep = true ->
  subtypeOfGenCls (fromRuntimeType (Transl.rtt (snd dep))) = true
  /\ (Transl.space (fst dep) = Transl.Stack
      \/ (Transl.space (fst dep) = Transl.Local
          /\ to_uint32 (Transl.offset (fst dep))
             < func_numLocals (Transl.m_func tlet))).

(** *** Well-formed tracelets *)

(** A tracelet as the tracer makes them: it starts in its function, all its
    instructions are of the function's unit and record the position and the
    opcode the unit has for them, they have a positive length, the jumps
    traced through lead forward, no other instruction that has a successor
    leaves the straight line, and the dependencies pass the assertions. *)
Definition wellFormedTracelet (tlet : Transl.Tracelet) : Prop :=
  sk_funcId (Transl.m_sk tlet) = func_id (Transl.m_func tlet)
  /\ Transl.m_instrStream tlet <> []
  /\ Forall (fun ni => Transl.m_unit ni = func_unit (Transl.m_func tlet))
            (Transl.m_instrStream tlet)
  /\ followsUnit (func_unit (Transl.m_func tlet)) (Transl.m_sk tlet)
                 (Transl.m_instrStream tlet)
  /\ stepsForward (func_unit (Transl.m_func tlet))
                  (map fst (visits (func_unit (Transl.m_func tlet)) (Transl.m_sk tlet)
                                   (Transl.m_instrStream tlet)))
  /\ Forall (fun j => ni_offset j < jmpTarget j)
            (nonFinalJmps (Transl.m_instrStream tlet))
  /\ midTraceOk (Transl.m_instrStream tlet)
  /\ Forall (dependencyChecks tlet) (Transl.m_dependencies tlet).

(** *** Offsets of the width of the source's [Offset] *)

(** The number is one a 32-bit signed [Offset] holds. *)
Definition fitsInt32 (z : Z) : Prop := - 2 ^ 31 <= z < 2 ^ 31.

(** No offset the builder computes for the tracelet leaves the range of
    [Offset]: the positions it visits, the position after each of them,
    and the displacement and the target of every jump. *)
Definition offsetsFit (tlet : Transl.Tracelet) : Prop :=
  Forall (fun v : SrcKey * Transl.NormalizedInstruction =>
            fitsInt32 (sk_offset (fst v))
            /\ fitsInt32 (sk_offset (fst v)
                          + unit_instrLen (func_unit (Transl.m_func tlet))
                                          (sk_offset (fst v)))
            /\ (isJmp (snd v) = true ->
                fitsInt32 (Transl.imm0_BA (snd v)) /\ fitsInt32 (jmpTarget (snd v))))
         (visits (func_unit (Transl.m_func tlet)) (Transl.m_sk tlet)
                 (Transl.m_instrStream tlet)).

(** *** What the checker looks at *)

(** The positions whose instruction the loop of [checkInvariants]
    inspects: those of the first [length() - 2] instructions of the block. *)
Definition checkedKeys (b : Block) : list SrcKey :=
  keysFrom (Block_unit b) (Block_start b) (Z.to_nat (Block_length b - 2)).

(** The instructions the loop inspects may all stand in the middle of a
    block. *)
Definition checkedMidBlock (b : Block) : bool :=
  forallb (fun sk => midBlockOk (unit_at (Block_unit b) (sk_offset sk)))
          (checkedKeys b).

(** The test the checker makes on one type prediction. *)
Definition typePredOk (b : Block) (p : SrcKey * TypePred) : bool :=
  inRange b (fst p)
  && match location (snd p) with
     | Local locId => locId <? func_numLocals (m_func b)
     | Stack _ => true
     end.

(** The tests the checker makes on the three mappings. *)
Definition metadataOk (b : Block) : bool :=
  forallb (typePredOk b) (m_typePreds b)
  && forallb (fun p : SrcKey * ParamByRef => inRange b (fst p)) (m_byRefs b)
  && forallb (fun p : SrcKey * ReffinessPred => inRange b (fst p)) (m_refPreds b).

(** The flags of a block are keyed by positions of the block. *)
Definition flagsInRange (b : Block) : Prop :=
  0 <= m_length b
  /\ forall k v, In (k, v) (m_byRefs b) -> In k (blockKeys b).

(** Two blocks that differ at most in the opcodes their units hold. *)
Definition sameButOpcodes (b1 b2 : Block) : Prop :=
  func_id (m_func b1) = func_id (m_func b2)
  /\ func_numLocals (m_func b1) = func_numLocals (m_func b2)
  /\ (forall o, unit_instrLen (Block_unit b1) o = unit_instrLen (Block_unit b2) o)
  /\ m_start b1 = m_start b2 /\ m_length b1 = m_length b2
  /\ m_typePreds b1 = m_typePreds b2 /\ m_byRefs b1 = m_byRefs b2
  /\ m_refPreds b1 = m_refPreds b2.

(** *** Rendered text *)

(** The character [c] occurs in [s]. *)
Fixpoint hasChar (c : ascii) (s : string) : bool :=
  match s with
  | EmptyString => false
  | String a s' => Ascii.eqb c a || hasChar c s'
  end.

(** *** Outcomes that are no exception *)

Definition neverThrows {A : Type} (m : Outcome A) : Prop :=
  forall e, m <> Throw e.

(** *** The strategies a run of the selector invokes *)

Definition isInvoke (ev : Event) : bool :=
  match ev with
  | Invoke _ => true
  | FTRACE _ _ => false
  end.

Definition invoked (ev : list Event) : list Event := filter isInvoke ev.

End Notions.

(** * Properties *)

(** ** Outcomes *)

Lemma bind_Done_inv (A B : Type) (m : Outcome A) (k : A -> Outcome B) (b : B) :
  bind m k = Done b -> exists a, m = Done a /\ k a = Done b.
Proof. destruct m; simpl; intros E; try discriminate; eauto. Qed.

Lemma assert_Done_inv (debug c : bool) (u : Datatypes.unit) :
  assert_ debug c = Done u -> debug = true -> c = true.
Proof. unfold assert_; intros E ->; destruct c; [reflexivity | discriminate]. Qed.

Lemma assert_release (c : bool) : assert_ false c = Done tt.
Proof. reflexivity. Qed.

Lemma returnsOrAborts_bind (A B : Type) (m : Outcome A) (k : A -> Outcome B) :
  returnsOrAborts m -> (forall a, returnsOrAborts (k a)) -> returnsOrAborts (bind m k).
Proof.
  intros [-> | [a ->]] Hk; simpl; [left; reflexivity | apply Hk].
Qed.

Lemma returnsOrAborts_for_each (A : Type) (f : A -> Outcome Datatypes.unit) (l : list A) :
  (forall a, returnsOrAborts (f a)) -> returnsOrAborts (for_each f l).
Proof.
  intros Hf; induction l as [|a l IH]; simpl.
  - right; eauto.
  - apply returnsOrAborts_bind; auto.
Qed.

Lemma for_each_Done_inv (A : Type) (f : A -> Outcome Datatypes.unit) (l : list A) :
  for_each f l = Done tt -> forall a, In a l -> f a = Done tt.
Proof.
  induction l as [|x l IH]; simpl; intros E a Ha; [contradiction|].
  apply bind_Done_inv in E as [[] [Ex El]].
  destruct Ha as [<- | Ha]; auto.
Qed.

Lemma for_each_Done_intro (A : Type) (f : A -> Outcome Datatypes.unit) (l : list A) :
  (forall a, In a l -> f a = Done tt) -> for_each f l = Done tt.
Proof.
  induction l as [|x l IH]; simpl; intros H; [reflexivity|].
  rewrite (H x) by auto; simpl; auto.
Qed.

(** ** Source positions and the ordered containers *)

Lemma SrcKey_eqb_eq (a b : SrcKey) : SrcKey_eqb a b = true <-> a = b.
Proof.
  unfold SrcKey_eqb; destruct a as [f1 o1], b as [f2 o2]; simpl.
  rewrite andb_true_iff, !Z.eqb_eq; split.
  - intros [-> ->]; reflexivity.
  - intros E; injection E; auto.
Qed.

Lemma SrcKey_eqb_refl (a : SrcKey) : SrcKey_eqb a a = true.
Proof. apply SrcKey_eqb_eq; reflexivity. Qed.

Lemma SrcKey_ltb_irrefl (a : SrcKey) : SrcKey_ltb a a = false.
Proof.
  unfold SrcKey_ltb; rewrite !Z.ltb_irrefl, andb_false_r; reflexivity.
Qed.

Lemma set_count_In (k : SrcKey) (s : list SrcKey) : set_count k s = true <-> In k s.
Proof.
  unfold set_count; rewrite existsb_exists; split.
  - intros [x [Hx E]]; apply SrcKey_eqb_eq in E; subst; assumption.
  - intros H; exists k; split; [assumption | apply SrcKey_eqb_refl].
Qed.

Lemma set_insert_In_inv (k x : SrcKey) (s : list SrcKey) :
  In x (set_insert k s) -> x = k \/ In x s.
Proof.
  induction s as [|k' s IH]; simpl.
  - intros [<- | []]; auto.
  - destruct (SrcKey_ltb k k'); [simpl; intuition auto|].
    destruct (SrcKey_eqb k k'); [simpl; intuition auto|].
    simpl; intros [<- | H]; [auto | destruct (IH H); auto].
Qed.

Lemma set_insert_In_old (k x : SrcKey) (s : list SrcKey) :
  In x s -> In x (set_insert k s).
Proof.
  induction s as [|k' s IH]; simpl; [contradiction|].
  destruct (SrcKey_ltb k k'); [simpl; auto|].
  destruct (SrcKey_eqb k k'); [simpl; auto|].
  simpl; intros [<- | H]; auto.
Qed.

Lemma multimap_insert_In (V : Type) (k : SrcKey) (v : V) (m : list (SrcKey * V)) :
  In (k, v) (multimap_insert k v m).
Proof.
  induction m as [|[k' v'] m IH]; simpl; [auto|].
  destruct (SrcKey_ltb k k'); simpl; auto.
Qed.

Lemma multimap_insert_In_old (V : Type) (k : SrcKey) (v : V) (m : list (SrcKey * V))
  (x : SrcKey * V) :
  In x m -> In x (multimap_insert k v m).
Proof.
  induction m as [|[k' v'] m IH]; simpl; [contradiction|].
  destruct (SrcKey_ltb k k'); simpl; intuition auto.
Qed.

Lemma multimap_insert_In_inv (V : Type) (k : SrcKey) (v : V) (m : list (SrcKey * V))
  (x : SrcKey * V) :
  In x (multimap_insert k v m) -> x = (k, v) \/ In x m.
Proof.
  induction m as [|[k' v'] m IH]; simpl.
  - intros [<- | []]; auto.
  - destruct (SrcKey_ltb k k'); simpl; intuition auto.
Qed.

Lemma map_find_None (V : Type) (k : SrcKey) (m : list (SrcKey * V)) :
  map_find k m = None <-> forall v, ~ In (k, v) m.
Proof.
  induction m as [|[k' v'] m IH]; simpl.
  - split; auto.
  - destruct (SrcKey_eqb k k') eqn:E.
    + split; [discriminate|].
      intros H; apply SrcKey_eqb_eq in E; subst; exfalso; apply (H v'); auto.
    + rewrite IH; split.
      * intros H v [Heq | Hin]; [|exact (H v Hin)].
        injection Heq as -> ->; rewrite SrcKey_eqb_refl in E; discriminate.
      * intros H v Hin; apply (H v); auto.
Qed.

Lemma map_insert_In_new (V : Type) (k : SrcKey) (v : V) (m : list (SrcKey * V)) :
  map_find k m = None -> In (k, v) (map_insert k v m).
Proof.
  induction m as [|[k' v'] m IH]; simpl; [auto|].
  destruct (SrcKey_ltb k k'); [simpl; auto|].
  destruct (SrcKey_eqb k k'); [discriminate|].
  simpl; auto.
Qed.

Lemma map_insert_In_old (V : Type) (k : SrcKey) (v : V) (m : list (SrcKey * V))
  (x : SrcKey * V) :
  In x m -> In x (map_insert k v m).
Proof.
  induction m as [|[k' v'] m IH]; simpl; [contradiction|].
  destruct (SrcKey_ltb k k'); [simpl; auto|].
  destruct (SrcKey_eqb k k'); simpl; intuition auto.
Qed.

Lemma map_insert_In_inv (V : Type) (k : SrcKey) (v : V) (m : list (SrcKey * V))
  (x : SrcKey * V) :
  In x (map_insert k v m) -> x = (k, v) \/ In x m.
Proof.
  induction m as [|[k' v'] m IH]; simpl.
  - intros [<- | []]; auto.
  - destruct (SrcKey_ltb k k'); [simpl; intuition auto|].
    destruct (SrcKey_eqb k k'); simpl; intuition auto.
Qed.

(** ** The selector *)

Section SelectorProperties.
Context `{BC : Bytecode} `{TS : TypeSystem}.
Variable debug : bool.
Variables regionMethod regionOneBC : RegionContext -> Outcome RegionDescPtr.

Lemma regionMode_recognised :
  regionMode debug "" = ([], Done RegionMode.None)
  /\ regionMode debug "onebc" = ([], Done RegionMode.OneBC)
  /\ regionMode debug "method" = ([], Done RegionMode.Method)
  /\ regionMode debug "tracelet" = ([], Done RegionMode.Tracelet).
Proof. repeat split. Qed.

Lemma regionMode_unrecognised (s : string) :
  s <> ""%string -> s <> "onebc"%string -> s <> "method"%string ->
  s <> "tracelet"%string ->
  regionMode debug s
  = ([FTRACE 1 (UnknownRegionMode s)],
     if debug then Abort else Done RegionMode.None).
Proof.
  intros H1 H2 H3 H4; unfold regionMode.
  apply String.eqb_neq in H1, H2, H3, H4.
  rewrite H1, H2, H3, H4; simpl.
  destruct debug; reflexivity.
Qed.

Lemma regionMode_never_throws (s : string) (e : Exn) :
  snd (regionMode debug s) <> Throw e.
Proof.
  unfold regionMode.
  repeat match goal with
         | |- context [if (?a =? ?b)%string then _ else _] =>
             destruct (a =? b)%string; [simpl; discriminate|]
         end.
  simpl; destruct debug; simpl; discriminate.
Qed.

Lemma createRegion_traced_outcome (tlet : Transl.Tracelet) :
  snd (createRegion_traced debug tlet)
  = match createRegion debug tlet with
    | Done r => Done (Some r)
    | Abort => Abort
    | Undefined => Undefined
    | Throw e => Throw e
    end.
Proof.
  unfold createRegion_traced, invoke, tbind.
  destruct (createRegion debug tlet); reflexivity.
Qed.

(** What is left of a [try] block's outcome after
    [catch (const std::exception&)]. *)
Lemma try_catch_outcome (A : Type) (body : Traced A) (handler : string -> Traced A) :
  snd (try_catch body handler)
  = match snd body with
    | Throw (StdException what) => snd (handler what)
    | o => o
    end.
Proof.
  destruct body as [ev [a| | |[what|]]]; simpl; try reflexivity.
  destruct (handler what); reflexivity.
Qed.

Lemma tbind_outcome (A B : Type) (m : Traced A) (k : A -> Traced B) :
  snd (tbind m k)
  = match snd m with
    | Done a => snd (k a)
    | Abort => Abort
    | Undefined => Undefined
    | Throw e => Throw e
    end.
Proof.
  destruct m as [ev [a| | |e]]; simpl; try reflexivity.
  destruct (k a); reflexivity.
Qed.

End SelectorProperties.

Lemma selectRegionOver_outcome `{BC : Bytecode} `{TS : TypeSystem} (debug : bool)
  (regionMethod regionOneBC : RegionContext -> Outcome RegionDescPtr)
  (builder : Transl.Tracelet -> Traced RegionDescPtr)
  (s : string) (context : RegionContext) (t : option Transl.Tracelet) :
  snd (selectRegionOver debug regionMethod regionOneBC builder s context t)
  = match snd (regionMode debug s) with
    | Done mode =>
        match snd (dispatchOver regionMethod regionOneBC builder mode context t) with
        | Throw (StdException _) => Done None
        | o => o
        end
    | Abort => Abort
    | Undefined => Undefined
    | Throw e => Throw e
    end.
Proof.
  unfold selectRegionOver.
  rewrite tbind_outcome.
  destruct (snd (regionMode debug s)) as [mode| | |e]; try reflexivity.
  rewrite tbind_outcome; simpl.
  rewrite tbind_outcome, try_catch_outcome.
  destruct (snd (dispatchOver regionMethod regionOneBC builder mode context t))
    as [region| | |[what|]]; try reflexivity.
  destruct region; reflexivity.
Qed.

Lemma selectRegion_outcome `{BC : Bytecode} `{TS : TypeSystem} (debug : bool)
  (regionMethod regionOneBC : RegionContext -> Outcome RegionDescPtr)
  (s : string) (context : RegionContext) (t : option Transl.Tracelet) :
  snd (selectRegion debug regionMethod regionOneBC s context t)
  = match snd (regionMode debug s) with
    | Done mode =>
        match snd (dispatch debug regionMethod regionOneBC mode context t) with
        | Throw (StdException _) => Done None
        | o => o
        end
    | Abort => Abort
    | Undefined => Undefined
    | Throw e => Throw e
    end.
Proof. apply selectRegionOver_outcome. Qed.

(** ** Blocks and their invariant checker *)

Section BlockProperties.
Context `{BC : Bytecode} `{TS : TypeSystem}.

Lemma lastKey_In (s : list SrcKey) (k : SrcKey) : lastKey s = Done k -> In k s.
Proof.
  unfold lastKey; destruct (rev s) as [|x l] eqn:E; [discriminate|].
  intros H; injection H as ->.
  apply in_rev; rewrite E; simpl; auto.
Qed.

Lemma lastKey_returnsOrAborts (s : list SrcKey) : returnsOrAborts (lastKey s).
Proof. unfold lastKey; destruct (rev s); [left | right]; eauto. Qed.

Lemma keysFrom_mono (u : Unit) (n : nat) :
  forall sk x, In x (keysFrom u sk n) -> In x (keysFrom u sk (S n)).
Proof.
  induction n as [|n IH]; intros sk x; [contradiction|].
  intros [<- | H]; [left; reflexivity|].
  right; apply IH; exact H.
Qed.

Lemma keysFrom_step (u : Unit) (n : nat) :
  forall sk x, In x (keysFrom u sk n) -> In (advanced x u) (keysFrom u sk (S n)).
Proof.
  induction n as [|n IH]; intros sk x; [contradiction|].
  intros [<- | H].
  - right; left; reflexivity.
  - right; apply IH; exact H.
Qed.

Lemma keysLoop_subset (b : Block) (sk : SrcKey) (n : nat) :
  forall i s s' m,
    keysLoop b n i s = Done s' ->
    (forall x, In x s -> In x (keysFrom (Block_unit b) sk m)) ->
    forall x, In x s' -> In x (keysFrom (Block_unit b) sk (n + m)).
Proof.
  induction n as [|n IH]; intros i s s' m E Hs x Hx.
  - simpl in E; injection E as <-; auto.
  - simpl in E.
    apply bind_Done_inv in E as [[] [_ E]].
    apply bind_Done_inv in E as [k [Hk E]].
    replace (S n + m)%nat with (n + S m)%nat by lia.
    apply (IH _ _ _ (S m) E); [|exact Hx].
    intros y Hy; apply set_insert_In_inv in Hy as [-> | Hy].
    + apply keysFrom_step, Hs, lastKey_In, Hk.
    + apply keysFrom_mono, Hs, Hy.
Qed.

Lemma keysLoop_returnsOrAborts (b : Block) (n : nat) :
  forall i s, returnsOrAborts (keysLoop b n i s).
Proof.
  induction n as [|n IH]; intros i s; simpl; [right; eauto|].
  apply returnsOrAborts_bind.
  - destruct (negb (i =? Block_length b - 1)); [|right; eauto].
    apply returnsOrAborts_bind; [apply lastKey_returnsOrAborts|].
    intros k; apply returnsOrAborts_bind.
    + destruct (instrFlagsTF _); [left | right]; eauto.
    + intros _; destruct (instrIsNonCallControlFlow _); [left | right]; eauto.
  - intros _; apply returnsOrAborts_bind; [apply lastKey_returnsOrAborts|].
    intros k; apply IH.
Qed.

Lemma keysLoop_ext (b1 b2 : Block) (n : nat) :
  Block_length b1 = Block_length b2 -> Block_unit b1 = Block_unit b2 ->
  forall i s, keysLoop b1 n i s = keysLoop b2 n i s.
Proof.
  intros Hl Hu; induction n as [|n IH]; intros i s; simpl; [reflexivity|].
  rewrite Hl, Hu.
  match goal with |- bind ?m _ = bind ?m _ => destruct m; try reflexivity end.
  simpl; destruct (lastKey s); simpl; auto.
Qed.

Lemma rangeCheck_returnsOrAborts (keys : list SrcKey) (sk : SrcKey) :
  returnsOrAborts (rangeCheck keys sk).
Proof. unfold rangeCheck; destruct (set_count sk keys); [right | left]; eauto. Qed.

Lemma rangeCheck_Done_inv (keys : list SrcKey) (sk : SrcKey) (u : Datatypes.unit) :
  rangeCheck keys sk = Done u -> In sk keys.
Proof.
  unfold rangeCheck; destruct (set_count sk keys) eqn:E; [|discriminate].
  intros _; apply set_count_In; exact E.
Qed.

(** The checker returns or aborts; it has no other way out. *)
Lemma checkInvariants_returnsOrAborts (debug : bool) (b : Block) :
  returnsOrAborts (checkInvariants debug b).
Proof.
  unfold checkInvariants.
  destruct (negb debug || (Block_length b =? 0)); [right; eauto|].
  apply returnsOrAborts_bind; [apply keysLoop_returnsOrAborts|].
  intros keys; apply returnsOrAborts_bind.
  - destruct (Z.of_nat (List.length keys) =? Block_length b); [right | left]; eauto.
  - intros _; apply returnsOrAborts_bind.
    + apply returnsOrAborts_for_each; intros [k v].
      apply returnsOrAborts_bind; [apply rangeCheck_returnsOrAborts|].
      intros _; simpl; destruct (location v) as [locId|o]; [|right; eauto].
      destruct (locId <? func_numLocals (m_func b)); [right | left]; eauto.
    + intros _; apply returnsOrAborts_bind;
        [|intros _]; apply returnsOrAborts_for_each;
        intros [k v]; apply rangeCheck_returnsOrAborts.
Qed.

Lemma checkInvariants_Done (debug : bool) (b : Block) (u : Datatypes.unit) :
  checkInvariants debug b = Done u -> checkInvariants debug b = Done tt.
Proof. destruct u; auto. Qed.

(** What a passed check establishes about a non-empty block in a debug
    build: the block holds at least one instruction, every key of the three
    mappings is a position of the block, and every predicted local exists. *)
Lemma checkInvariants_Done_inv (b : Block) :
  checkInvariants true b = Done tt -> Block_length b <> 0 ->
  0 < Block_length b
  /\ (forall k v, In (k, v) (m_typePreds b) ->
        In k (blockKeys b)
        /\ match location v with
           | Local locId => locId < func_numLocals (m_func b)
           | Stack _ => True
           end)
  /\ (forall k v, In (k, v) (m_byRefs b) -> In k (blockKeys b))
  /\ (forall k v, In (k, v) (m_refPreds b) -> In k (blockKeys b)).
Proof.
  unfold checkInvariants; intros E Hlen.
  apply Z.eqb_neq in Hlen; rewrite Hlen in E; simpl in E.
  apply bind_Done_inv in E as [keys [Hkeys E]].
  apply bind_Done_inv in E as [[] [Hsize E]].
  apply bind_Done_inv in E as [[] [Htp E]].
  apply bind_Done_inv in E as [[] [Hbr Hrp]].
  assert (Hpos : 0 < Block_length b).
  { destruct (Z_lt_le_dec 0 (Block_length b)) as [|Hle]; [assumption|].
    replace (Z.to_nat (Block_length b - 1)) with O in Hkeys by lia.
    simpl in Hkeys; injection Hkeys as <-.
    change (Z.of_nat (List.length [Block_start b])) with 1 in Hsize.
    destruct (1 =? Block_length b) eqn:E1; [|discriminate].
    apply Z.eqb_eq in E1; lia. }
  assert (Hsub : forall x, In x keys -> In x (blockKeys b)).
  { intros x Hx; unfold blockKeys.
    replace (Z.to_nat (Block_length b)) with (Z.to_nat (Block_length b - 1) + 1)%nat by lia.
    apply (keysLoop_subset b (Block_start b) _ _ _ 1%nat Hkeys); [|exact Hx].
    simpl; intros y [<- | []]; auto. }
  split; [exact Hpos|].
  split; [|split].
  - intros k v Hin.
    pose proof (for_each_Done_inv _ _ Htp _ Hin) as Hf; simpl in Hf.
    apply bind_Done_inv in Hf as [[] [Hr Hl]].
    split; [apply Hsub, (rangeCheck_Done_inv _ _ Hr)|].
    destruct (location v) as [locId|o]; [|exact I].
    destruct (locId <? func_numLocals (m_func b)) eqn:El; [|discriminate].
    apply Z.ltb_lt; exact El.
  - intros k v Hin.
    pose proof (for_each_Done_inv _ _ Hbr _ Hin) as Hf; simpl in Hf.
    apply Hsub, (rangeCheck_Done_inv _ _ Hf).
  - intros k v Hin.
    pose proof (for_each_Done_inv _ _ Hrp _ Hin) as Hf; simpl in Hf.
    apply Hsub, (rangeCheck_Done_inv _ _ Hf).
Qed.

Lemma checkInvariants_release (b : Block) : checkInvariants false b = Done tt.
Proof. reflexivity. Qed.

Lemma checkInvariants_empty (debug : bool) (b : Block) :
  Block_length b = 0 -> checkInvariants debug b = Done tt.
Proof.
  intros H; unfold checkInvariants; rewrite H, orb_true_r; reflexivity.
Qed.

End BlockProperties.

Section BlockInsertion.
Context `{BC : Bytecode} `{TS : TypeSystem}.

Lemma inRange_false (b : Block) (sk : SrcKey) :
  inRange b sk = false -> ~ In sk (blockKeys b).
Proof.
  unfold inRange; intros E H; apply set_count_In in H; congruence.
Qed.

(** A block of a debug build that fails its check makes the insertion abort. *)
Lemma insertion_aborts (b' : Block) (P : Prop) :
  (checkInvariants true b' = Done tt -> P) -> ~ P ->
  (checkInvariants true b' ;;; Done b') = Abort.
Proof.
  intros HP HnP.
  destruct (checkInvariants_returnsOrAborts true b') as [-> | [[] Hu]];
    [reflexivity | exfalso; auto].
Qed.

Lemma for_each_multimap_insert_ext (V : Type) (f : SrcKey * V -> Outcome Datatypes.unit)
  (k : SrcKey) (v1 v2 : V) (m : list (SrcKey * V)) :
  f (k, v1) = f (k, v2) ->
  for_each f (multimap_insert k v1 m) = for_each f (multimap_insert k v2 m).
Proof.
  intros E; induction m as [|[k' v'] m IH]; simpl.
  - rewrite E; reflexivity.
  - destruct (SrcKey_ltb k k'); simpl; [rewrite E | rewrite IH]; reflexivity.
Qed.

(** The check of a block does not look at the offset of a predicted stack
    slot. *)
Lemma checkInvariants_Stack_ext (debug : bool) (b : Block) (sk : SrcKey)
  (o1 o2 : Z) (ty : JitType) :
  checkInvariants debug
    {| m_func := m_func b; m_start := m_start b; m_length := m_length b;
       m_typePreds :=
         multimap_insert sk {| location := Stack o1; type := ty |} (m_typePreds b);
       m_byRefs := m_byRefs b; m_refPreds := m_refPreds b |}
  = checkInvariants debug
      {| m_func := m_func b; m_start := m_start b; m_length := m_length b;
         m_typePreds :=
           multimap_insert sk {| location := Stack o2; type := ty |} (m_typePreds b);
         m_byRefs := m_byRefs b; m_refPreds := m_refPreds b |}.
Proof.
  match goal with
  | |- checkInvariants _ ?x = checkInvariants _ ?y => set (b1 := x); set (b2 := y)
  end.
  unfold checkInvariants.
  change (Block_length b1) with (Block_length b2).
  change (Block_start b1) with (Block_start b2).
  rewrite (keysLoop_ext b1 b2) by reflexivity.
  destruct (negb debug || (Block_length b2 =? 0)); [reflexivity|].
  destruct (keysLoop b2 _ _ _) as [keys| | |e]; try reflexivity.
  cbn [bind].
  destruct (Z.of_nat (List.length keys) =? Block_length b2); [|reflexivity].
  cbn [bind].
  change (m_func b1) with (m_func b2).
  change (m_byRefs b1) with (m_byRefs b2).
  change (m_refPreds b1) with (m_refPreds b2).
  unfold b1, b2; cbn [m_typePreds].
  rewrite (for_each_multimap_insert_ext _ sk
             {| location := Stack o1; type := ty |}
             {| location := Stack o2; type := ty |}); reflexivity.
Qed.

End BlockInsertion.

(** The loop of the checker inspects the instruction at the last key only
    when [i != length() - 1], and so never the last two instructions of a
    block: a block of a [Jmp] followed by another instruction passes. *)
Example checkInvariants_skips_last_two :
  blockKeys (newBlock sampleFunc 11 2) = [sampleKey 11; sampleKey 16]
  /\ unit_at sampleUnit 11 = Jmp
  /\ singleEntrySingleExit (newBlock sampleFunc 11 2) = false
  /\ checkInvariants true (newBlock sampleFunc 11 2) = Done tt.
Proof. repeat split. Qed.

(** ** The builder *)

Section BuilderProperties.
Context `{BC : Bytecode} `{TS : TypeSystem}.
Variable debug : bool.

(** The three insertions change one mapping and nothing else. *)
Lemma setParamByRef_Done_inv (b b' : Block) (sk : SrcKey) (byRef : ParamByRef) :
  setParamByRef debug b sk byRef = Done b' ->
  b' = {| m_func := m_func b; m_start := m_start b; m_length := m_length b;
          m_typePreds := m_typePreds b;
          m_byRefs := map_insert sk byRef (m_byRefs b);
          m_refPreds := m_refPreds b |}
  /\ (debug = true -> map_find sk (m_byRefs b) = None).
Proof.
  unfold setParamByRef; intros E.
  apply bind_Done_inv in E as [[] [Ha E]].
  apply bind_Done_inv in E as [[] [_ E]].
  injection E as <-; split; [reflexivity|].
  intros Hd; apply assert_Done_inv in Ha; [|exact Hd].
  destruct (map_find sk (m_byRefs b)); [discriminate | reflexivity].
Qed.

Lemma addPredicted_Done_inv (b b' : Block) (sk : SrcKey) (pred : TypePred) :
  addPredicted debug b sk pred = Done b' ->
  b' = {| m_func := m_func b; m_start := m_start b; m_length := m_length b;
          m_typePreds := multimap_insert sk pred (m_typePreds b);
          m_byRefs := m_byRefs b;
          m_refPreds := m_refPreds b |}.
Proof.
  unfold addPredicted; intros E.
  apply bind_Done_inv in E as [[] [_ E]].
  apply bind_Done_inv in E as [[] [_ E]].
  injection E as <-; reflexivity.
Qed.

Lemma addReffinessPred_Done_inv (b b' : Block) (sk : SrcKey) (pred : ReffinessPred) :
  addReffinessPred debug b sk pred = Done b' ->
  b' = {| m_func := m_func b; m_start := m_start b; m_length := m_length b;
          m_typePreds := m_typePreds b;
          m_byRefs := m_byRefs b;
          m_refPreds := multimap_insert sk pred (m_refPreds b) |}.
Proof.
  unfold addReffinessPred; intros E.
  apply bind_Done_inv in E as [[] [_ E]].
  injection E as <-; reflexivity.
Qed.

Lemma addInstruction_Done_inv (b b' : Block) :
  addInstruction debug b = Done b' ->
  b' = {| m_func := m_func b; m_start := m_start b; m_length := m_length b + 1;
          m_typePreds := m_typePreds b; m_byRefs := m_byRefs b;
          m_refPreds := m_refPreds b |}.
Proof.
  unfold addInstruction; intros E.
  apply bind_Done_inv in E as [[] [_ E]].
  injection E as <-; reflexivity.
Qed.

(** One iteration of the loop of [createRegion], read backwards from a
    completed walk. *)
Lemma walk_cons_inv (f : Func) (u : Unit) (ni : Transl.NormalizedInstruction)
  (next : list Transl.NormalizedInstruction) (sk : SrcKey)
  (closed : list Block) (cur : Block) (bs : list Block) :
  walk debug f u (ni :: next) sk closed cur = Done bs ->
  (debug = true -> sk = Transl.source ni)
  /\ (debug = true -> isArgPass ni = true -> map_find sk (m_byRefs cur) = None)
  /\ (if isJmp ni && hasNext next
      then (debug = true -> sk_offset sk < jmpTarget ni)
           /\ walk debug f u next (setOffset sk (jmpTarget ni))
                (closed ++ [visited ni sk cur]) (newBlock f (jmpTarget ni) 0) = Done bs
      else walk debug f u next (advanced sk u) closed (visited ni sk cur) = Done bs).
Proof.
  cbn [walk]; intros E.
  apply bind_Done_inv in E as [[] [Hsk E]].
  apply bind_Done_inv in E as [[] [_ E]].
  apply bind_Done_inv in E as [cur1 [Hadd E]].
  apply addInstruction_Done_inv in Hadd; subst cur1.
  apply bind_Done_inv in E as [cur' [Hcur E]].
  assert (Hv : cur' = visited ni sk cur
               /\ (debug = true -> isArgPass ni = true ->
                   map_find sk (m_byRefs cur) = None)).
  { unfold visited, isArgPass in *.
    destruct (negb (Transl.noOp ni) && isFPassStar (Transl.op ni)).
    - apply setParamByRef_Done_inv in Hcur as [-> Hf]; split; [reflexivity | auto].
    - injection Hcur as <-; split; [reflexivity | discriminate]. }
  destruct Hv as [-> Hf].
  split.
  { intros Hd; apply SrcKey_eqb_eq, (assert_Done_inv _ Hsk Hd). }
  split; [exact Hf|].
  destruct (isJmp ni && hasNext next).
  - apply bind_Done_inv in E as [[] [Hfw E]].
    split; [|exact E].
    intros Hd; apply (assert_Done_inv _ Hfw) in Hd.
    apply Z.gtb_lt in Hd; exact Hd.
  - exact E.
Qed.

(** A field of the blocks that an iteration leaves alone is, after the
    walk, what it was in the blocks at hand and what [newBlock] gives it in
    the blocks opened at the jumps. *)
Lemma walk_proj (X : Type) (g : Block -> X) (f : Func) (u : Unit) :
  (forall ni sk b, g (visited ni sk b) = g b) ->
  forall nis sk closed cur bs,
    walk debug f u nis sk closed cur = Done bs ->
    map g bs
    = map g closed
          ++ g cur :: map (fun ni => g (newBlock f (jmpTarget ni) 0)) (nonFinalJmps nis).
Proof.
  intros Hg; induction nis as [|ni next IH]; intros sk closed cur bs E.
  - simpl in E; injection E as <-; rewrite map_app; reflexivity.
  - apply walk_cons_inv in E as [_ [_ E]]; simpl.
    destruct (isJmp ni && hasNext next).
    + destruct E as [_ E]; apply IH in E; rewrite E.
      rewrite map_app, <- app_assoc; simpl; rewrite Hg; reflexivity.
    + apply IH in E; rewrite E, Hg; reflexivity.
Qed.

Lemma walk_starts (f : Func) (u : Unit) nis sk closed cur bs :
  walk debug f u nis sk closed cur = Done bs ->
  map m_start bs = map m_start closed ++ m_start cur :: map jmpTarget (nonFinalJmps nis).
Proof. intros E; apply (walk_proj m_start) in E; auto. Qed.

Lemma walk_count (f : Func) (u : Unit) nis sk closed cur bs :
  walk debug f u nis sk closed cur = Done bs ->
  List.length bs = (List.length closed + S (List.length (nonFinalJmps nis)))%nat.
Proof.
  intros E; apply walk_starts in E.
  apply (f_equal (@List.length _)) in E.
  rewrite length_map, length_app, !length_map in E; simpl in E.
  rewrite length_map in E; exact E.
Qed.

Lemma walk_typePreds (f : Func) (u : Unit) nis sk closed cur bs :
  walk debug f u nis sk closed cur = Done bs ->
  map m_typePreds bs
  = map m_typePreds closed ++ m_typePreds cur :: map (fun _ => []) (nonFinalJmps nis).
Proof. intros E; apply (walk_proj m_typePreds) in E; auto. Qed.

Lemma walk_refPreds (f : Func) (u : Unit) nis sk closed cur bs :
  walk debug f u nis sk closed cur = Done bs ->
  map m_refPreds bs
  = map m_refPreds closed ++ m_refPreds cur :: map (fun _ => []) (nonFinalJmps nis).
Proof. intros E; apply (walk_proj m_refPreds) in E; auto. Qed.

Lemma walk_funcs (f : Func) (u : Unit) nis sk closed cur bs :
  walk debug f u nis sk closed cur = Done bs ->
  map m_func bs = map m_func closed ++ m_func cur :: map (fun _ => f) (nonFinalJmps nis).
Proof. intros E; apply (walk_proj m_func) in E; auto. Qed.

Lemma walk_lengths (f : Func) (u : Unit) :
  forall nis sk closed cur bs seg,
    walk debug f u nis sk closed cur = Done bs ->
    m_length cur = Z.of_nat (List.length seg) ->
    map m_length bs
    = map m_length closed
          ++ map (fun s => Z.of_nat (List.length s)) (splitAtJmps nis seg).
Proof.
  induction nis as [|ni next IH]; intros sk closed cur bs seg E Hlen.
  - simpl in E; injection E as <-; rewrite map_app; simpl.
    rewrite length_rev, Hlen; reflexivity.
  - apply walk_cons_inv in E as [_ [_ E]]; simpl splitAtJmps.
    destruct (isJmp ni && hasNext next).
    + destruct E as [_ E]; apply (IH _ _ _ _ []) in E; [|reflexivity].
      rewrite E, map_app, <- app_assoc; simpl.
      rewrite length_app, length_rev; simpl; rewrite Hlen.
      do 2 f_equal; lia.
    + apply (IH _ _ _ _ (ni :: seg)) in E; [exact E|].
      simpl; rewrite Hlen; lia.
Qed.

Lemma walk_forward (f : Func) (u : Unit) :
  debug = true ->
  forall nis sk closed cur bs,
    walk debug f u nis sk closed cur = Done bs ->
    Forall (fun ni => ni_offset ni < jmpTarget ni) (nonFinalJmps nis).
Proof.
  intros Hd; induction nis as [|ni next IH]; intros sk closed cur bs E;
    [constructor|].
  apply walk_cons_inv in E as [Hsk [_ E]]; simpl.
  destruct (isJmp ni && hasNext next).
  - destruct E as [Hfw E]; constructor; [|exact (IH _ _ _ _ E)].
    unfold ni_offset; rewrite <- (Hsk Hd); exact (Hfw Hd).
  - exact (IH _ _ _ _ E).
Qed.

(** In a debug build the loop visits every instruction at the position the
    instruction records. *)
Lemma walk_visits_sources (f : Func) (u : Unit) :
  debug = true ->
  forall nis sk closed cur bs,
    walk debug f u nis sk closed cur = Done bs ->
    visits u sk nis = map (fun ni => (Transl.source ni, ni)) nis.
Proof.
  intros Hd; induction nis as [|ni next IH]; intros sk closed cur bs E;
    [reflexivity|].
  apply walk_cons_inv in E as [Hsk [_ E]]; simpl.
  rewrite <- (Hsk Hd); f_equal.
  destruct (isJmp ni && hasNext next); [destruct E as [_ E]|]; exact (IH _ _ _ _ E).
Qed.

(** The cut of the trace: its segments make up the trace, and every segment
    but the last ends in the jump it was cut at. *)
Lemma splitAtJmps_concat :
  forall nis seg, List.concat (splitAtJmps nis seg) = rev seg ++ nis.
Proof.
  induction nis as [|ni next IH]; intros seg; simpl.
  - reflexivity.
  - destruct (isJmp ni && hasNext next); simpl.
    + rewrite IH; simpl; rewrite <- app_assoc; reflexivity.
    + rewrite IH; simpl; rewrite <- app_assoc; reflexivity.
Qed.

Lemma splitAtJmps_nonempty :
  forall nis seg, splitAtJmps nis seg <> [].
Proof.
  induction nis as [|ni next IH]; intros seg; simpl; [discriminate|].
  destruct (isJmp ni && hasNext next); [discriminate | apply IH].
Qed.

Lemma removelast_cons (A : Type) (a : A) (l : list A) :
  l <> [] -> removelast (a :: l) = a :: removelast l.
Proof. destruct l; [contradiction | reflexivity]. Qed.

Lemma splitAtJmps_ends :
  forall nis seg,
    Forall2 (fun s j => exists pre, s = pre ++ [j])
            (removelast (splitAtJmps nis seg)) (nonFinalJmps nis).
Proof.
  induction nis as [|ni next IH]; intros seg; simpl; [constructor|].
  destruct (isJmp ni && hasNext next); [|apply IH].
  rewrite removelast_cons by apply splitAtJmps_nonempty.
  constructor; [exists (rev seg); reflexivity | apply IH].
Qed.

(** *** Single entry, single exit *)

Lemma keysFrom_offsets (u : Unit) (n : nat) :
  forall sk, map sk_offset (keysFrom u sk n) = offsetsFrom u (sk_offset sk) n.
Proof.
  induction n as [|n IH]; intros sk; simpl; [reflexivity|].
  rewrite IH; reflexivity.
Qed.

Lemma offsetsFrom_snoc (u : Unit) (n : nat) :
  forall o, offsetsFrom u o (S n) = offsetsFrom u o n ++ [nthOffset u o n].
Proof.
  induction n as [|n IH]; intros o; [reflexivity|].
  change (offsetsFrom u o (S (S n)))
    with (o :: offsetsFrom u (o + unit_instrLen u o) (S n)).
  rewrite IH; reflexivity.
Qed.

Lemma nthOffset_S (u : Unit) (n : nat) :
  forall o, nthOffset u o (S n)
            = nthOffset u o n + unit_instrLen u (nthOffset u o n).
Proof.
  induction n as [|n IH]; intros o; [reflexivity|].
  change (nthOffset u o (S (S n))) with (nthOffset u (o + unit_instrLen u o) (S n)).
  rewrite IH; reflexivity.
Qed.

Lemma map_removelast (A B : Type) (g : A -> B) (l : list A) :
  map g (removelast l) = removelast (map g l).
Proof.
  induction l as [|a l IH]; [reflexivity|].
  destruct l as [|a' l]; [reflexivity|].
  rewrite removelast_cons by discriminate.
  simpl map; rewrite removelast_cons by discriminate.
  simpl map in IH; rewrite IH; reflexivity.
Qed.

Lemma forallb_map (A B : Type) (g : A -> B) (p : B -> bool) (l : list A) :
  forallb (fun a => p (g a)) l = forallb p (map g l).
Proof. induction l as [|a l IH]; simpl; [reflexivity | rewrite IH; reflexivity]. Qed.

(** Invariant 1 read on the offsets of the block. *)
Lemma singleEntrySingleExit_offsets (b : Block) :
  singleEntrySingleExit b
  = forallb (fun o => midBlockOk (unit_at (Block_unit b) o))
            (removelast (offsetsFrom (Block_unit b) (m_start b)
                                     (Z.to_nat (m_length b)))).
Proof.
  unfold singleEntrySingleExit, blockKeys.
  rewrite (forallb_map sk_offset (fun o => midBlockOk (unit_at (Block_unit b) o))).
  rewrite map_removelast, keysFrom_offsets; reflexivity.
Qed.

Lemma singleEntrySingleExit_ext (b1 b2 : Block) :
  m_func b1 = m_func b2 -> m_start b1 = m_start b2 -> m_length b1 = m_length b2 ->
  singleEntrySingleExit b1 = singleEntrySingleExit b2.
Proof.
  intros Hf Hs Hl; rewrite !singleEntrySingleExit_offsets.
  unfold Block_unit; rewrite Hf, Hs, Hl; reflexivity.
Qed.

Lemma walk_singleEntrySingleExit (f : Func) (u : Unit) :
  func_unit f = u ->
  forall nis sk closed cur bs,
    walk debug f u nis sk closed cur = Done bs ->
    m_func cur = f -> 0 <= m_length cur ->
    followsUnit u sk nis -> midTraceOk nis ->
    Forall (fun b => singleEntrySingleExit b = true) closed ->
    singleEntrySingleExit cur = true ->
    (nis <> [] ->
     forallb (fun o => midBlockOk (unit_at u o))
             (offsetsFrom u (m_start cur) (Z.to_nat (m_length cur))) = true
     /\ nthOffset u (m_start cur) (Z.to_nat (m_length cur)) = sk_offset sk) ->
    Forall (fun b => singleEntrySingleExit b = true) bs.
Proof.
  intros Hu; induction nis as [|ni next IH];
    intros sk closed cur bs E Hf Hlen Hfol Hmid Hclosed Hcur Hpre.
  - simpl in E; injection E as <-.
    apply Forall_app; split; [exact Hclosed | constructor; [exact Hcur | constructor]].
  - apply walk_cons_inv in E as [_ [_ E]].
    destruct Hpre as [Hok Hpos]; [discriminate|].
    unfold followsUnit in Hfol; simpl in Hfol.
    apply Forall_cons_iff in Hfol as [[_ Hop] Hfol]; simpl in Hop.
    destruct Hmid as [Hni Hmid].
    assert (Hn : Z.to_nat (m_length cur + 1) = S (Z.to_nat (m_length cur))) by lia.
    assert (Hv : singleEntrySingleExit (visited ni sk cur) = true).
    { rewrite singleEntrySingleExit_offsets; unfold Block_unit; simpl.
      rewrite Hf, Hu, Hn, offsetsFrom_snoc, removelast_last; exact Hok. }
    destruct (isJmp ni && hasNext next) eqn:Ej.
    + destruct E as [_ E].
      apply (IH _ _ _ _ E); simpl; auto; try lia.
      * apply Forall_app; split; [exact Hclosed | constructor; [exact Hv | constructor]].
    + apply (IH _ _ _ _ E); simpl; auto; try lia.
      intros Hnext; rewrite Hn, offsetsFrom_snoc, nthOffset_S, Hpos.
      split; [|reflexivity].
      rewrite forallb_app, Hok; simpl; rewrite andb_true_r, <- Hop.
      apply Hni.
      * destruct next; [contradiction | reflexivity].
      * destruct next; [contradiction|].
        simpl in Ej; rewrite andb_true_r in Ej; exact Ej.
Qed.

(** *** The guards lifted onto the first block *)

Lemma multimap_insert_same_key (V : Type) (k : SrcKey) (v : V) (m : list (SrcKey * V)) :
  (forall x, In x m -> fst x = k) -> multimap_insert k v m = m ++ [(k, v)].
Proof.
  induction m as [|[k' v'] m IH]; intros H; simpl; [reflexivity|].
  assert (Hk : k' = k) by (apply (H (k', v')); left; reflexivity).
  subst k'; rewrite SrcKey_ltb_irrefl, IH; [reflexivity|].
  intros x Hx; apply H; right; exact Hx.
Qed.

Lemma addDependency_Done_inv (tlet : Transl.Tracelet) (b b' : Block)
  (dep : Transl.Location * Transl.DynLocation) :
  addDependency debug tlet b dep = Done b' ->
  (isLifted dep = false /\ b' = b)
  \/ (isLifted dep = true
      /\ exists p, liftedPred tlet dep = Some p
                   /\ b' = {| m_func := m_func b; m_start := m_start b;
                              m_length := m_length b;
                              m_typePreds := multimap_insert (fst p) (snd p) (m_typePreds b);
                              m_byRefs := m_byRefs b; m_refPreds := m_refPreds b |}).
Proof.
  unfold addDependency, isLifted, liftedPred, liftedLocation.
  rewrite <- negb_orb.
  destruct (isVagueValue _ || Transl.isThis _); simpl.
  - intros E; injection E as <-; left; auto.
  - intros E; right; split; [reflexivity|].
    destruct (Transl.space (fst dep)); simpl.
    + apply addPredicted_Done_inv in E; eexists; split; [reflexivity | exact E].
    + apply addPredicted_Done_inv in E; eexists; split; [reflexivity | exact E].
    + unfold not_reached in E; destruct debug; discriminate.
    + unfold not_reached in E; destruct debug; discriminate.
Qed.

Lemma foldM_addDependency (tlet : Transl.Tracelet) :
  forall deps b b',
    foldM (addDependency debug tlet) deps b = Done b' ->
    (forall x, In x (m_typePreds b) -> fst x = Transl.m_sk tlet) ->
    sameShape b b' /\ m_refPreds b' = m_refPreds b
    /\ map Some (m_typePreds b')
       = map Some (m_typePreds b) ++ map (liftedPred tlet) (filter isLifted deps).
Proof.
  induction deps as [|dep deps IH]; intros b b' E Hk.
  - simpl in E; injection E as <-; simpl; rewrite app_nil_r.
    unfold sameShape; auto.
  - simpl in E; apply bind_Done_inv in E as [b1 [E1 E]].
    apply addDependency_Done_inv in E1 as [[Hl ->] | [Hl [p [Hp ->]]]]; simpl; rewrite Hl.
    + apply IH; assumption.
    + assert (Hfst : fst p = Transl.m_sk tlet).
      { unfold liftedPred in Hp; destruct (liftedLocation (fst dep));
          [injection Hp as <-; reflexivity | discriminate]. }
      apply IH in E.
      * destruct E as [Hs [Hr Ht]]; simpl in *.
        split; [exact Hs|]. split; [exact Hr|].
        rewrite Ht, Hfst, multimap_insert_same_key by exact Hk.
        rewrite map_app, <- app_assoc; simpl; rewrite Hp, <- Hfst.
        destruct p; reflexivity.
      * simpl; rewrite Hfst, multimap_insert_same_key by exact Hk.
        intros x Hx; apply in_app_or in Hx as [Hx | [<- | []]]; auto.
Qed.

Lemma foldM_addRefDep (tlet : Transl.Tracelet) :
  forall deps b b',
    foldM (addRefDep debug tlet) deps b = Done b' ->
    (forall x, In x (m_refPreds b) -> fst x = Transl.m_sk tlet) ->
    sameShape b b' /\ m_typePreds b' = m_typePreds b
    /\ m_refPreds b' = m_refPreds b ++ map (liftedRefPred tlet) deps.
Proof.
  induction deps as [|dep deps IH]; intros b b' E Hk.
  - simpl in E; injection E as <-; simpl; rewrite app_nil_r.
    unfold sameShape; auto.
  - simpl in E; apply bind_Done_inv in E as [b1 [E1 E]].
    unfold addRefDep in E1; apply addReffinessPred_Done_inv in E1; subst b1.
    apply IH in E.
    + destruct E as [Hs [Ht Hr]]; simpl in *.
      split; [exact Hs|]. split; [exact Ht|].
      rewrite Hr, multimap_insert_same_key by exact Hk.
      rewrite <- app_assoc; reflexivity.
    + simpl; rewrite multimap_insert_same_key by exact Hk.
      intros x Hx; apply in_app_or in Hx as [Hx | [<- | []]]; auto.
Qed.

(** [createRegion] read backwards from a region it returned: the walk, then
    the two loops over the dependencies, all on the first block. *)
Lemma createRegion_Done_inv (tlet : Transl.Tracelet) (r : RegionDesc) :
  createRegion debug tlet = Done r ->
  exists first next front0 front1 front2 rest,
    Transl.m_instrStream tlet = first :: next
    /\ walk debug (Transl.m_func tlet) (Transl.m_unit first) (first :: next)
            (Transl.m_sk tlet) []
            (newBlock (Transl.m_func tlet) (sk_offset (Transl.m_sk tlet)) 0)
       = Done (front0 :: rest)
    /\ foldM (addDependency debug tlet) (Transl.m_dependencies tlet) front0 = Done front1
    /\ foldM (addRefDep debug tlet) (Transl.m_arMap tlet) front1 = Done front2
    /\ blocks r = front2 :: rest.
Proof.
  unfold createRegion; intros E.
  destruct (Transl.m_instrStream tlet) as [|first next]; [discriminate|].
  apply bind_Done_inv in E as [[] [_ E]].
  apply bind_Done_inv in E as [bs [Hw E]].
  destruct bs as [|front0 rest]; [discriminate|].
  apply bind_Done_inv in E as [front1 [H1 E]].
  apply bind_Done_inv in E as [front2 [H2 E]].
  injection E as <-.
  exists first, next, front0, front1, front2, rest; auto.
Qed.

(** *** The by-reference flags *)

Lemma map_find_Some_In (V : Type) (k : SrcKey) (v : V) (m : list (SrcKey * V)) :
  map_find k m = Some v -> In (k, v) m.
Proof.
  induction m as [|[k' v'] m IH]; simpl; [discriminate|].
  destruct (SrcKey_eqb k k') eqn:E.
  - intros H; injection H as ->; apply SrcKey_eqb_eq in E; subst; auto.
  - auto.
Qed.

Lemma walk_byRefs_keep (f : Func) (u : Unit) :
  forall nis sk closed cur bs,
    walk debug f u nis sk closed cur = Done bs ->
    forall x, In x (allByRefs closed) \/ In x (m_byRefs cur) -> In x (allByRefs bs).
Proof.
  unfold allByRefs.
  induction nis as [|ni next IH]; intros sk closed cur bs E x Hx.
  - simpl in E; injection E as <-.
    rewrite flat_map_app; simpl; rewrite app_nil_r; apply in_or_app; exact Hx.
  - apply walk_cons_inv in E as [_ [_ E]].
    assert (Hv : In x (m_byRefs cur) -> In x (m_byRefs (visited ni sk cur))).
    { simpl; destruct (isArgPass ni); [apply map_insert_In_old | auto]. }
    destruct (isJmp ni && hasNext next).
    + destruct E as [_ E]; apply (IH _ _ _ _ E); left.
      rewrite flat_map_app; simpl; rewrite app_nil_r; apply in_or_app.
      destruct Hx; auto.
    + apply (IH _ _ _ _ E); destruct Hx; auto.
Qed.

Lemma walk_byRefs_sound (f : Func) (u : Unit) :
  forall nis sk closed cur bs,
    walk debug f u nis sk closed cur = Done bs ->
    forall x, In x (allByRefs bs) ->
      In x (allByRefs closed) \/ In x (m_byRefs cur)
      \/ exists k ni, In (k, ni) (visits u sk nis) /\ isArgPass ni = true
                      /\ x = (k, byRefOf ni).
Proof.
  unfold allByRefs.
  induction nis as [|ni next IH]; intros sk closed cur bs E x Hx.
  - simpl in E; injection E as <-.
    rewrite flat_map_app in Hx; simpl in Hx; rewrite app_nil_r in Hx.
    apply in_app_or in Hx; destruct Hx; auto.
  - apply walk_cons_inv in E as [_ [_ E]].
    assert (Hv : In x (m_byRefs (visited ni sk cur)) ->
                 In x (m_byRefs cur) \/ (isArgPass ni = true /\ x = (sk, byRefOf ni))).
    { simpl; destruct (isArgPass ni); [|auto].
      intros H; apply map_insert_In_inv in H; destruct H; auto. }
    assert (Hhead : isArgPass ni = true /\ x = (sk, byRefOf ni) ->
                    exists k ni', In (k, ni') (visits u sk (ni :: next))
                                  /\ isArgPass ni' = true /\ x = (k, byRefOf ni')).
    { intros [Ha Hx']; exists sk, ni; simpl; auto. }
    assert (Htail : forall sk',
               sk' = (if isJmp ni && hasNext next then setOffset sk (jmpTarget ni)
                      else advanced sk u) ->
               (exists k ni', In (k, ni') (visits u sk' next)
                              /\ isArgPass ni' = true /\ x = (k, byRefOf ni')) ->
               exists k ni', In (k, ni') (visits u sk (ni :: next))
                             /\ isArgPass ni' = true /\ x = (k, byRefOf ni')).
    { intros sk' -> [k [ni' [Hin H]]]; exists k, ni'; simpl; auto. }
    destruct (isJmp ni && hasNext next).
    + destruct E as [_ E].
      destruct (IH _ _ _ _ E x Hx) as [H | [H | H]].
      * rewrite flat_map_app in H; simpl in H; rewrite app_nil_r in H.
        apply in_app_or in H as [H | H]; [auto|].
        destruct (Hv H); auto.
      * simpl in H; contradiction.
      * right; right; apply (Htail _ eq_refl H).
    + destruct (IH _ _ _ _ E x Hx) as [H | [H | H]]; [auto | |].
      * destruct (Hv H); auto.
      * right; right; apply (Htail _ eq_refl H).
Qed.

Lemma walk_byRefs_complete (f : Func) (u : Unit) :
  forall nis sk closed cur bs,
    walk debug f u nis sk closed cur = Done bs ->
    forall k ni, In (k, ni) (visits u sk nis) -> isArgPass ni = true ->
      exists fl, In (k, fl) (allByRefs bs) /\ (debug = true -> fl = byRefOf ni).
Proof.
  induction nis as [|ni next IH]; intros sk closed cur bs E k ni' Hin Ha;
    [contradiction|].
  pose proof E as E0.
  apply walk_cons_inv in E as [_ [Hnew E]].
  simpl in Hin; destruct Hin as [Hhd | Hin].
  - injection Hhd as <- <-.
    assert (Hv : exists fl, In (sk, fl) (m_byRefs (visited ni sk cur))
                            /\ (debug = true -> fl = byRefOf ni)).
    { simpl; rewrite Ha.
      destruct (map_find sk (m_byRefs cur)) as [v|] eqn:Ef.
      - exists v; split; [apply map_insert_In_old, map_find_Some_In, Ef|].
        intros Hd; discriminate (Hnew Hd Ha).
      - exists (byRefOf ni); split; [apply map_insert_In_new, Ef | auto]. }
    destruct Hv as [fl [Hfl Hd]]; exists fl; split; [|exact Hd].
    destruct (isJmp ni && hasNext next).
    + destruct E as [_ E]; eapply walk_byRefs_keep; [exact E|]; left.
      unfold allByRefs; rewrite flat_map_app; simpl; rewrite app_nil_r.
      apply in_or_app; auto.
    + eapply walk_byRefs_keep; [exact E|]; auto.
  - destruct (isJmp ni && hasNext next).
    + destruct E as [_ E]; apply (IH _ _ _ _ E _ _ Hin Ha).
    + apply (IH _ _ _ _ E _ _ Hin Ha).
Qed.

End BuilderProperties.

(** *** At most one flag per position *)

Lemma SrcKey_ltb_lt (a b : SrcKey) :
  SrcKey_ltb a b = true
  <-> sk_funcId a < sk_funcId b
      \/ (sk_funcId a = sk_funcId b /\ sk_offset a < sk_offset b).
Proof.
  unfold SrcKey_ltb.
  rewrite orb_true_iff, andb_true_iff, !Z.ltb_lt, Z.eqb_eq; reflexivity.
Qed.

Lemma SrcKey_ltb_trans (a b c : SrcKey) :
  SrcKey_ltb a b = true -> SrcKey_ltb b c = true -> SrcKey_ltb a c = true.
Proof. rewrite !SrcKey_ltb_lt; lia. Qed.

Lemma SrcKey_ltb_total (a b : SrcKey) :
  SrcKey_ltb a b = false -> SrcKey_eqb a b = false -> SrcKey_ltb b a = true.
Proof.
  intros Hlt Heq; apply SrcKey_ltb_lt.
  assert (Hn : ~ (sk_funcId a < sk_funcId b
                  \/ (sk_funcId a = sk_funcId b /\ sk_offset a < sk_offset b))).
  { rewrite <- SrcKey_ltb_lt, Hlt; discriminate. }
  assert (Hne : a <> b).
  { intros ->; rewrite SrcKey_eqb_refl in Heq; discriminate. }
  destruct a as [fa oa], b as [fb ob]; simpl in *.
  assert (fa <> fb \/ oa <> ob); [|lia].
  destruct (Z.eq_dec fa fb) as [->|]; [|auto].
  destruct (Z.eq_dec oa ob) as [->|]; [contradiction | auto].
Qed.

Lemma map_insert_keysAscend (V : Type) (k : SrcKey) (v : V) (m : list (SrcKey * V)) :
  keysAscend m -> keysAscend (map_insert k v m).
Proof.
  unfold keysAscend; induction m as [|[k' v'] m IH]; simpl; intros Hs.
  - repeat constructor.
  - destruct (SrcKey_ltb k k') eqn:Hlt.
    + simpl; constructor; [exact Hs | constructor; exact Hlt].
    + destruct (SrcKey_eqb k k') eqn:Heq; [exact Hs|].
      apply Sorted_inv in Hs as [Hs Hhd]; simpl.
      constructor; [apply IH; exact Hs|].
      destruct m as [|[k2 v2] m]; simpl.
      * constructor; apply SrcKey_ltb_total; assumption.
      * destruct (SrcKey_ltb k k2); [|destruct (SrcKey_eqb k k2)]; simpl.
        -- constructor; apply SrcKey_ltb_total; assumption.
        -- exact Hhd.
        -- constructor; apply HdRel_inv in Hhd; exact Hhd.
Qed.

Lemma keysAscend_functional (V : Type) (m : list (SrcKey * V)) :
  keysAscend m ->
  forall k v1 v2, In (k, v1) m -> In (k, v2) m -> v1 = v2.
Proof.
  unfold keysAscend; intros Hs.
  apply Sorted_StronglySorted in Hs;
    [|intros a b c; apply SrcKey_ltb_trans].
  induction m as [|[k' v'] m IH]; intros k v1 v2 H1 H2; [contradiction|].
  simpl in Hs; apply StronglySorted_inv in Hs as [Hs Hall].
  assert (Hfresh : forall v, ~ In (k', v) m).
  { intros v Hin; rewrite Forall_forall in Hall.
    specialize (Hall k' (in_map fst _ _ Hin)).
    rewrite SrcKey_ltb_irrefl in Hall; discriminate. }
  destruct H1 as [H1 | H1], H2 as [H2 | H2].
  - congruence.
  - injection H1 as <- <-; destruct (Hfresh _ H2).
  - injection H2 as <- <-; destruct (Hfresh _ H1).
  - exact (IH Hs _ _ _ H1 H2).
Qed.

Section BuilderStructure.
Context `{BC : Bytecode} `{TS : TypeSystem}.
Variable debug : bool.

Lemma map_const_Forall (A B C : Type) (g : A -> B) (c : B) (l : list A) (l' : list C) :
  map g l = map (fun _ => c) l' -> Forall (fun x => g x = c) l.
Proof.
  revert l'; induction l as [|a l IH]; intros l' E; [constructor|].
  destruct l' as [|a' l']; [discriminate|].
  simpl in E; injection E as Ha El.
  constructor; [exact Ha | exact (IH _ El)].
Qed.

(** The region [createRegion] returns: the blocks of the walk, the first of
    them with the lifted guards, the others without any. *)
Lemma createRegion_structure (tlet : Transl.Tracelet) (r : RegionDesc) :
  createRegion debug tlet = Done r ->
  exists first next front0 front rest,
    Transl.m_instrStream tlet = first :: next
    /\ walk debug (Transl.m_func tlet) (Transl.m_unit first) (first :: next)
            (Transl.m_sk tlet) []
            (newBlock (Transl.m_func tlet) (sk_offset (Transl.m_sk tlet)) 0)
       = Done (front0 :: rest)
    /\ blocks r = front :: rest
    /\ sameShape front0 front
    /\ map Some (m_typePreds front)
       = map (liftedPred tlet) (filter isLifted (Transl.m_dependencies tlet))
    /\ m_refPreds front = map (liftedRefPred tlet) (Transl.m_arMap tlet)
    /\ Forall (fun b => m_typePreds b = []) rest
    /\ Forall (fun b => m_refPreds b = []) rest.
Proof.
  intros E.
  apply createRegion_Done_inv in E
    as [first [next [front0 [front1 [front2 [rest [Hs [Hw [Hd [Hr Hb]]]]]]]]]].
  pose proof Hw as Ht; apply walk_typePreds in Ht; simpl in Ht.
  injection Ht as Ht0 Htr.
  pose proof Hw as Hp; apply walk_refPreds in Hp; simpl in Hp.
  injection Hp as Hp0 Hpr.
  apply foldM_addDependency in Hd; [|rewrite Ht0; contradiction].
  destruct Hd as [Hs1 [Hr1 Ht1]]; rewrite Ht0 in Ht1; simpl in Ht1.
  apply foldM_addRefDep in Hr; [|rewrite Hr1, Hp0; contradiction].
  destruct Hr as [Hs2 [Ht2 Hr2]]; rewrite Hr1, Hp0 in Hr2; simpl in Hr2.
  exists first, next, front0, front2, rest.
  split; [exact Hs|]. split; [exact Hw|]. split; [exact Hb|].
  split.
  { destruct Hs1 as [H1 [H2 [H3 H4]]], Hs2 as [H5 [H6 [H7 H8]]].
    unfold sameShape; repeat split; congruence. }
  split; [rewrite Ht2; exact Ht1|].
  split; [exact Hr2|].
  split; [eapply map_const_Forall; exact Htr | eapply map_const_Forall; exact Hpr].
Qed.

End BuilderStructure.

(** *** A release build always completes *)

Section ReleaseBuild.
Context `{BC : Bytecode} `{TS : TypeSystem}.

Lemma walk_release_total (f : Func) (u : Unit) :
  forall nis sk closed cur,
    exists b bs, walk false f u nis sk closed cur = Done (b :: bs).
Proof.
  induction nis as [|ni next IH]; intros sk closed cur.
  - simpl; destruct closed as [|b bs]; simpl; eauto.
  - simpl.
    destruct (negb (Transl.noOp ni) && isFPassStar (Transl.op ni)); simpl;
      destruct (isJmp ni && hasNext next); simpl; apply IH.
Qed.

Lemma foldM_addDependency_release (tlet : Transl.Tracelet) :
  forall deps b,
    (forall dep, In dep deps -> isLifted dep = true ->
       Transl.space (fst dep) = Transl.Stack \/ Transl.space (fst dep) = Transl.Local) ->
    exists b', foldM (addDependency false tlet) deps b = Done b'.
Proof.
  induction deps as [|dep deps IH]; intros b Hsp; simpl; [eauto|].
  assert (Hd : exists b1, addDependency false tlet b dep = Done b1).
  { unfold addDependency.
    pose proof (Hsp dep (or_introl eq_refl)) as Hdep.
    unfold isLifted in Hdep; rewrite <- negb_orb in Hdep.
    destruct (isVagueValue _ || Transl.isThis _); [eauto|].
    destruct (Hdep eq_refl) as [-> | ->]; unfold addPredicted; simpl; eauto. }
  destruct Hd as [b1 ->]; simpl; apply IH.
  intros d Hin; apply Hsp; right; exact Hin.
Qed.

Lemma foldM_addRefDep_release (tlet : Transl.Tracelet) :
  forall deps b, exists b', foldM (addRefDep false tlet) deps b = Done b'.
Proof.
  induction deps as [|dep deps IH]; intros b; simpl; [eauto | apply IH].
Qed.

(** In a release build [createRegion] returns a region for every non-empty
    trace whose lifted dependencies are stack or local ones. *)
Lemma createRegion_release_total (tlet : Transl.Tracelet) :
  Transl.m_instrStream tlet <> [] -> dependenciesInSpace tlet ->
  exists r, createRegion false tlet = Done r.
Proof.
  intros Hne Hsp; unfold createRegion.
  destruct (Transl.m_instrStream tlet) as [|first next]; [contradiction|].
  cbn [assert_ bind].
  destruct (walk_release_total (Transl.m_func tlet) (Transl.m_unit first)
              (first :: next) (Transl.m_sk tlet) []
              (newBlock (Transl.m_func tlet) (sk_offset (Transl.m_sk tlet)) 0))
    as [b [bs ->]].
  cbn [bind].
  destruct (foldM_addDependency_release tlet _ b Hsp) as [b1 ->]; cbn [bind].
  destruct (foldM_addRefDep_release tlet (Transl.m_arMap tlet) b1) as [b2 ->].
  cbn [bind]; eauto.
Qed.

End ReleaseBuild.

(** *** A debug build completes on a well-formed tracelet *)

Lemma SrcKey_ltb_asym (a b : SrcKey) :
  SrcKey_ltb a b = true -> SrcKey_ltb b a = false.
Proof.
  intros H; destruct (SrcKey_ltb b a) eqn:E; [|reflexivity].
  apply SrcKey_ltb_lt in H, E; lia.
Qed.

Lemma SrcKey_ltb_neq (a b : SrcKey) :
  SrcKey_ltb a b = true -> SrcKey_eqb b a = false.
Proof.
  intros H; destruct (SrcKey_eqb b a) eqn:E; [|reflexivity].
  apply SrcKey_eqb_eq in E; subst; rewrite SrcKey_ltb_irrefl in H; discriminate.
Qed.

Lemma set_insert_above (k : SrcKey) (l : list SrcKey) :
  (forall x, In x l -> SrcKey_ltb x k = true) -> set_insert k l = l ++ [k].
Proof.
  induction l as [|k' l IH]; intros H; simpl; [reflexivity|].
  assert (Hk : SrcKey_ltb k' k = true) by (apply H; left; reflexivity).
  pose proof Hk as Ha; apply SrcKey_ltb_asym in Ha.
  pose proof Hk as Hn; apply SrcKey_ltb_neq in Hn.
  rewrite Ha, Hn, IH; [reflexivity|].
  intros x Hx; apply H; right; exact Hx.
Qed.

Section DebugBuild.
Context `{BC : Bytecode} `{TS : TypeSystem}.

Lemma lastKey_snoc (l : list SrcKey) (k : SrcKey) : lastKey (l ++ [k]) = Done k.
Proof. unfold lastKey; rewrite rev_app_distr; reflexivity. Qed.

Lemma keysFrom_snoc (u : Unit) (n : nat) :
  forall sk, keysFrom u sk (S n) = keysFrom u sk n ++ [nthKey u sk n].
Proof.
  induction n as [|n IH]; intros sk; [reflexivity|].
  change (keysFrom u sk (S (S n))) with (sk :: keysFrom u (advanced sk u) (S n)).
  rewrite IH; reflexivity.
Qed.

Lemma nthKey_S (u : Unit) (n : nat) :
  forall sk, nthKey u sk (S n) = advanced (nthKey u sk n) u.
Proof.
  induction n as [|n IH]; intros sk; [reflexivity|].
  change (nthKey u sk (S (S n))) with (nthKey u (advanced sk u) (S n)).
  rewrite IH; reflexivity.
Qed.

Lemma keysFrom_length (u : Unit) (n : nat) :
  forall sk, List.length (keysFrom u sk n) = n.
Proof. induction n as [|n IH]; intros sk; simpl; [|rewrite IH]; reflexivity. Qed.

Lemma keysFrom_removelast (u : Unit) (sk : SrcKey) (n : nat) :
  removelast (keysFrom u sk (S n)) = keysFrom u sk n.
Proof. rewrite keysFrom_snoc; apply removelast_last. Qed.

Lemma keysFrom_prefix (u : Unit) (sk : SrcKey) (P : SrcKey -> Prop) (n m : nat) :
  (m <= n)%nat -> Forall P (keysFrom u sk n) -> Forall P (keysFrom u sk m).
Proof.
  induction 1 as [|n Hle IH]; [auto|].
  rewrite keysFrom_snoc; intros H; apply Forall_app in H as [H _]; auto.
Qed.

Lemma nthKey_In (u : Unit) (n : nat) :
  forall sk m, (m < n)%nat -> In (nthKey u sk m) (keysFrom u sk n).
Proof.
  induction n as [|n IH]; intros sk m Hm; [lia|].
  destruct m as [|m]; [left; reflexivity|].
  right; apply (IH (advanced sk u)); lia.
Qed.

Lemma advanced_lt (u : Unit) (k : SrcKey) :
  0 < unit_instrLen u (sk_offset k) -> SrcKey_ltb k (advanced k u) = true.
Proof. intros H; apply SrcKey_ltb_lt; simpl; lia. Qed.

(** Positions that step forward ascend: each lies below the next one. *)
Lemma keysFrom_below (u : Unit) (sk : SrcKey) (n : nat) :
  stepsForward u (keysFrom u sk n) ->
  forall x, In x (keysFrom u sk n) -> SrcKey_ltb x (nthKey u sk n) = true.
Proof.
  unfold stepsForward; induction n as [|n IH]; intros Hf x Hx; [contradiction|].
  rewrite keysFrom_snoc in Hf, Hx.
  apply Forall_app in Hf as [Hf Hn].
  apply Forall_inv in Hn.
  rewrite nthKey_S.
  apply in_app_or in Hx as [Hx | [<- | []]].
  - eapply SrcKey_ltb_trans; [apply IH; assumption | apply advanced_lt; exact Hn].
  - apply advanced_lt; exact Hn.
Qed.

Lemma midBlockOk_inv (o : Op) :
  midBlockOk o = true -> instrFlagsTF o = false /\ instrIsNonCallControlFlow o = false.
Proof.
  unfold midBlockOk; rewrite andb_true_iff, !negb_true_iff; auto.
Qed.

(** The loop of the checker on a block whose instructions, the last one
    aside, step forward and may stand in the middle of a block: it collects
    the positions of the block. *)
Lemma keysLoop_ok (b : Block) (n : nat) :
  forall m,
    (1 <= m)%nat ->
    stepsForward (Block_unit b)
                 (removelast (keysFrom (Block_unit b) (Block_start b) (m + n))) ->
    Forall (fun k => midBlockOk (unit_at (Block_unit b) (sk_offset k)) = true)
           (removelast (keysFrom (Block_unit b) (Block_start b) (m + n))) ->
    keysLoop b n (Z.of_nat m) (keysFrom (Block_unit b) (Block_start b) m)
    = Done (keysFrom (Block_unit b) (Block_start b) (m + n)).
Proof.
  induction n as [|n IH]; intros m Hm Hpos Hmid.
  - rewrite Nat.add_0_r; reflexivity.
  - replace (m + S n)%nat with (S (m + n)) in Hpos, Hmid by lia.
    rewrite keysFrom_removelast in Hpos, Hmid.
    destruct m as [|m]; [lia|].
    assert (Hlast : lastKey (keysFrom (Block_unit b) (Block_start b) (S m))
                    = Done (nthKey (Block_unit b) (Block_start b) m))
      by (rewrite keysFrom_snoc; apply lastKey_snoc).
    assert (Hin : In (nthKey (Block_unit b) (Block_start b) m)
                     (keysFrom (Block_unit b) (Block_start b) (S m + n))).
    { apply nthKey_In; lia. }
    rewrite Forall_forall in Hmid.
    destruct (midBlockOk_inv _ (Hmid _ Hin)) as [Htf Hcf].
    cbn [keysLoop]; rewrite Hlast; cbn [bind].
    rewrite Htf, Hcf.
    assert (Hchk : (if negb (Z.of_nat (S m) =? Block_length b - 1)
                    then Done tt ;;; Done tt else Done (A := Datatypes.unit) tt)
                   = Done tt)
      by (destruct (negb _); reflexivity).
    rewrite Hchk; cbn [bind].
    rewrite <- nthKey_S, set_insert_above.
    + rewrite <- keysFrom_snoc.
      replace (Z.of_nat (S m) + 1) with (Z.of_nat (S (S m))) by lia.
      replace (S m + S n)%nat with (S (S m) + n)%nat by lia.
      apply IH; [lia | |];
        replace (S (S m) + n)%nat with (S (S m + n)) by lia;
        rewrite keysFrom_removelast; [exact Hpos | apply Forall_forall; exact Hmid].
    + apply keysFrom_below.
      eapply keysFrom_prefix; [|exact Hpos]; lia.
Qed.

(** The checker accepts a non-empty block that meets [blockChecks] and
    whose predictions are keyed by positions of the block and name existing
    locals. *)
Lemma checkInvariants_ok (b : Block) :
  1 <= Block_length b ->
  blockChecks b ->
  Forall (typePredChecks b) (m_typePreds b) ->
  (forall k v, In (k, v) (m_refPreds b) -> In k (blockKeys b)) ->
  checkInvariants true b = Done tt.
Proof.
  intros Hlen [Hpos [Hmid Hbr]] Htp Hrp.
  unfold checkInvariants.
  replace (Block_length b =? 0) with false by (symmetry; apply Z.eqb_neq; lia).
  cbn [negb orb].
  assert (Hn : Z.to_nat (Block_length b) = (1 + Z.to_nat (Block_length b - 1))%nat)
    by lia.
  unfold blockKeys in *; rewrite Hn in *.
  change (set_insert (Block_start b) [])
    with (keysFrom (Block_unit b) (Block_start b) 1).
  assert (Hk : keysLoop b (Z.to_nat (Block_length b - 1)) 1
                 (keysFrom (Block_unit b) (Block_start b) 1)
               = Done (keysFrom (Block_unit b) (Block_start b)
                                (1 + Z.to_nat (Block_length b - 1)))).
  { apply keysLoop_ok with (m := 1%nat); [lia | exact Hpos |].
    unfold singleEntrySingleExit, blockKeys in Hmid; rewrite Hn in Hmid.
    rewrite forallb_forall in Hmid; apply Forall_forall; exact Hmid. }
  rewrite Hk; cbn [bind]; rewrite keysFrom_length.
  replace (Z.of_nat (1 + Z.to_nat (Block_length b - 1)) =? Block_length b) with true
    by (symmetry; apply Z.eqb_eq; lia).
  cbn [bind].
  rewrite for_each_Done_intro; cbn [bind].
  - rewrite for_each_Done_intro; cbn [bind].
    + apply for_each_Done_intro; intros [k v] Hin; unfold rangeCheck; cbn [fst snd].
      replace (set_count k _) with true; [reflexivity|].
      symmetry; apply set_count_In; eapply Hrp; exact Hin.
    + intros [k v] Hin; unfold rangeCheck; cbn [fst snd].
      replace (set_count k _) with true; [reflexivity|].
      symmetry; apply set_count_In; eapply Hbr; exact Hin.
  - intros [k v] Hin; unfold rangeCheck; cbn [fst snd].
    rewrite Forall_forall in Htp; destruct (Htp _ Hin) as [Hk' Hl]; cbn [fst snd] in Hk', Hl.
    unfold blockKeys in Hk'; rewrite Hn in Hk'.
    replace (set_count k _) with true by (symmetry; apply set_count_In; exact Hk').
    cbn [bind]; destruct (location v) as [locId|o]; [|reflexivity].
    replace (locId <? func_numLocals (m_func b)) with true; [reflexivity|].
    symmetry; apply Z.ltb_lt; exact Hl.
Qed.

Lemma visited_blockKeys (ni : Transl.NormalizedInstruction) (sk : SrcKey) (cur : Block) :
  0 <= m_length cur ->
  blockKeys (visited ni sk cur)
  = blockKeys cur
      ++ [nthKey (Block_unit cur) (Block_start cur) (Z.to_nat (m_length cur))].
Proof.
  intros Hl; unfold blockKeys, Block_length, Block_unit, Block_start; simpl.
  replace (Z.to_nat (m_length cur + 1)) with (S (Z.to_nat (m_length cur))) by lia.
  apply keysFrom_snoc.
Qed.

(** One iteration of the loop in a debug build, on a block that has passed
    every check so far and whose next position is [sk]. *)
Lemma visited_checks (ni : Transl.NormalizedInstruction) (sk : SrcKey) (cur : Block) :
  0 <= m_length cur -> m_typePreds cur = [] -> m_refPreds cur = [] ->
  stepsForward (Block_unit cur) (blockKeys cur) ->
  Forall (fun k => midBlockOk (unit_at (Block_unit cur) (sk_offset k)) = true)
         (blockKeys cur) ->
  (forall k v, In (k, v) (m_byRefs cur) -> In k (blockKeys cur)) ->
  sk = nthKey (Block_unit cur) (Block_start cur) (Z.to_nat (m_length cur)) ->
  blockChecks (visited ni sk cur)
  /\ addInstruction true cur = Done (lengthened cur)
  /\ (if isArgPass ni
      then setParamByRef true (lengthened cur) sk (byRefOf ni)
      else Done (lengthened cur))
     = Done (visited ni sk cur).
Proof.
  intros Hl Htp Hrp Hpos Hmid Hbr Hsk.
  assert (Hchecks : blockChecks (visited ni sk cur)).
  { unfold blockChecks.
    rewrite visited_blockKeys, removelast_last by exact Hl.
    split; [exact Hpos|]. split.
    - unfold singleEntrySingleExit.
      rewrite visited_blockKeys, removelast_last by exact Hl.
      apply forallb_forall; rewrite Forall_forall in Hmid; exact Hmid.
    - intros k v Hin; apply in_or_app; simpl in Hin.
      destruct (isArgPass ni); [|left; eapply Hbr; exact Hin].
      apply map_insert_In_inv in Hin as [Heq | Hin]; [|left; eapply Hbr; exact Hin].
      injection Heq as -> _; right; left; symmetry; exact Hsk. }
  split; [exact Hchecks|].
  split.
  { unfold addInstruction; fold (lengthened cur).
    rewrite checkInvariants_ok; [reflexivity | simpl; lia | | |].
    - destruct Hchecks as (H1 & H2 & _).
      split; [exact H1|]. split; [exact H2|].
      intros k v Hin.
      change (blockKeys (lengthened cur)) with (blockKeys (visited ni sk cur)).
      rewrite visited_blockKeys by exact Hl.
      apply in_or_app; left; eapply Hbr; exact Hin.
    - simpl; rewrite Htp; constructor.
    - simpl; rewrite Hrp; contradiction. }
  unfold visited in *; destruct (isArgPass ni); [|reflexivity].
  unfold setParamByRef, assert_, lengthened; cbn [m_byRefs m_func m_start m_length
    m_typePreds m_refPreds].
  assert (Hnone : map_find sk (m_byRefs cur) = None).
  { apply map_find_None; intros v Hin.
    apply Hbr in Hin; unfold blockKeys, Block_length in Hin, Hpos.
    eapply keysFrom_below in Hin; [|exact Hpos].
    rewrite <- Hsk, SrcKey_ltb_irrefl in Hin; discriminate. }
  rewrite Hnone; cbn [bind].
  rewrite checkInvariants_ok; [reflexivity | simpl; lia | exact Hchecks | |].
  - simpl; rewrite Htp; constructor.
  - simpl; rewrite Hrp; contradiction.
Qed.

Lemma walk_debug_total (f : Func) (u : Unit) :
  func_unit f = u ->
  forall nis sk closed cur,
    m_func cur = f -> 0 <= m_length cur ->
    m_typePreds cur = [] -> m_refPreds cur = [] ->
    sk_funcId sk = func_id f ->
    followsUnit u sk nis ->
    Forall (fun ni => Transl.m_unit ni = u) nis ->
    stepsForward u (map fst (visits u sk nis)) ->
    Forall (fun j => ni_offset j < jmpTarget j) (nonFinalJmps nis) ->
    midTraceOk nis ->
    blockChecks cur ->
    (nis <> [] ->
     stepsForward u (blockKeys cur)
     /\ Forall (fun k => midBlockOk (unit_at u (sk_offset k)) = true) (blockKeys cur)
     /\ sk = nthKey u (Block_start cur) (Z.to_nat (m_length cur))) ->
    (nis = [] -> 1 <= m_length cur) ->
    Forall (fun b => blockChecks b /\ 1 <= m_length b) closed ->
    exists bs,
      walk true f u nis sk closed cur = Done bs
      /\ Forall (fun b => blockChecks b /\ 1 <= m_length b) bs.
Proof.
  intros Hu; induction nis as [|ni next IH];
    intros sk closed cur Hf Hl Htp Hrp Hfid Hfol Hunits Hpos Hfw Hmid Hcur Hpre Hend
           Hclosed.
  - exists (closed ++ [cur]); split; [reflexivity|].
    apply Forall_app; split; [exact Hclosed|].
    constructor; [split; [exact Hcur | apply Hend; reflexivity] | constructor].
  - destruct Hpre as [Hposc [Hmidc Hsk]]; [discriminate|].
    unfold followsUnit in Hfol; cbn [visits] in Hfol, Hpos.
    apply Forall_cons_iff in Hfol as [[Hsrc Hop] Hfol]; cbn [fst snd] in Hsrc, Hop.
    apply Forall_cons_iff in Hunits as [Hun Hunits].
    cbn [map] in Hpos; apply Forall_cons_iff in Hpos as [Hpsk Hpos].
    cbn [fst] in Hpsk.
    destruct Hmid as [Hni Hmid].
    assert (Hbu : Block_unit cur = u) by (unfold Block_unit; rewrite Hf; exact Hu).
    assert (Hvs : blockChecks (visited ni sk cur)
                  /\ addInstruction true cur = Done (lengthened cur)
                  /\ (if isArgPass ni
                      then setParamByRef true (lengthened cur) sk (byRefOf ni)
                      else Done (lengthened cur))
                     = Done (visited ni sk cur)).
    { apply visited_checks; try assumption; try (rewrite Hbu; assumption).
      destruct Hcur as [_ [_ Hbr]]; exact Hbr. }
    destruct Hvs as (Hv & Hadd & Hstep).
    assert (Hassert : SrcKey_eqb sk (Transl.source ni) = true)
      by (rewrite Hsrc; apply SrcKey_eqb_refl).
    cbn [walk].
    rewrite Hassert, Hun, Z.eqb_refl; cbn [assert_ bind].
    rewrite Hadd; cbn [bind].
    fold (isArgPass ni); rewrite Hstep; cbn [bind].
    cbn [nonFinalJmps] in Hfw.
    fold (jmpTarget ni).
    destruct (isJmp ni && hasNext next) eqn:Ej.
    + apply Forall_cons_iff in Hfw as [Hfwd Hfw].
      unfold ni_offset in Hfwd; rewrite Hsrc in Hfwd.
      replace (jmpTarget ni >? sk_offset sk) with true
        by (symmetry; apply Z.gtb_lt; exact Hfwd).
      cbn [bind].
      apply IH; try assumption; try reflexivity; try (simpl; lia).
      * split; [constructor|]. split; [reflexivity | intros k v []].
      * intros _; split; [constructor|]. split; [constructor|].
        unfold Block_start, setOffset; simpl; rewrite Hfid; reflexivity.
      * intros ->; apply andb_true_iff in Ej as [_ Ej]; discriminate.
      * apply Forall_app; split; [exact Hclosed|].
        constructor; [split; [exact Hv | simpl; lia] | constructor].
    + apply IH; try assumption; try reflexivity; try (simpl; lia).
      * intros Hnext.
        rewrite visited_blockKeys by exact Hl.
        rewrite Hbu, <- Hsk.
        split; [apply Forall_app; split; [exact Hposc | constructor; [exact Hpsk | constructor]]|].
        split.
        -- apply Forall_app; split; [exact Hmidc|].
           constructor; [|constructor].
           rewrite <- Hop; apply Hni.
           ++ destruct next; [contradiction | reflexivity].
           ++ destruct next; [contradiction|].
              simpl in Ej; rewrite andb_true_r in Ej; exact Ej.
        -- simpl; replace (Z.to_nat (m_length cur + 1))
             with (S (Z.to_nat (m_length cur))) by lia.
           rewrite nthKey_S; unfold Block_start in *; simpl; rewrite <- Hsk.
           reflexivity.
Qed.

Lemma blockKeys_sameShape (b b' : Block) :
  sameShape b b' -> blockKeys b' = blockKeys b.
Proof.
  intros [Hf [Hs [Hl _]]].
  unfold blockKeys, Block_unit, Block_start, Block_length; rewrite Hf, Hs, Hl.
  reflexivity.
Qed.

Lemma blockChecks_sameShape (b b' : Block) :
  sameShape b b' -> blockChecks b -> blockChecks b'.
Proof.
  intros Hs [Hpos [Hmid Hbr]]; unfold blockChecks.
  rewrite (blockKeys_sameShape Hs).
  destruct Hs as [Hf [Hst [Hl Hb]]].
  unfold Block_unit in *; rewrite Hf, Hb.
  split; [exact Hpos|]. split; [|exact Hbr].
  rewrite <- Hmid; apply singleEntrySingleExit_ext; assumption.
Qed.

Lemma typePredChecks_sameShape (b b' : Block) (p : SrcKey * TypePred) :
  sameShape b b' -> typePredChecks b p -> typePredChecks b' p.
Proof.
  intros Hs [Hk Hl]; unfold typePredChecks.
  rewrite (blockKeys_sameShape Hs).
  destruct Hs as [Hf _]; rewrite Hf; auto.
Qed.

Lemma blockKeys_start (b : Block) :
  1 <= m_length b -> In (Block_start b) (blockKeys b).
Proof.
  intros Hl; unfold blockKeys, Block_length.
  replace (Z.to_nat (m_length b)) with (S (Z.to_nat (m_length b - 1))) by lia.
  left; reflexivity.
Qed.

Lemma foldM_addDependency_debug (tlet : Transl.Tracelet) :
  forall deps front,
    1 <= m_length front -> blockChecks front ->
    m_func front = Transl.m_func tlet -> Block_start front = Transl.m_sk tlet ->
    m_refPreds front = [] ->
    Forall (typePredChecks front) (m_typePreds front) ->
    Forall (dependencyChecks tlet) deps ->
    exists front',
      foldM (addDependency true tlet) deps front = Done front'
      /\ Forall (typePredChecks front') (m_typePreds front').
Proof.
  induction deps as [|dep deps IH];
    intros front Hl Hchecks Hf Hst Hrp Htp Hdeps; [exists front; auto|].
  apply Forall_cons_iff in Hdeps as [Hdep Hdeps].
  cbn [foldM]; unfold addDependency.
  unfold dependencyChecks, isLifted in Hdep; rewrite <- negb_orb in Hdep.
  destruct (isVagueValue _ || Transl.isThis _); cbn [bind]; [apply IH; assumption|].
  destruct (Hdep eq_refl) as [Hty Hsp].
  assert (Hadd : forall loc,
             match loc with
             | Local locId => locId < func_numLocals (m_func front)
             | Stack _ => True
             end ->
             exists b',
               addPredicted true front (Transl.m_sk tlet)
                 {| location := loc; type := fromRuntimeType (Transl.rtt (snd dep)) |}
               = Done b'
               /\ sameShape front b' /\ m_refPreds b' = []
               /\ Forall (typePredChecks b') (m_typePreds b')).
  { intros loc Hloc; unfold addPredicted, assert_; cbn [type]; rewrite Hty.
    cbn [bind].
    assert (Htp' : Forall (typePredChecks front)
                     (multimap_insert (Transl.m_sk tlet)
                        {| location := loc;
                           type := fromRuntimeType (Transl.rtt (snd dep)) |}
                        (m_typePreds front))).
    { apply Forall_forall; intros x Hx.
      apply multimap_insert_In_inv in Hx as [-> | Hx].
      - split; [rewrite <- Hst; apply blockKeys_start; exact Hl | exact Hloc].
      - rewrite Forall_forall in Htp; apply Htp; exact Hx. }
    rewrite checkInvariants_ok;
      [cbn [bind]; eexists; split; [reflexivity|]
      | exact Hl | exact Hchecks | exact Htp' | simpl; rewrite Hrp; contradiction].
    split; [unfold sameShape; simpl; auto|].
    split; [exact Hrp | exact Htp']. }
  assert (Hstep : exists b',
             match Transl.space (fst dep) with
             | Transl.Stack =>
                 addPredicted true front (Transl.m_sk tlet)
                   {| location := Stack (to_uint32 (- Transl.offset (fst dep) - 1));
                      type := fromRuntimeType (Transl.rtt (snd dep)) |}
             | Transl.Local =>
                 addPredicted true front (Transl.m_sk tlet)
                   {| location := Local (to_uint32 (Transl.offset (fst dep)));
                      type := fromRuntimeType (Transl.rtt (snd dep)) |}
             | _ => not_reached true
             end = Done b'
             /\ sameShape front b' /\ m_refPreds b' = []
             /\ Forall (typePredChecks b') (m_typePreds b')).
  { destruct Hsp as [-> | [-> Hloc]]; apply Hadd; [exact I|].
    rewrite Hf; exact Hloc. }
  destruct Hstep as [b' [-> [Hs [Hrp' Htp']]]]; cbn [bind].
  apply IH; try assumption.
  - destruct Hs as [_ [_ [-> _]]]; exact Hl.
  - apply (blockChecks_sameShape Hs); exact Hchecks.
  - destruct Hs as [-> _]; exact Hf.
  - destruct Hs as [Hf' [Hs' _]]; unfold Block_start in *; rewrite Hf', Hs'; exact Hst.
Qed.

Lemma foldM_addRefDep_debug (tlet : Transl.Tracelet) :
  forall deps front,
    1 <= m_length front -> blockChecks front ->
    Block_start front = Transl.m_sk tlet ->
    Forall (typePredChecks front) (m_typePreds front) ->
    (forall k v, In (k, v) (m_refPreds front) -> In k (blockKeys front)) ->
    exists front',
      foldM (addRefDep true tlet) deps front = Done front'
      /\ (forall k v, In (k, v) (m_refPreds front') -> In k (blockKeys front')).
Proof.
  induction deps as [|dep deps IH];
    intros front Hl Hchecks Hst Htp Hrp; [exists front; auto|].
  cbn [foldM]; unfold addRefDep, addReffinessPred.
  assert (Hrp' : forall k v,
             In (k, v) (multimap_insert (Transl.m_sk tlet)
                          {| mask := Transl.m_mask (snd dep);
                             vals := Transl.m_vals (snd dep);
                             arSpOffset := fst dep |} (m_refPreds front)) ->
             In k (blockKeys front)).
  { intros k v Hx; apply multimap_insert_In_inv in Hx as [Heq | Hx].
    - injection Heq as -> _; rewrite <- Hst; apply blockKeys_start; exact Hl.
    - eapply Hrp; exact Hx. }
  rewrite checkInvariants_ok; [|exact Hl | exact Hchecks | exact Htp | exact Hrp'].
  cbn [bind]; apply IH; try assumption.
Qed.

(** In a debug build [createRegion] returns a region for every well-formed
    tracelet, and every block of the region passes [checkInvariants]. *)
Lemma createRegion_debug_total (tlet : Transl.Tracelet) :
  wellFormedTracelet tlet ->
  exists r,
    createRegion true tlet = Done r
    /\ Forall (fun b => checkInvariants true b = Done tt) (blocks r).
Proof.
  intros (Hfid & Hne & Hunits & Hfol & Hpos & Hfw & Hmid & Hdeps).
  unfold createRegion.
  destruct (Transl.m_instrStream tlet) as [|first next] eqn:Hs; [contradiction|].
  pose proof Hunits as Hun; apply Forall_inv in Hun; rewrite Hun.
  pose proof Hfol as Hsrc; unfold followsUnit in Hsrc; cbn [visits] in Hsrc.
  apply Forall_inv in Hsrc; destruct Hsrc as [Hsrc _]; cbn [fst snd] in Hsrc.
  replace (SrcKey_eqb (Transl.m_sk tlet) (Transl.source first)) with true
    by (rewrite Hsrc; symmetry; apply SrcKey_eqb_refl).
  cbn [assert_ bind].
  set (f := Transl.m_func tlet) in *.
  set (cur := newBlock f (sk_offset (Transl.m_sk tlet)) 0).
  assert (Hstart : Block_start cur = Transl.m_sk tlet).
  { unfold Block_start, cur; simpl; rewrite <- Hfid.
    destruct (Transl.m_sk tlet); reflexivity. }
  assert (Hwalk : exists bs,
             walk true f (func_unit f) (first :: next) (Transl.m_sk tlet) [] cur
             = Done bs
             /\ Forall (fun b => blockChecks b /\ 1 <= m_length b) bs).
  { apply walk_debug_total; try assumption; try reflexivity; try (simpl; lia).
    - split; [constructor|]. split; [reflexivity | intros k v []].
    - intros _; split; [constructor|]. split; [constructor|].
      symmetry; exact Hstart.
    - discriminate.
    - constructor. }
  destruct Hwalk as [bs [Hw Hbs]].
  rewrite Hw; cbn [bind].
  pose proof Hw as Hc; apply walk_count in Hc.
  destruct bs as [|front0 rest]; [discriminate|].
  pose proof Hw as Ht; apply walk_typePreds in Ht; simpl in Ht; injection Ht as Ht0 Htr.
  pose proof Hw as Hp; apply walk_refPreds in Hp; simpl in Hp; injection Hp as Hp0 Hpr.
  pose proof Hw as Hfs; apply walk_funcs in Hfs; simpl in Hfs; injection Hfs as Hf0 _.
  pose proof Hw as Hst; apply walk_starts in Hst; simpl in Hst; injection Hst as Hst0 _.
  apply Forall_cons_iff in Hbs as [[Hchk0 Hl0] Hrest].
  assert (Hstart0 : Block_start front0 = Transl.m_sk tlet).
  { rewrite <- Hstart; unfold Block_start; rewrite Hf0, Hst0; reflexivity. }
  assert (Hdep1 : exists front1,
             foldM (addDependency true tlet) (Transl.m_dependencies tlet) front0
             = Done front1
             /\ Forall (typePredChecks front1) (m_typePreds front1)).
  { apply foldM_addDependency_debug; try assumption.
    rewrite Ht0; constructor. }
  destruct Hdep1 as [front1 [Hd1 Htp1]].
  rewrite Hd1; cbn [bind].
  pose proof Hd1 as Hg1; apply foldM_addDependency in Hg1; [|rewrite Ht0; contradiction].
  destruct Hg1 as [Hs1 [Hr1 _]].
  assert (Hdep2 : exists front2,
             foldM (addRefDep true tlet) (Transl.m_arMap tlet) front1 = Done front2
             /\ (forall k v, In (k, v) (m_refPreds front2) ->
                             In k (blockKeys front2))).
  { apply foldM_addRefDep_debug.
    - destruct Hs1 as [_ [_ [-> _]]]; exact Hl0.
    - eapply blockChecks_sameShape; [exact Hs1 | exact Hchk0].
    - destruct Hs1 as [Hf1 [Hst1 _]]; unfold Block_start in *.
      rewrite Hf1, Hst1; exact Hstart0.
    - exact Htp1.
    - rewrite Hr1, Hp0; intros k v []. }
  destruct Hdep2 as [front2 [Hd2 Hrp2]].
  rewrite Hd2; cbn [bind].
  pose proof Hd2 as Hg2; apply foldM_addRefDep in Hg2;
    [|rewrite Hr1, Hp0; contradiction].
  destruct Hg2 as [Hs2 [Ht2 _]].
  eexists; split; [reflexivity|]; cbn [blocks].
  constructor.
  - apply checkInvariants_ok.
    + destruct Hs2 as [_ [_ [Hl2 _]]], Hs1 as [_ [_ [Hl1 _]]].
      unfold Block_length; rewrite Hl2, Hl1; exact Hl0.
    + eapply blockChecks_sameShape; [exact Hs2|].
      eapply blockChecks_sameShape; [exact Hs1 | exact Hchk0].
    + rewrite Ht2; rewrite Forall_forall in Htp1 |- *; intros x Hx.
      eapply typePredChecks_sameShape; [exact Hs2 | apply Htp1; exact Hx].
    + exact Hrp2.
  - pose proof Htr as Htr'; apply map_const_Forall in Htr'.
    pose proof Hpr as Hpr'; apply map_const_Forall in Hpr'.
    rewrite Forall_forall in Hrest, Htr', Hpr' |- *; intros b Hb.
    destruct (Hrest _ Hb) as [Hchk Hl].
    apply checkInvariants_ok; [exact Hl | exact Hchk | |].
    + rewrite (Htr' _ Hb); constructor.
    + rewrite (Hpr' _ Hb); intros k v [].
Qed.

End DebugBuild.

Section BuilderAux.
Context `{BC : Bytecode} `{TS : TypeSystem}.

Lemma map_Some_defined (A B : Type) (g : A -> option B) (l : list B) (l' : list A) :
  map Some l = map g l' -> forall a, In a l' -> exists b, g a = Some b.
Proof.
  revert l; induction l' as [|a' l' IH]; intros l E a Ha; [contradiction|].
  destruct l as [|b l]; [discriminate|].
  simpl in E; injection E as Hb El.
  destruct Ha as [<- | Ha]; [eauto | exact (IH _ El _ Ha)].
Qed.

Lemma NoDup_keys_functional (A B : Type) (l : list (A * B)) :
  NoDup (map fst l) -> forall k a b, In (k, a) l -> In (k, b) l -> a = b.
Proof.
  induction l as [|[k' v'] l IH]; intros Hnd k a b Ha Hb; [contradiction|].
  simpl in Hnd; apply NoDup_cons_iff in Hnd as [Hnot Hnd].
  destruct Ha as [Ha | Ha], Hb as [Hb | Hb].
  - congruence.
  - injection Ha as <- <-; destruct Hnot; apply (in_map fst _ _ Hb).
  - injection Hb as <- <-; destruct Hnot; apply (in_map fst _ _ Ha).
  - exact (IH Hnd _ _ _ Ha Hb).
Qed.

End BuilderAux.

(** ** A release build returns what a debug build returns *)

Section BuildsAgree.
Context `{BC : Bytecode} `{TS : TypeSystem}.

Lemma setParamByRef_debug_release (b b' : Block) (sk : SrcKey) (byRef : ParamByRef) :
  setParamByRef true b sk byRef = Done b' -> setParamByRef false b sk byRef = Done b'.
Proof. intros E; apply setParamByRef_Done_inv in E as [-> _]; reflexivity. Qed.

Lemma addPredicted_debug_release (b b' : Block) (sk : SrcKey) (pred : TypePred) :
  addPredicted true b sk pred = Done b' -> addPredicted false b sk pred = Done b'.
Proof. intros E; apply addPredicted_Done_inv in E as ->; reflexivity. Qed.

Lemma addReffinessPred_debug_release (b b' : Block) (sk : SrcKey)
  (pred : ReffinessPred) :
  addReffinessPred true b sk pred = Done b' ->
  addReffinessPred false b sk pred = Done b'.
Proof. intros E; apply addReffinessPred_Done_inv in E as ->; reflexivity. Qed.

Lemma walk_debug_release (f : Func) (u : Unit) :
  forall nis sk closed cur bs,
    walk true f u nis sk closed cur = Done bs ->
    walk false f u nis sk closed cur = Done bs.
Proof.
  induction nis as [|ni next IH]; intros sk closed cur bs E; [exact E|].
  cbn [walk] in E |- *.
  apply bind_Done_inv in E as [[] [_ E]].
  apply bind_Done_inv in E as [[] [_ E]].
  apply bind_Done_inv in E as [cur1 [Hadd E]].
  apply addInstruction_Done_inv in Hadd; subst cur1.
  apply bind_Done_inv in E as [cur' [Hcur E]].
  assert (Hcur' : (if negb (Transl.noOp ni) && isFPassStar (Transl.op ni)
                   then setParamByRef false (lengthened cur) sk (byRefOf ni)
                   else Done (lengthened cur)) = Done cur').
  { destruct (negb (Transl.noOp ni) && isFPassStar (Transl.op ni));
      [apply setParamByRef_debug_release; exact Hcur | exact Hcur]. }
  unfold assert_ at 1 2; cbn [bind].
  change (addInstruction false cur) with (Done (lengthened cur)); cbn [bind].
  rewrite Hcur'; cbn [bind].
  destruct (isJmp ni && hasNext next).
  - apply bind_Done_inv in E as [[] [_ E]].
    unfold assert_; cbn [bind]; apply IH; exact E.
  - apply IH; exact E.
Qed.

Lemma addDependency_debug_release (tlet : Transl.Tracelet) (b b' : Block)
  (dep : Transl.Location * Transl.DynLocation) :
  addDependency true tlet b dep = Done b' -> addDependency false tlet b dep = Done b'.
Proof.
  unfold addDependency.
  destruct (isVagueValue _ || Transl.isThis _); [auto|].
  destruct (Transl.space (fst dep)); try discriminate;
    apply addPredicted_debug_release.
Qed.

Lemma foldM_agree (A : Type) (f g : Block -> A -> Outcome Block) (l : list A) :
  (forall b a b', f b a = Done b' -> g b a = Done b') ->
  forall b b', foldM f l b = Done b' -> foldM g l b = Done b'.
Proof.
  intros Hfg; induction l as [|a l IH]; intros b b' E; [exact E|].
  simpl in E |- *; apply bind_Done_inv in E as [b1 [Hf E]].
  rewrite (Hfg _ _ _ Hf); simpl; apply IH; exact E.
Qed.

Lemma createRegion_debug_release (tlet : Transl.Tracelet) (r : RegionDesc) :
  createRegion true tlet = Done r -> createRegion false tlet = Done r.
Proof.
  unfold createRegion.
  destruct (Transl.m_instrStream tlet) as [|first next]; [discriminate|].
  intros E.
  apply bind_Done_inv in E as [[] [_ E]].
  apply bind_Done_inv in E as [bs [Hw E]].
  unfold assert_; cbn [bind].
  rewrite (walk_debug_release _ _ _ _ _ _ Hw); cbn [bind].
  destruct bs as [|front rest]; [discriminate|].
  apply bind_Done_inv in E as [front1 [Hd E]].
  apply bind_Done_inv in E as [front2 [Hr E]].
  assert (Hd' : foldM (addDependency false tlet) (Transl.m_dependencies tlet) front
                = Done front1).
  { revert Hd; apply foldM_agree; intros b a b'.
    apply addDependency_debug_release. }
  rewrite Hd'; cbn [bind].
  assert (Hr' : foldM (addRefDep false tlet) (Transl.m_arMap tlet) front1 = Done front2).
  { revert Hr; apply foldM_agree; intros b a b'.
    apply addReffinessPred_debug_release. }
  rewrite Hr'; exact E.
Qed.

(** *** The builder never leaves by an exception *)

Lemma neverThrows_bind (A B : Type) (m : Outcome A) (k : A -> Outcome B) :
  neverThrows m -> (forall a, neverThrows (k a)) -> neverThrows (bind m k).
Proof.
  intros Hm Hk e; destruct m as [a| | |e']; simpl;
    [apply Hk | discriminate | discriminate | destruct (Hm e' eq_refl)].
Qed.

Lemma neverThrows_returnsOrAborts (A : Type) (m : Outcome A) :
  returnsOrAborts m -> neverThrows m.
Proof. intros [-> | [a ->]] e; discriminate. Qed.

Lemma neverThrows_assert (debug c : bool) : neverThrows (assert_ debug c).
Proof. intros e; unfold assert_; destruct debug, c; discriminate. Qed.

Lemma neverThrows_Done (A : Type) (a : A) : neverThrows (Done a).
Proof. intros e; discriminate. Qed.

Lemma neverThrows_checked (debug : bool) (b : Block) :
  neverThrows (checkInvariants debug b ;;; Done b).
Proof.
  apply neverThrows_bind; [|intros _; apply neverThrows_Done].
  apply neverThrows_returnsOrAborts, checkInvariants_returnsOrAborts.
Qed.

Lemma setParamByRef_neverThrows (debug : bool) (b : Block) (sk : SrcKey)
  (byRef : ParamByRef) :
  neverThrows (setParamByRef debug b sk byRef).
Proof.
  unfold setParamByRef; apply neverThrows_bind; [apply neverThrows_assert|].
  intros _; apply neverThrows_checked.
Qed.

Lemma addPredicted_neverThrows (debug : bool) (b : Block) (sk : SrcKey)
  (pred : TypePred) :
  neverThrows (addPredicted debug b sk pred).
Proof.
  unfold addPredicted; apply neverThrows_bind; [apply neverThrows_assert|].
  intros _; apply neverThrows_checked.
Qed.

Lemma walk_neverThrows (debug : bool) (f : Func) (u : Unit) :
  forall nis sk closed cur, neverThrows (walk debug f u nis sk closed cur).
Proof.
  induction nis as [|ni next IH]; intros sk closed cur; [apply neverThrows_Done|].
  cbn [walk].
  apply neverThrows_bind; [apply neverThrows_assert | intros _].
  apply neverThrows_bind; [apply neverThrows_assert | intros _].
  apply neverThrows_bind; [apply neverThrows_checked | intros cur1].
  apply neverThrows_bind.
  - destruct (negb (Transl.noOp ni) && isFPassStar (Transl.op ni));
      [apply setParamByRef_neverThrows | apply neverThrows_Done].
  - intros cur'; destruct (isJmp ni && hasNext next); [|apply IH].
    apply neverThrows_bind; [apply neverThrows_assert | intros _; apply IH].
Qed.

Lemma foldM_neverThrows (A : Type) (f : Block -> A -> Outcome Block) (l : list A) :
  (forall b a, neverThrows (f b a)) -> forall b, neverThrows (foldM f l b).
Proof.
  intros Hf; induction l as [|a l IH]; intros b; [apply neverThrows_Done|].
  simpl; apply neverThrows_bind; [apply Hf | intros b'; apply IH].
Qed.

Lemma createRegion_neverThrows (debug : bool) (tlet : Transl.Tracelet) :
  neverThrows (createRegion debug tlet).
Proof.
  unfold createRegion.
  destruct (Transl.m_instrStream tlet) as [|first next]; [intros e; discriminate|].
  apply neverThrows_bind; [apply neverThrows_assert | intros _].
  apply neverThrows_bind; [apply walk_neverThrows | intros bs].
  destruct bs as [|front rest]; [intros e; discriminate|].
  apply neverThrows_bind.
  - apply foldM_neverThrows; intros b dep; unfold addDependency.
    destruct (isVagueValue _ || Transl.isThis _); [apply neverThrows_Done|].
    destruct (Transl.space (fst dep)); try apply addPredicted_neverThrows;
      intros e; unfold not_reached; destruct debug; discriminate.
  - intros front1; apply neverThrows_bind; [|intros front2; apply neverThrows_Done].
    apply foldM_neverThrows; intros b dep; unfold addRefDep, addReffinessPred.
    apply neverThrows_checked.
Qed.

End BuildsAgree.

(** ** The sample tracelet is well formed *)

Lemma sampleTracelet_wellFormed : wellFormedTracelet sampleTracelet.
Proof.
  split; [reflexivity|].
  split; [discriminate|].
  split; [repeat constructor|].
  split; [unfold followsUnit; simpl; repeat constructor|].
  split; [unfold stepsForward; simpl; repeat constructor|].
  split; [simpl; repeat constructor|].
  split; [simpl; repeat split; intros; try reflexivity; discriminate|].
  unfold dependencyChecks; simpl.
  constructor; [intros _; split; [reflexivity | left; reflexivity]|].
  constructor; [intros _; split; [reflexivity | right; split; reflexivity]|].
  constructor; [intros H; discriminate H|].
  constructor; [intros H; discriminate H | constructor].
Defined.

Lemma sampleTracelet_inSpace : dependenciesInSpace sampleTracelet.
Proof.
  intros dep Hin Hl; simpl in Hin.
  destruct Hin as [<- | [<- | [<- | [<- | []]]]]; simpl; auto; discriminate.
Defined.

Lemma sampleTracelet_offsetsFit : offsetsFit sampleTracelet.
Proof.
  unfold offsetsFit, fitsInt32; simpl.
  repeat constructor; simpl; try lia; intros E; try discriminate E;
    unfold jmpTarget; simpl; lia.
Defined.

Lemma byValueTracelet_wellFormed : wellFormedTracelet byValueTracelet.
Proof.
  unfold wellFormedTracelet; simpl.
  split; [reflexivity|].
  split; [discriminate|].
  split; [repeat constructor|].
  split; [unfold followsUnit; simpl; repeat constructor|].
  split; [unfold stepsForward; simpl; repeat constructor|].
  split; [repeat constructor|].
  split; [repeat split; intros; try reflexivity; discriminate|].
  constructor.
Defined.

Lemma byValueTracelet_offsetsFit : offsetsFit byValueTracelet.
Proof.
  unfold offsetsFit, fitsInt32; simpl.
  repeat constructor; simpl; try lia; intros E; try discriminate E;
    unfold jmpTarget; simpl; lia.
Defined.

Lemma sampleTracelet_nonempty : Transl.m_instrStream sampleTracelet <> [].
Proof. discriminate. Defined.

(** * The claims *)

(** ** C1. The trace is split at the jumps traced through *)

(** C1: for a trace as the tracer makes them (a well-formed tracelet whose
    offsets are of the width of [Offset]) with [k] jumps that have a
    successor, [createRegion] returns, in a debug and in a release build, a
    region of [k+1] blocks, each single-entry, single-exit; the first block
    starts at the tracelet's position and block [i+1] starts at the target,
    offset plus displacement, of the [i]-th such jump, which is the last
    instruction of block [i] and lies strictly before its target; every
    block of the region passes [checkInvariants].  Whenever the builder
    returns a region at all, the region has these [k+1] blocks with these
    starts and lengths; a debug build then has checked that every jump
    leads forward, and the blocks are single-entry, single-exit when the
    trace agrees with the unit and its instructions that have a successor
    and are no [Jmp] fall through and are no control flow. *)
Theorem createRegion_splits_at_jumps `{BC : Bytecode} `{TS : TypeSystem}
  (debug : bool) (tlet : Transl.Tracelet) :
  (wellFormedTracelet tlet -> offsetsFit tlet ->
   exists r,
     createRegion debug tlet = Done r
     /\ List.length (blocks r) = S (List.length (nonFinalJmps (Transl.m_instrStream tlet)))
     /\ Forall (fun b => singleEntrySingleExit b = true) (blocks r)
     /\ map m_start (blocks r)
        = sk_offset (Transl.m_sk tlet)
          :: map jmpTarget (nonFinalJmps (Transl.m_instrStream tlet))
     /\ Forall (fun j => ni_offset j < jmpTarget j)
               (nonFinalJmps (Transl.m_instrStream tlet))
     /\ Forall (fun b => checkInvariants true b = Done tt) (blocks r))
  /\ (forall r,
        createRegion debug tlet = Done r ->
        List.length (blocks r) = S (List.length (nonFinalJmps (Transl.m_instrStream tlet)))
        /\ map m_start (blocks r)
           = sk_offset (Transl.m_sk tlet)
             :: map jmpTarget (nonFinalJmps (Transl.m_instrStream tlet))
        /\ map m_length (blocks r)
           = map (fun seg => Z.of_nat (List.length seg))
                 (splitAtJmps (Transl.m_instrStream tlet) [])
        /\ List.concat (splitAtJmps (Transl.m_instrStream tlet) [])
           = Transl.m_instrStream tlet
        /\ Forall2 (fun seg j => exists pre, seg = pre ++ [j])
                   (removelast (splitAtJmps (Transl.m_instrStream tlet) []))
                   (nonFinalJmps (Transl.m_instrStream tlet))
        /\ (debug = true ->
            Forall (fun j => ni_offset j < jmpTarget j)
                   (nonFinalJmps (Transl.m_instrStream tlet)))
        /\ (traceFollowsUnit tlet -> midTraceOk (Transl.m_instrStream tlet) ->
            Forall (fun b => singleEntrySingleExit b = true) (blocks r))).
Proof.
  assert (Hany : forall r,
             createRegion debug tlet = Done r ->
             List.length (blocks r)
             = S (List.length (nonFinalJmps (Transl.m_instrStream tlet)))
             /\ map m_start (blocks r)
                = sk_offset (Transl.m_sk tlet)
                  :: map jmpTarget (nonFinalJmps (Transl.m_instrStream tlet))
             /\ map m_length (blocks r)
                = map (fun seg => Z.of_nat (List.length seg))
                      (splitAtJmps (Transl.m_instrStream tlet) [])
             /\ List.concat (splitAtJmps (Transl.m_instrStream tlet) [])
                = Transl.m_instrStream tlet
             /\ Forall2 (fun seg j => exists pre, seg = pre ++ [j])
                        (removelast (splitAtJmps (Transl.m_instrStream tlet) []))
                        (nonFinalJmps (Transl.m_instrStream tlet))
             /\ (debug = true ->
                 Forall (fun j => ni_offset j < jmpTarget j)
                        (nonFinalJmps (Transl.m_instrStream tlet)))
             /\ (traceFollowsUnit tlet -> midTraceOk (Transl.m_instrStream tlet) ->
                 Forall (fun b => singleEntrySingleExit b = true) (blocks r))).
  { intros r E.
    apply createRegion_structure in E
      as [first [next [front0 [front [rest [Hs [Hw [Hb [Hsh _]]]]]]]]].
    destruct Hsh as [Hf [Hst [Hl _]]].
    rewrite Hs, Hb.
    pose proof Hw as Hstarts; apply walk_starts in Hstarts; simpl in Hstarts.
    pose proof Hw as Hlens; eapply (walk_lengths) with (seg := []) in Hlens;
      [|reflexivity].
    simpl map in Hlens at 1 2.
    split.
    { pose proof Hw as Hc; apply walk_count in Hc.
      cbn [List.length Nat.add] in Hc |- *; exact Hc. }
    split; [simpl; rewrite Hst; exact Hstarts|].
    split; [simpl map at 1; rewrite Hl; exact Hlens|].
    split; [rewrite splitAtJmps_concat; reflexivity|].
    split; [apply splitAtJmps_ends|].
    split; [intros Hd; eapply walk_forward; eassumption|].
    intros [Hu Hfol] Hmid; rewrite Hs in Hu, Hfol.
    assert (Hall : Forall (fun b => singleEntrySingleExit b = true) (front0 :: rest)).
    { eapply walk_singleEntrySingleExit;
        [symmetry; exact Hu | exact Hw | reflexivity | simpl; lia | | exact Hmid
         | constructor | reflexivity | intros _; split; reflexivity].
      rewrite Hu; exact Hfol. }
    apply Forall_cons_iff in Hall as [H0 Hrest].
    constructor; [|exact Hrest].
    rewrite <- H0; apply singleEntrySingleExit_ext; assumption. }
  split; [|exact Hany].
  intros Hwf _.
  destruct (createRegion_debug_total Hwf) as [r [Hr Hchk]].
  assert (Hrun : createRegion debug tlet = Done r).
  { destruct debug; [exact Hr | apply createRegion_debug_release; exact Hr]. }
  exists r; split; [exact Hrun|].
  destruct (Hany r Hrun) as (Hn & Hst & _ & _ & _ & _ & Hsese).
  destruct Hwf as (_ & Hne & Hunits & Hfol & _ & Hfw & Hmid & _).
  split; [exact Hn|].
  split.
  { apply Hsese; [|exact Hmid].
    split; [|exact Hfol].
    destruct (Transl.m_instrStream tlet) as [|first next]; [contradiction|].
    apply Forall_inv in Hunits; exact Hunits. }
  split; [exact Hst|].
  split; [exact Hfw | exact Hchk].
Qed.

Lemma createRegion_splits_at_jumps_witness :
  createRegion true sampleTracelet = Done sampleRegion
  /\ createRegion false sampleTracelet = Done sampleRegion
  /\ exists r,
       createRegion true sampleTracelet = Done r
       /\ List.length (blocks r) = 2%nat
       /\ Forall (fun b => singleEntrySingleExit b = true) (blocks r)
       /\ map m_start (blocks r) = [10; 31]
       /\ Forall (fun j => ni_offset j < jmpTarget j) [sampleInstr 11 Jmp false false 20]
       /\ Forall (fun b => checkInvariants true b = Done tt) (blocks r).
Proof.
  split; [reflexivity|].
  split; [reflexivity|].
  exact (proj1 (createRegion_splits_at_jumps true sampleTracelet)
               sampleTracelet_wellFormed sampleTracelet_offsetsFit).
Defined.

(** ** C2. The dependencies lifted into type predictions *)

(** C2, as the code has it: when [createRegion] returns a region, the type
    predictions of its first block are, in order, one per dependency that
    is neither vague nor [this], each keyed by the tracelet's starting
    position; the other blocks have none, and a vague or [this] dependency
    gives none.  Every lifted dependency is a stack or a local one; a stack
    dependency at tracer offset [o] becomes [Stack{uint32_t(-o-1)}], which
    is [Stack{-o-1}] for [-2^32 <= o <= -1], and a local one at [i] becomes
    [Local{uint32_t(i)}], which is [Local{i}] for [0 <= i < 2^32].  The
    builder does return a region: in a release build for every non-empty
    trace whose lifted dependencies are stack or local ones, in a debug
    build for every well-formed tracelet. *)
Theorem dependencies_lifted `{BC : Bytecode} `{TS : TypeSystem}
  (debug : bool) (tlet : Transl.Tracelet) :
  (forall r,
     createRegion debug tlet = Done r ->
     (exists front rest,
        blocks r = front :: rest
        /\ map Some (m_typePreds front)
           = map (liftedPred tlet) (filter isLifted (Transl.m_dependencies tlet))
        /\ Forall (fun b => m_typePreds b = []) rest)
     /\ dependenciesInSpace tlet)
  /\ (forall dep loc ty,
        liftedPred tlet dep = Some (loc, ty) ->
        loc = Transl.m_sk tlet
        /\ type ty = fromRuntimeType (Transl.rtt (snd dep))
        /\ match Transl.space (fst dep) with
           | Transl.Stack =>
               location ty = Stack ((- Transl.offset (fst dep) - 1) mod 2 ^ 32)
               /\ (- 2 ^ 32 <= Transl.offset (fst dep) <= -1 ->
                   location ty = Stack (- Transl.offset (fst dep) - 1))
           | Transl.Local =>
               location ty = Local (Transl.offset (fst dep) mod 2 ^ 32)
               /\ (0 <= Transl.offset (fst dep) < 2 ^ 32 ->
                   location ty = Local (Transl.offset (fst dep)))
           | _ => False
           end)
  /\ (Transl.m_instrStream tlet <> [] -> dependenciesInSpace tlet ->
      exists r, createRegion false tlet = Done r)
  /\ (wellFormedTracelet tlet -> exists r, createRegion true tlet = Done r).
Proof.
  split; [|split; [|split]].
  - intros r E.
    apply createRegion_structure in E
      as (first & next & front0 & front & rest & _ & _ & Hb & _ & Ht & _ & Hrest & _).
    split; [exists front, rest; auto|].
    intros dep Hin Hl.
    assert (Hf : In dep (filter isLifted (Transl.m_dependencies tlet)))
      by (apply filter_In; auto).
    destruct (map_Some_defined _ _ _ Ht _ Hf) as [p Hp].
    unfold liftedPred, liftedLocation in Hp.
    destruct (Transl.space (fst dep)); auto; discriminate.
  - intros dep loc ty Hp; unfold liftedPred, liftedLocation, to_uint32 in Hp.
    destruct (Transl.space (fst dep)); simpl in Hp; try discriminate;
      injection Hp as <- <-; simpl; repeat split; intros Hr; f_equal.
    + rewrite Z.mod_small by lia; reflexivity.
    + rewrite Z.mod_small by lia; reflexivity.
  - apply createRegion_release_total.
  - intros Hwf; destruct (createRegion_debug_total Hwf) as [r [Hr _]]; eauto.
Qed.

Lemma dependencies_lifted_witness :
  createRegion true sampleTracelet = Done sampleRegion
  /\ (exists front rest,
        blocks sampleRegion = front :: rest
        /\ map Some (m_typePreds front)
           = [ Some (sampleKey 10, samplePred (Stack 0) TInt);
               Some (sampleKey 10, samplePred (Local 1) TStr) ]
        /\ Forall (fun b => m_typePreds b = []) rest)
  /\ location (samplePred (Stack 0) TInt)
     = Stack (- Transl.offset (fst (sampleDep Transl.Stack (-1) RttInt)) - 1)
  /\ (exists r, createRegion false sampleTracelet = Done r)
  /\ (exists r, createRegion true sampleTracelet = Done r).
Proof.
  assert (E : createRegion true sampleTracelet = Done sampleRegion) by reflexivity.
  destruct (dependencies_lifted true sampleTracelet) as (H & Hloc & Hrel & Hdbg).
  destruct (H sampleRegion E) as [Hfront _].
  split; [exact E|].
  split; [exact Hfront|].
  split.
  { destruct (Hloc (sampleDep Transl.Stack (-1) RttInt) (sampleKey 10)
                   (samplePred (Stack 0) TInt) eq_refl) as (_ & _ & _ & Hexact).
    apply Hexact; simpl; lia. }
  split; [exact (Hrel sampleTracelet_nonempty sampleTracelet_inSpace)|].
  exact (Hdbg sampleTracelet_wellFormed).
Defined.

(** C2 as stated fails: a stack dependency at tracer offset 0 is lifted, in
    a debug and in a release build, to [Stack{4294967295}], the value of
    [uint32_t(-1)], not to [Stack{-1}]. *)
Lemma stack_dependency_offset_wraps :
  createRegion true stackZeroTracelet = Done stackZeroRegion
  /\ createRegion false stackZeroTracelet = Done stackZeroRegion
  /\ map (fun dep => Transl.offset (fst dep)) (Transl.m_dependencies stackZeroTracelet)
     = [0]
  /\ map (fun p => location (snd p)) (flat_map m_typePreds (blocks stackZeroRegion))
     = [Stack 4294967295]
  /\ Stack 4294967295 <> Stack (- 0 - 1).
Proof.
  repeat split; discriminate.
Qed.

(** ** C3. The failure boundary of the selector *)

(** C3, as the code has it.  Whatever the chosen strategy is (one of the
    two external strategies, or the builder, whose call is taken with
    every way it can end): when it leaves by an exception derived from
    [std::exception], the selector catches it, reports it by an [FTRACE]
    and returns "no region", and no such exception ever leaves
    [selectRegion].  When the strategy leaves by a thrown object of another
    type, that object leaves [selectRegion] too; when it aborts on a failed
    assertion, so does [selectRegion]; neither is caught, and no trace line
    follows.  The strategy of mode "onebc" is [regionOneBC], that of mode
    "method" is [regionMethod], that of mode "tracelet", with a trace, is
    the builder; [selectRegion] is the selector over the embedded
    builder. *)
Theorem selectRegion_catches_std_exception `{BC : Bytecode} `{TS : TypeSystem}
  (debug : bool) (regionMethod regionOneBC : RegionContext -> Outcome RegionDescPtr)
  (builder : Transl.Tracelet -> Traced RegionDescPtr)
  (s : string) (context : RegionContext) (t : option Transl.Tracelet) :
  (forall mode ev0 ev what,
     regionMode debug s = (ev0, Done mode) ->
     dispatchOver regionMethod regionOneBC builder mode context t
     = (ev, Throw (StdException what)) ->
     selectRegionOver debug regionMethod regionOneBC builder s context t
     = (ev0 ++ [FTRACE 1 (SelectRegion context mode)] ++ ev
            ++ [FTRACE 1 (SelectorThrew what); FTRACE 1 NoRegionSelectable],
        Done None))
  /\ (forall what,
        snd (selectRegionOver debug regionMethod regionOneBC builder s context t)
        <> Throw (StdException what))
  /\ (forall mode ev0 ev,
        regionMode debug s = (ev0, Done mode) ->
        dispatchOver regionMethod regionOneBC builder mode context t
        = (ev, Throw ForeignException) ->
        selectRegionOver debug regionMethod regionOneBC builder s context t
        = (ev0 ++ [FTRACE 1 (SelectRegion context mode)] ++ ev, Throw ForeignException))
  /\ (forall mode ev0 ev,
        regionMode debug s = (ev0, Done mode) ->
        dispatchOver regionMethod regionOneBC builder mode context t = (ev, Abort) ->
        selectRegionOver debug regionMethod regionOneBC builder s context t
        = (ev0 ++ [FTRACE 1 (SelectRegion context mode)] ++ ev, Abort))
  /\ dispatchOver regionMethod regionOneBC builder RegionMode.OneBC context t
     = ([Invoke RegionOneBC], regionOneBC context)
  /\ dispatchOver regionMethod regionOneBC builder RegionMode.Method context t
     = ([Invoke RegionMethod], regionMethod context)
  /\ (forall tlet,
        dispatchOver regionMethod regionOneBC builder RegionMode.Tracelet context
                     (Some tlet)
        = builder tlet)
  /\ selectRegion debug regionMethod regionOneBC s context t
     = selectRegionOver debug regionMethod regionOneBC (createRegion_traced debug)
                        s context t.
Proof.
  split; [|split; [|split; [|split]]].
  - intros mode ev0 ev what Hm Hd.
    unfold selectRegionOver; rewrite Hm; unfold tbind at 1.
    unfold ftrace, tbind at 2.
    rewrite Hd; simpl.
    rewrite <- !app_assoc; reflexivity.
  - intros what; rewrite selectRegionOver_outcome.
    pose proof (regionMode_never_throws debug s) as Hn.
    destruct (snd (regionMode debug s)) as [mode| | |e];
      try discriminate; [|exfalso; exact (Hn e eq_refl)].
    destruct (snd (dispatchOver regionMethod regionOneBC builder mode context t))
      as [region| | |[w|]]; discriminate.
  - intros mode ev0 ev Hm Hd.
    unfold selectRegionOver; rewrite Hm; unfold tbind at 1.
    unfold ftrace, tbind at 2.
    rewrite Hd; reflexivity.
  - intros mode ev0 ev Hm Hd.
    unfold selectRegionOver; rewrite Hm; unfold tbind at 1.
    unfold ftrace, tbind at 2.
    rewrite Hd; reflexivity.
  - split; [reflexivity|].
    split; [reflexivity|].
    split; [|reflexivity].
    intros tlet; unfold dispatchOver; cbn [isSome always_assert tbind].
    destruct (builder tlet); reflexivity.
Qed.

Lemma selectRegion_catches_std_exception_witness :
  selectRegion true failingStrategy noRegionStrategy "method" sampleContext None
  = ([FTRACE 1 (SelectRegion sampleContext RegionMode.Method);
      Invoke RegionMethod;
      FTRACE 1 (SelectorThrew "unsupported");
      FTRACE 1 NoRegionSelectable],
     Done None)
  /\ selectRegionOver true noRegionStrategy noRegionStrategy outOfMemoryBuilder
       "tracelet" sampleContext (Some sampleTracelet)
     = ([FTRACE 1 (SelectRegion sampleContext RegionMode.Tracelet);
         Invoke CreateRegion;
         FTRACE 1 (SelectorThrew "std::bad_alloc");
         FTRACE 1 NoRegionSelectable],
        Done None)
  /\ selectRegionOver true noRegionStrategy noRegionStrategy foreignBuilder
       "tracelet" sampleContext (Some sampleTracelet)
     = ([FTRACE 1 (SelectRegion sampleContext RegionMode.Tracelet);
         Invoke CreateRegion],
        Throw ForeignException)
  /\ selectRegion true noRegionStrategy noRegionStrategy "tracelet" sampleContext None
     = ([FTRACE 1 (SelectRegion sampleContext RegionMode.Tracelet)], Abort).
Proof.
  split; [|split; [|split]].
  - exact (proj1 (selectRegion_catches_std_exception true failingStrategy
                    noRegionStrategy (createRegion_traced true) "method"
                    sampleContext None)
                 RegionMode.Method [] [Invoke RegionMethod] "unsupported"%string
                 eq_refl eq_refl).
  - exact (proj1 (selectRegion_catches_std_exception true noRegionStrategy
                    noRegionStrategy outOfMemoryBuilder "tracelet"
                    sampleContext (Some sampleTracelet))
                 RegionMode.Tracelet [] [Invoke CreateRegion] "std::bad_alloc"%string
                 eq_refl eq_refl).
  - exact (proj1 (proj2 (proj2 (selectRegion_catches_std_exception true
                    noRegionStrategy noRegionStrategy foreignBuilder "tracelet"
                    sampleContext (Some sampleTracelet))))
                 RegionMode.Tracelet [] [Invoke CreateRegion] eq_refl eq_refl).
  - exact (proj1 (proj2 (proj2 (proj2 (selectRegion_catches_std_exception true
                    noRegionStrategy noRegionStrategy (createRegion_traced true)
                    "tracelet" sampleContext None))))
                 RegionMode.Tracelet [] [] eq_refl eq_refl).
Defined.

(** C3 as stated fails: an object thrown by the chosen strategy that is not
    derived from [std::exception] passes the [catch] clause and leaves
    [selectRegion]; so does the abort of an assertion of the builder. *)
Lemma selectRegion_foreign_exception_propagates :
  selectRegion true noRegionStrategy foreignStrategy "onebc" sampleContext None
  = ([FTRACE 1 (SelectRegion sampleContext RegionMode.OneBC); Invoke RegionOneBC],
     Throw ForeignException)
  /\ snd (selectRegion true noRegionStrategy foreignStrategy "onebc" sampleContext None)
     <> Done None
  /\ snd (selectRegion true noRegionStrategy noRegionStrategy "tracelet" sampleContext
            (Some backwardTracelet))
     = Abort.
Proof. split; [reflexivity | split; [simpl; discriminate | reflexivity]]. Qed.

(** ** C4. Trace-based mode without a trace *)

(** C4: in trace-based mode with no trace supplied, [selectRegion] aborts on
    [always_assert(t)], in every build and whatever the strategies are; it
    does not return "no region". *)
Theorem selectRegion_tracelet_without_trace `{BC : Bytecode} `{TS : TypeSystem}
  (debug : bool) (regionMethod regionOneBC : RegionContext -> Outcome RegionDescPtr)
  (context : RegionContext) :
  regionMode debug "tracelet" = ([], Done RegionMode.Tracelet)
  /\ selectRegion debug regionMethod regionOneBC "tracelet" context None
     = ([FTRACE 1 (SelectRegion context RegionMode.Tracelet)], Abort)
  /\ snd (selectRegion debug regionMethod regionOneBC "tracelet" context None)
     <> Done None.
Proof.
  split; [reflexivity|].
  split; [reflexivity|].
  simpl; discriminate.
Qed.

(** ** C5. Metadata outside the range of a block *)

(** C5, as the code has it: in a debug build, on a block whose length is
    not zero, inserting a type prediction, a by-reference flag or a
    reffiness predicate at a key that is not an instruction position of the
    block aborts. *)
Theorem out_of_range_metadata_rejected `{BC : Bytecode} `{TS : TypeSystem}
  (b : Block) (sk : SrcKey)
  (pred : TypePred) (byRef : ParamByRef) (rpred : ReffinessPred) :
  Block_length b <> 0 -> inRange b sk = false ->
  addPredicted true b sk pred = Abort
  /\ setParamByRef true b sk byRef = Abort
  /\ addReffinessPred true b sk rpred = Abort.
Proof.
  intros Hlen Hout; apply inRange_false in Hout.
  split; [|split].
  - unfold addPredicted, assert_.
    destruct (subtypeOfGenCls (type pred)); [simpl|reflexivity].
    apply insertion_aborts with (P := In sk (blockKeys b)); [|exact Hout].
    intros E; apply checkInvariants_Done_inv in E; [|exact Hlen].
    destruct E as [_ [H _]].
    apply (H sk pred); simpl; apply multimap_insert_In.
  - unfold setParamByRef, assert_.
    destruct (map_find sk (m_byRefs b)) eqn:Ef; [reflexivity|simpl].
    apply insertion_aborts with (P := In sk (blockKeys b)); [|exact Hout].
    intros E; apply checkInvariants_Done_inv in E; [|exact Hlen].
    destruct E as [_ [_ [H _]]].
    apply (H sk byRef); simpl; apply map_insert_In_new; exact Ef.
  - unfold addReffinessPred.
    apply insertion_aborts with (P := In sk (blockKeys b)); [|exact Hout].
    intros E; apply checkInvariants_Done_inv in E; [|exact Hlen].
    destruct E as [_ [_ [_ H]]].
    apply (H sk rpred); simpl; apply multimap_insert_In.
Qed.

Lemma out_of_range_metadata_rejected_witness :
  addPredicted true twoInstrBlock farKey (samplePred (Stack 0) TInt) = Abort
  /\ setParamByRef true twoInstrBlock farKey Yes = Abort
  /\ addReffinessPred true twoInstrBlock farKey sampleRefPred = Abort.
Proof.
  apply out_of_range_metadata_rejected; [discriminate | reflexivity].
Defined.

(** C5 as stated fails on a block whose length is zero: every position is
    outside its range, and all three insertions are accepted in a debug
    build.  The range of a block is, moreover, the set of its instruction
    positions and not the interval of offsets from [start] to [start +
    length]: the block of the two three-byte instructions at 10 and 13
    accepts the key 13. *)
Lemma out_of_range_metadata_accepted_when_empty :
  inRange emptyBlock farKey = false
  /\ (exists b, addPredicted true emptyBlock farKey (samplePred (Stack 0) TInt) = Done b)
  /\ (exists b, setParamByRef true emptyBlock farKey Yes = Done b)
  /\ (exists b, addReffinessPred true emptyBlock farKey sampleRefPred = Done b)
  /\ blockKeys wideBlock
     = [{| sk_funcId := 11; sk_offset := 10 |}; {| sk_funcId := 11; sk_offset := 13 |}]
  /\ (exists b, addReffinessPred true wideBlock {| sk_funcId := 11; sk_offset := 13 |}
                  sampleRefPred = Done b).
Proof. repeat split; eexists; reflexivity. Qed.

(** ** C6. Local bounds and stack offsets of predictions *)

(** C6, as the code has it: in a debug build, on a block whose length is
    not zero, a prediction for [Local{id}] with [id] not below the local
    count of the function aborts.  A prediction for [Stack{offset}] is
    never rejected for its offset: whether it is accepted does not depend
    on the offset, in any build, and on a block that meets what the checker
    asks a prediction of the value-or-class domain at a position of the
    block is accepted for every offset, leaving a block that passes the
    check. *)
Theorem local_bound_checked_stack_unchecked `{BC : Bytecode} `{TS : TypeSystem}
  (debug : bool) (b : Block) (sk : SrcKey) (id : Z) (ty : JitType) :
  (Block_length b <> 0 -> func_numLocals (m_func b) <= id ->
   addPredicted true b sk {| location := Local id; type := ty |} = Abort)
  /\ (forall o1 o2 b1,
        addPredicted debug b sk {| location := Stack o1; type := ty |} = Done b1 ->
        exists b2,
          addPredicted debug b sk {| location := Stack o2; type := ty |} = Done b2
          /\ m_typePreds b2
             = multimap_insert sk {| location := Stack o2; type := ty |} (m_typePreds b))
  /\ (forall o,
        1 <= Block_length b -> blockChecks b ->
        Forall (typePredChecks b) (m_typePreds b) ->
        (forall k v, In (k, v) (m_refPreds b) -> In k (blockKeys b)) ->
        In sk (blockKeys b) -> subtypeOfGenCls ty = true ->
        exists b',
          addPredicted debug b sk {| location := Stack o; type := ty |} = Done b'
          /\ checkInvariants debug b' = Done tt).
Proof.
  split; [|split].
  - intros Hlen Hid; unfold addPredicted, assert_; simpl.
    destruct (subtypeOfGenCls ty); [simpl|reflexivity].
    apply insertion_aborts with (P := id < func_numLocals (m_func b)); [|lia].
    intros E; apply checkInvariants_Done_inv in E; [|exact Hlen].
    destruct E as [_ [H _]].
    apply (H sk {| location := Local id; type := ty |}); simpl.
    apply multimap_insert_In.
  - intros o1 o2 b1; unfold addPredicted; simpl.
    intros E; apply bind_Done_inv in E as [[] [Ha E]]; rewrite Ha; simpl.
    apply bind_Done_inv in E as [[] [Hc _]].
    rewrite (checkInvariants_Stack_ext debug b sk o1 o2 ty) in Hc.
    rewrite Hc; simpl; eexists; split; reflexivity.
  - intros o Hlen Hchecks Htp Hrp Hsk Hty.
    unfold addPredicted, assert_; cbn [type]; rewrite Hty.
    assert (Hok : checkInvariants debug
                    {| m_func := m_func b; m_start := m_start b; m_length := m_length b;
                       m_typePreds :=
                         multimap_insert sk {| location := Stack o; type := ty |}
                                         (m_typePreds b);
                       m_byRefs := m_byRefs b; m_refPreds := m_refPreds b |}
                  = Done tt).
    { destruct debug; [|reflexivity].
      apply checkInvariants_ok; [exact Hlen | exact Hchecks | | exact Hrp].
      apply Forall_forall; intros x Hx.
      apply multimap_insert_In_inv in Hx as [-> | Hx].
      - split; [exact Hsk | exact I].
      - rewrite Forall_forall in Htp; apply Htp; exact Hx. }
    rewrite Hok; destruct debug; cbn [bind]; eexists; split; try reflexivity;
      exact Hok.
Qed.

Lemma local_bound_checked_stack_unchecked_witness :
  addPredicted true twoInstrBlock (sampleKey 10) (samplePred (Local 2) TInt)
  = Abort
  /\ (exists b2,
        addPredicted true twoInstrBlock (sampleKey 10)
          (samplePred (Stack 4294967295) TInt) = Done b2
        /\ m_typePreds b2
           = [(sampleKey 10, (samplePred (Stack 4294967295) TInt))])
  /\ (exists b',
        addPredicted true twoInstrBlock (sampleKey 10) (samplePred (Stack 77) TInt)
        = Done b'
        /\ checkInvariants true b' = Done tt).
Proof.
  destruct (local_bound_checked_stack_unchecked true twoInstrBlock
              (sampleKey 10) 2 TInt) as (Hlocal & Hindep & Hstack).
  split; [apply Hlocal; [discriminate | simpl; lia]|].
  split.
  - apply (Hindep 0 4294967295
             {| m_func := sampleFunc; m_start := 10; m_length := 2;
                m_typePreds := [(sampleKey 10, (samplePred (Stack 0) TInt))];
                m_byRefs := []; m_refPreds := [] |}).
    reflexivity.
  - apply (Hstack 77).
    + simpl; lia.
    + split; [unfold stepsForward; simpl; repeat constructor|].
      split; [reflexivity | intros k v []].
    + constructor.
    + intros k v [].
    + left; reflexivity.
    + reflexivity.
Defined.

(** C6 as stated fails on a block whose length is zero: a prediction for a
    local beyond the two locals of the function is accepted in a debug
    build. *)
Lemma invalid_local_accepted_when_empty :
  func_numLocals (m_func emptyBlock) <= 5
  /\ exists b, addPredicted true emptyBlock (sampleKey 10)
                 (samplePred (Local 5) TInt) = Done b.
Proof. split; [simpl; lia | eexists; reflexivity]. Qed.

(** ** C7. The disabled selector *)

(** C7: with the selector unset (mode [None]), [selectRegion] returns "no
    region" and invokes no strategy; a selector string that is none of the
    four known ones is reported by an [FTRACE] and, in a release build,
    treated as mode [None] (again "no region", no strategy invoked), while
    a debug build aborts. *)
Theorem selectRegion_disabled `{BC : Bytecode} `{TS : TypeSystem}
  (debug : bool) (regionMethod regionOneBC : RegionContext -> Outcome RegionDescPtr)
  (context : RegionContext) (t : option Transl.Tracelet) (s : string) :
  s <> ""%string -> s <> "onebc"%string -> s <> "method"%string ->
  s <> "tracelet"%string ->
  selectRegion debug regionMethod regionOneBC "" context t
  = ([FTRACE 1 (SelectRegion context RegionMode.None); FTRACE 1 NoRegionSelectable],
     Done None)
  /\ regionMode false s = ([FTRACE 1 (UnknownRegionMode s)], Done RegionMode.None)
  /\ selectRegion false regionMethod regionOneBC s context t
     = ([FTRACE 1 (UnknownRegionMode s);
         FTRACE 1 (SelectRegion context RegionMode.None);
         FTRACE 1 NoRegionSelectable],
        Done None)
  /\ regionMode true s = ([FTRACE 1 (UnknownRegionMode s)], Abort)
  /\ selectRegion true regionMethod regionOneBC s context t
     = ([FTRACE 1 (UnknownRegionMode s)], Abort).
Proof.
  intros H1 H2 H3 H4.
  split; [reflexivity|].
  pose proof (regionMode_unrecognised false H1 H2 H3 H4) as Hr.
  pose proof (regionMode_unrecognised true H1 H2 H3 H4) as Hd.
  simpl in Hr, Hd.
  split; [exact Hr|].
  split; [unfold selectRegion, selectRegionOver; rewrite Hr; reflexivity|].
  split; [exact Hd|].
  unfold selectRegion, selectRegionOver; rewrite Hd; reflexivity.
Qed.

Lemma selectRegion_disabled_witness :
  selectRegion true failingStrategy failingStrategy "" sampleContext (Some sampleTracelet)
  = ([FTRACE 1 (SelectRegion sampleContext RegionMode.None); FTRACE 1 NoRegionSelectable],
     Done None)
  /\ selectRegion false failingStrategy failingStrategy "bogus" sampleContext None
     = ([FTRACE 1 (UnknownRegionMode "bogus");
         FTRACE 1 (SelectRegion sampleContext RegionMode.None);
         FTRACE 1 NoRegionSelectable],
        Done None)
  /\ selectRegion true failingStrategy failingStrategy "bogus" sampleContext None
     = ([FTRACE 1 (UnknownRegionMode "bogus")], Abort).
Proof.
  assert (H1 : "bogus"%string <> ""%string) by discriminate.
  assert (H2 : "bogus"%string <> "onebc"%string) by discriminate.
  assert (H3 : "bogus"%string <> "method"%string) by discriminate.
  assert (H4 : "bogus"%string <> "tracelet"%string) by discriminate.
  pose proof (selectRegion_disabled true failingStrategy failingStrategy
                sampleContext (Some sampleTracelet) H1 H2 H3 H4) as [Ha _].
  pose proof (selectRegion_disabled true failingStrategy failingStrategy
                sampleContext None H1 H2 H3 H4) as [_ [_ [Hb [_ Hc]]]].
  exact (conj Ha (conj Hb Hc)).
Defined.

(** ** C8. The by-reference flags *)

(** C8: when [createRegion] returns a region, every flag of the region was
    recorded for an instruction that is no no-op and passes an argument, at
    the position the loop visited it at, and the flag is [Yes] when the
    tracer prepared the argument by reference ([preppedByRef]) and [No]
    when it did not; every such instruction has a flag at that position:
    this very flag in a debug build, where the position is moreover the
    one the instruction records, and in any build when no two instructions
    are visited at the same position.  Setting a flag where one exists
    aborts in a debug build, and in every build a block whose flags are
    keyed in ascending order keeps them so, hence holds at most one flag
    per position.  For a trace as the tracer makes them the builder does
    return a region, in a debug and in a release build. *)
Theorem byRef_flags_recorded `{BC : Bytecode} `{TS : TypeSystem}
  (debug : bool) (tlet : Transl.Tracelet) :
  (forall r,
     createRegion debug tlet = Done r ->
     exists first,
       head (Transl.m_instrStream tlet) = Some first
       /\ (forall k fl,
            In (k, fl) (allByRefs (blocks r)) ->
            exists ni, In (k, ni) (visits (Transl.m_unit first) (Transl.m_sk tlet)
                                         (Transl.m_instrStream tlet))
                       /\ Transl.noOp ni = false
                       /\ isFPassStar (Transl.op ni) = true
                       /\ fl = (if Transl.preppedByRef ni then Yes else No))
       /\ (forall k ni,
            In (k, ni) (visits (Transl.m_unit first) (Transl.m_sk tlet)
                              (Transl.m_instrStream tlet)) ->
            Transl.noOp ni = false -> isFPassStar (Transl.op ni) = true ->
            exists fl, In (k, fl) (allByRefs (blocks r))
                       /\ (debug = true ->
                           fl = (if Transl.preppedByRef ni then Yes else No))
                       /\ (NoDup (map fst (visits (Transl.m_unit first)
                                                  (Transl.m_sk tlet)
                                                  (Transl.m_instrStream tlet))) ->
                           fl = (if Transl.preppedByRef ni then Yes else No)))
       /\ (debug = true ->
           visits (Transl.m_unit first) (Transl.m_sk tlet) (Transl.m_instrStream tlet)
           = map (fun ni => (Transl.source ni, ni)) (Transl.m_instrStream tlet)))
  /\ (forall b sk fl fl',
        In (sk, fl) (m_byRefs b) -> setParamByRef true b sk fl' = Abort)
  /\ (forall b sk fl b',
        keysAscend (m_byRefs b) -> setParamByRef debug b sk fl = Done b' ->
        keysAscend (m_byRefs b')
        /\ forall k v1 v2,
             In (k, v1) (m_byRefs b') -> In (k, v2) (m_byRefs b') -> v1 = v2)
  /\ (wellFormedTracelet tlet -> offsetsFit tlet ->
      exists r, createRegion debug tlet = Done r).
Proof.
  assert (Harg : forall ni,
             isArgPass ni = true
             <-> Transl.noOp ni = false /\ isFPassStar (Transl.op ni) = true).
  { intros ni; unfold isArgPass.
    rewrite andb_true_iff, negb_true_iff; reflexivity. }
  split; [|split; [|split]].
  - intros r E.
    apply createRegion_structure in E
      as [first [next [front0 [front [rest [Hs [Hw [Hb [Hsh _]]]]]]]]].
    assert (Hall : allByRefs (blocks r) = allByRefs (front0 :: rest)).
    { rewrite Hb; unfold allByRefs; simpl.
      destruct Hsh as [_ [_ [_ ->]]]; reflexivity. }
    exists first; rewrite Hs, Hall; split; [reflexivity|].
    assert (Hsound : forall k fl,
               In (k, fl) (allByRefs (front0 :: rest)) ->
               exists ni, In (k, ni) (visits (Transl.m_unit first) (Transl.m_sk tlet)
                                            (first :: next))
                          /\ Transl.noOp ni = false
                          /\ isFPassStar (Transl.op ni) = true
                          /\ fl = (if Transl.preppedByRef ni then Yes else No)).
    { intros k fl Hin.
      eapply walk_byRefs_sound in Hin; [|exact Hw].
      destruct Hin as [H | [H | [k' [ni [Hv [Ha Hx]]]]]]; try contradiction.
      injection Hx as -> ->; exists ni.
      apply Harg in Ha as [Hn Hp]; repeat split; assumption. }
    split; [exact Hsound|].
    split.
    + intros k ni Hv Hn Hp.
      assert (Ha : isArgPass ni = true) by (apply Harg; split; assumption).
      assert (Hc : exists fl, In (k, fl) (allByRefs (front0 :: rest))
                              /\ (true = debug ->
                                  fl = (if Transl.preppedByRef ni then Yes else No))).
      { destruct debug.
        - eapply walk_byRefs_complete in Ha; [|exact Hw | exact Hv].
          destruct Ha as [fl [Hin Hfl]]; exists fl; split; [exact Hin | auto].
        - eapply walk_byRefs_complete in Ha; [|exact Hw | exact Hv].
          destruct Ha as [fl [Hin _]]; exists fl; split;
            [exact Hin | discriminate]. }
      destruct Hc as [fl [Hin Hfl]]; exists fl.
      split; [exact Hin|]. split; [intros Hd; apply Hfl; symmetry; exact Hd|].
      intros Hnd.
      destruct (Hsound _ _ Hin) as [ni' [Hv' [_ [_ ->]]]].
      assert (Heq : ni' = ni) by (eapply NoDup_keys_functional; eassumption).
      rewrite Heq; reflexivity.
    + intros Hd; eapply walk_visits_sources; eassumption.
  - intros b sk fl fl' Hin; unfold setParamByRef, assert_.
    destruct (map_find sk (m_byRefs b)) eqn:Ef; [reflexivity|].
    rewrite map_find_None in Ef; destruct (Ef _ Hin).
  - intros b sk fl b' Hasc Hset.
    apply setParamByRef_Done_inv in Hset as [-> _]; simpl.
    pose proof Hasc as Hasc'; apply (map_insert_keysAscend sk fl) in Hasc'.
    split; [exact Hasc' | apply keysAscend_functional; exact Hasc'].
  - intros Hwf _; destruct (createRegion_debug_total Hwf) as [r [Hr _]].
    exists r; destruct debug; [exact Hr | apply createRegion_debug_release; exact Hr].
Qed.

Lemma byRef_flags_recorded_witness :
  createRegion true byValueTracelet = Done byValueRegion
  /\ In (sampleKey 10, Yes) (allByRefs (blocks byValueRegion))
  /\ In (sampleKey 31, No) (allByRefs (blocks byValueRegion))
  /\ (forall k fl, In (k, fl) (allByRefs (blocks byValueRegion)) ->
        (k, fl) = (sampleKey 10, Yes) \/ (k, fl) = (sampleKey 31, No))
  /\ setParamByRef true
       {| m_func := sampleFunc; m_start := 31; m_length := 2;
          m_typePreds := []; m_byRefs := [(sampleKey 31, Yes)];
          m_refPreds := [] |} (sampleKey 31) No
     = Abort
  /\ keysAscend [(sampleKey 31, Yes)]
  /\ (exists r, createRegion true byValueTracelet = Done r)
  /\ (exists r, createRegion false byValueTracelet = Done r).
Proof.
  assert (E : createRegion true byValueTracelet = Done byValueRegion) by reflexivity.
  destruct (byRef_flags_recorded true byValueTracelet)
    as (Hrec & Hdup & Hasc & Hrun).
  destruct (Hrec byValueRegion E) as (first & Hh & Hs & Hc & _).
  injection Hh as <-.
  split; [exact E|].
  split.
  { destruct (Hc (sampleKey 10) (sampleInstr 10 FPassC false true 0))
      as (fl & Hin & Hfl & _);
      [left; reflexivity | reflexivity | reflexivity |].
    rewrite (Hfl eq_refl) in Hin; exact Hin. }
  split.
  { destruct (Hc (sampleKey 31) (sampleInstr 31 FPassC false false 0))
      as (fl & Hin & Hfl & _);
      [right; right; left; reflexivity | reflexivity | reflexivity |].
    rewrite (Hfl eq_refl) in Hin; exact Hin. }
  split.
  { intros k fl Hin.
    destruct (Hs k fl Hin) as (ni & Hv & Hn & Hp & ->).
    destruct Hv as [Hv | [Hv | [Hv | [Hv | []]]]]; injection Hv as <- <-;
      try discriminate Hp; [left | right]; reflexivity. }
  split; [apply (Hdup _ (sampleKey 31) Yes No); left; reflexivity|].
  split.
  { apply (Hasc (newBlock sampleFunc 31 2) (sampleKey 31) Yes
                {| m_func := sampleFunc; m_start := 31; m_length := 2;
                   m_typePreds := []; m_byRefs := [(sampleKey 31, Yes)];
                   m_refPreds := [] |}); [constructor | reflexivity]. }
  split; [exact (Hrun byValueTracelet_wellFormed byValueTracelet_offsetsFit)|].
  exact (proj2 (proj2 (proj2 (byRef_flags_recorded false byValueTracelet)))
               byValueTracelet_wellFormed byValueTracelet_offsetsFit).
Defined.

(** ** C9. Blocks of length zero *)

(** C9, as the code has it: on a block whose length is zero the checker
    returns at once, in every build, whatever the mappings hold; no
    position is in the range of such a block, and yet a reffiness predicate
    at any position, a type prediction of the value-or-class domain at any
    position and for any local, and a first by-reference flag at any
    position are accepted.  The two assertions made before the checker is
    called hold for such a block as for any other: in a debug build a type
    prediction outside the value-or-class domain aborts, and so does a flag
    at a position that holds one. *)
Theorem zero_length_block_unchecked `{BC : Bytecode} `{TS : TypeSystem}
  (debug : bool) (b : Block) :
  Block_length b = 0 ->
  checkInvariants debug b = Done tt
  /\ (forall sk, inRange b sk = false)
  /\ (forall sk pred,
        subtypeOfGenCls (type pred) = true ->
        exists b', addPredicted debug b sk pred = Done b'
                   /\ m_typePreds b' = multimap_insert sk pred (m_typePreds b)
                   /\ Block_length b' = 0)
  /\ (forall sk byRef,
        map_find sk (m_byRefs b) = None ->
        exists b', setParamByRef debug b sk byRef = Done b'
                   /\ m_byRefs b' = map_insert sk byRef (m_byRefs b)
                   /\ Block_length b' = 0)
  /\ (forall sk rpred,
        exists b', addReffinessPred debug b sk rpred = Done b'
                   /\ m_refPreds b' = multimap_insert sk rpred (m_refPreds b)
                   /\ Block_length b' = 0)
  /\ (forall sk pred,
        subtypeOfGenCls (type pred) = false -> addPredicted true b sk pred = Abort)
  /\ (forall sk byRef old,
        map_find sk (m_byRefs b) = Some old -> setParamByRef true b sk byRef = Abort).
Proof.
  intros Hlen.
  split; [apply checkInvariants_empty; exact Hlen|].
  split; [intros sk; unfold inRange, blockKeys; rewrite Hlen; reflexivity|].
  split; [|split; [|split; [|split]]].
  - intros sk pred Hty; unfold addPredicted, assert_; rewrite Hty.
    rewrite checkInvariants_empty by exact Hlen.
    destruct debug; simpl; eexists; repeat split; exact Hlen.
  - intros sk byRef Hf; unfold setParamByRef, assert_; rewrite Hf.
    rewrite checkInvariants_empty by exact Hlen.
    destruct debug; simpl; eexists; repeat split; exact Hlen.
  - intros sk rpred; unfold addReffinessPred.
    rewrite checkInvariants_empty by exact Hlen.
    simpl; eexists; repeat split; exact Hlen.
  - intros sk pred Hty; unfold addPredicted, assert_; rewrite Hty; reflexivity.
  - intros sk byRef old Hf; unfold setParamByRef, assert_; rewrite Hf; reflexivity.
Qed.

Lemma zero_length_block_unchecked_witness :
  checkInvariants true emptyBlock = Done tt
  /\ inRange emptyBlock farKey = false
  /\ (exists b', addPredicted true emptyBlock farKey (samplePred (Local 5) TInt) = Done b'
                 /\ m_typePreds b' = [(farKey, samplePred (Local 5) TInt)]
                 /\ Block_length b' = 0)
  /\ (exists b', setParamByRef true emptyBlock farKey Yes = Done b'
                 /\ m_byRefs b' = [(farKey, Yes)]
                 /\ Block_length b' = 0)
  /\ (exists b', addReffinessPred true emptyBlock farKey sampleRefPred = Done b'
                 /\ m_refPreds b' = [(farKey, sampleRefPred)]
                 /\ Block_length b' = 0)
  /\ addPredicted true emptyBlock farKey (samplePred (Stack 0) TStkPtr) = Abort
  /\ setParamByRef true flaggedEmptyBlock farKey No = Abort.
Proof.
  destruct (zero_length_block_unchecked true emptyBlock eq_refl)
    as (Hc & Hr & Ht & Hb & Hp & Hty & _).
  destruct (zero_length_block_unchecked true flaggedEmptyBlock eq_refl)
    as (_ & _ & _ & _ & _ & _ & Hfl).
  split; [exact Hc|].
  split; [exact (Hr farKey)|].
  split; [exact (Ht farKey (samplePred (Local 5) TInt) eq_refl)|].
  split; [exact (Hb farKey Yes eq_refl)|].
  split; [exact (Hp farKey sampleRefPred)|].
  split; [exact (Hty farKey (samplePred (Stack 0) TStkPtr) eq_refl)|].
  exact (Hfl farKey No Yes eq_refl).
Defined.

(** C9 as stated fails: not any metadata is accepted by a block of length
    zero.  In a debug build such a block rejects a type prediction whose
    type is outside the value-or-class domain, and a second flag at a
    position, by the assertions [addPredicted] and [setParamByRef] make
    before they call the checker. *)
Lemma zero_length_block_still_asserts :
  Block_length emptyBlock = 0
  /\ addPredicted true emptyBlock farKey (samplePred (Stack 0) TStkPtr) = Abort
  /\ setParamByRef true emptyBlock farKey Yes = Done flaggedEmptyBlock
  /\ Block_length flaggedEmptyBlock = 0
  /\ setParamByRef true flaggedEmptyBlock farKey No = Abort.
Proof. repeat split. Qed.

(** ** C10. The rendering of the by-reference flag *)

(** C10: [show] renders [ParamByRef::Yes] as "by value" and
    [ParamByRef::No] as "by reference"; an argument the tracer prepared as
    by-reference, which the builder records as [Yes], is thus rendered
    "by value". *)
Theorem show_ParamByRef_inverted `{BC : Bytecode} (ni : Transl.NormalizedInstruction) :
  show_ParamByRef Yes = "by value"%string
  /\ show_ParamByRef No = "by reference"%string
  /\ show_ParamByRef (byRefOf ni)
     = (if Transl.preppedByRef ni then "by value" else "by reference")%string.
Proof.
  repeat split.
  unfold byRefOf; destruct (Transl.preppedByRef ni); reflexivity.
Qed.

(** * Further properties of the code *)

(** ** The checker, instruction by instruction *)

Section CheckerExact.
Context `{BC : Bytecode} `{TS : TypeSystem}.

Lemma for_each_forallb (A : Type) (f : A -> Outcome Datatypes.unit) (p : A -> bool)
  (l : list A) :
  (forall a, f a = if p a then Done tt else Abort) ->
  for_each f l = if forallb p l then Done tt else Abort.
Proof.
  intros Hf; induction l as [|a l IH]; simpl; [reflexivity|].
  rewrite Hf; destruct (p a); simpl; [exact IH | reflexivity].
Qed.

Lemma midBlockOk_checks (o : Op) :
  ((if instrFlagsTF o then Abort else Done tt) ;;;
   (if instrIsNonCallControlFlow o then Abort else Done tt))
  = if midBlockOk o then Done tt else Abort.
Proof.
  unfold midBlockOk; destruct (instrFlagsTF o), (instrIsNonCallControlFlow o);
    reflexivity.
Qed.

(** The loop of the checker over a block whose instructions step forward:
    it inspects the instruction at each position but the last two, and
    collects the positions. *)
Lemma keysLoop_exact (b : Block) (n : nat) :
  forall m,
    (1 <= m)%nat ->
    Z.of_nat (m + n) = Block_length b ->
    stepsForward (Block_unit b)
                 (keysFrom (Block_unit b) (Block_start b) (m + n - 1)) ->
    keysLoop b n (Z.of_nat m) (keysFrom (Block_unit b) (Block_start b) m)
    = if forallb (fun sk => midBlockOk (unit_at (Block_unit b) (sk_offset sk)))
                 (keysFrom (Block_unit b)
                           (nthKey (Block_unit b) (Block_start b) (m - 1)) (pred n))
      then Done (keysFrom (Block_unit b) (Block_start b) (m + n))
      else Abort.
Proof.
  induction n as [|n IH]; intros m Hm Hlen Hpos.
  - rewrite Nat.add_0_r; reflexivity.
  - destruct m as [|m]; [lia|].
    assert (Hlast : lastKey (keysFrom (Block_unit b) (Block_start b) (S m))
                    = Done (nthKey (Block_unit b) (Block_start b) m))
      by (rewrite keysFrom_snoc; apply lastKey_snoc).
    assert (Hins : set_insert (advanced (nthKey (Block_unit b) (Block_start b) m)
                                        (Block_unit b))
                              (keysFrom (Block_unit b) (Block_start b) (S m))
                   = keysFrom (Block_unit b) (Block_start b) (S (S m))).
    { rewrite <- nthKey_S, set_insert_above; [symmetry; apply keysFrom_snoc|].
      apply keysFrom_below.
      eapply keysFrom_prefix; [|exact Hpos]; lia. }
    replace (S m - 1)%nat with m by lia.
    cbn [keysLoop pred]; rewrite Hlast; cbn [bind]; rewrite Hins.
    replace (Z.of_nat (S m) + 1) with (Z.of_nat (S (S m))) by lia.
    replace (S m + S n)%nat with (S (S m) + n)%nat by lia.
    destruct n as [|n].
    + replace (Z.of_nat (S m) =? Block_length b - 1) with true
        by (symmetry; apply Z.eqb_eq; lia).
      cbn [negb bind keysLoop keysFrom forallb]; rewrite Nat.add_0_r; reflexivity.
    + replace (Z.of_nat (S m) =? Block_length b - 1) with false
        by (symmetry; apply Z.eqb_neq; lia).
      cbn [negb]; rewrite midBlockOk_checks.
      cbn [keysFrom forallb].
      destruct (midBlockOk (unit_at (Block_unit b)
                  (sk_offset (nthKey (Block_unit b) (Block_start b) m)))).
      * cbn [bind andb]; rewrite IH; [|lia|lia|].
        -- replace (S (S m) - 1)%nat with (S m) by lia.
           rewrite nthKey_S; reflexivity.
        -- replace (S (S m) + S n - 1)%nat with (S m + S (S n) - 1)%nat by lia.
           exact Hpos.
      * reflexivity.
Qed.

Lemma set_count_inRange (b : Block) (sk : SrcKey) :
  1 <= Block_length b ->
  set_count sk (keysFrom (Block_unit b) (Block_start b)
                         (1 + Z.to_nat (Block_length b - 1)))
  = inRange b sk.
Proof.
  intros Hlen; unfold inRange, blockKeys.
  replace (1 + Z.to_nat (Block_length b - 1))%nat with (Z.to_nat (Block_length b))
    by lia.
  reflexivity.
Qed.

(** The outcome of the check of a debug build, on a block of at least one
    instruction whose instructions, the last one aside, have a positive
    length. *)
Lemma checkInvariants_exact (b : Block) :
  1 <= Block_length b ->
  stepsForward (Block_unit b) (removelast (blockKeys b)) ->
  checkInvariants true b
  = if checkedMidBlock b && metadataOk b then Done tt else Abort.
Proof.
  intros Hlen Hpos.
  unfold checkInvariants.
  replace (Block_length b =? 0) with false by (symmetry; apply Z.eqb_neq; lia).
  cbn [negb orb].
  change (set_insert (Block_start b) [])
    with (keysFrom (Block_unit b) (Block_start b) 1).
  assert (Hloop := @keysLoop_exact b (Z.to_nat (Block_length b - 1)) 1%nat).
  change (Z.of_nat 1) with 1 in Hloop.
  rewrite Hloop; clear Hloop.
  - cbn [Nat.sub nthKey].
    replace (pred (Z.to_nat (Block_length b - 1))) with (Z.to_nat (Block_length b - 2))
      by lia.
    fold (checkedKeys b); fold (checkedMidBlock b).
    destruct (checkedMidBlock b); [|reflexivity].
    cbn [bind andb]; rewrite keysFrom_length.
    replace (Z.of_nat (1 + Z.to_nat (Block_length b - 1)) =? Block_length b) with true
      by (symmetry; apply Z.eqb_eq; lia).
    cbn [bind].
    rewrite (for_each_forallb _ (typePredOk b)).
    + rewrite (for_each_forallb _ (fun p : SrcKey * ParamByRef => inRange b (fst p))).
      * rewrite (for_each_forallb _ (fun p : SrcKey * ReffinessPred => inRange b (fst p))).
        -- unfold metadataOk.
           destruct (forallb (typePredOk b) (m_typePreds b)); [|reflexivity].
           cbn [bind andb].
           destruct (forallb _ (m_byRefs b)); reflexivity.
        -- intros [k v]; unfold rangeCheck; cbn [fst].
           rewrite set_count_inRange by exact Hlen; reflexivity.
      * intros [k v]; unfold rangeCheck; cbn [fst].
        rewrite set_count_inRange by exact Hlen; reflexivity.
    + intros [k v]; unfold rangeCheck, typePredOk; cbn [fst snd].
      rewrite set_count_inRange by exact Hlen.
      destruct (inRange b k); [|reflexivity].
      cbn [bind andb]; destruct (location v) as [locId|o]; [|reflexivity].
      destruct (locId <? func_numLocals (m_func b)); reflexivity.
  - lia.
  - lia.
  - unfold blockKeys in Hpos.
    replace (Z.to_nat (Block_length b)) with (S (Z.to_nat (Block_length b - 1)))
      in Hpos by lia.
    rewrite keysFrom_removelast in Hpos.
    replace (1 + Z.to_nat (Block_length b - 1) - 1)%nat
      with (Z.to_nat (Block_length b - 1)) by lia.
    exact Hpos.
Qed.

End CheckerExact.

Section CheckerScope.
Context `{BC : Bytecode} `{TS : TypeSystem}.

Lemma keysFrom_instrLen_ext (u1 u2 : Unit) :
  (forall o, unit_instrLen u1 o = unit_instrLen u2 o) ->
  forall n sk, keysFrom u1 sk n = keysFrom u2 sk n.
Proof.
  intros Hl; induction n as [|n IH]; intros sk; simpl; [reflexivity|].
  unfold advanced; rewrite Hl, IH; reflexivity.
Qed.

Lemma keysFrom_le (u : Unit) (n m : nat) :
  (n <= m)%nat -> forall sk x, In x (keysFrom u sk n) -> In x (keysFrom u sk m).
Proof.
  induction 1 as [|m _ IH]; intros sk x Hx; [exact Hx|].
  apply keysFrom_mono, IH, Hx.
Qed.

(** The loop of the checker reads the opcode of an instruction only at the
    positions of [checkedKeys]. *)
Lemma keysLoop_opcodes_ext (b1 b2 : Block) (n : nat) :
  Block_length b1 = Block_length b2 ->
  (forall o, unit_instrLen (Block_unit b1) o = unit_instrLen (Block_unit b2) o) ->
  (forall k, In k (checkedKeys b1) ->
     unit_at (Block_unit b1) (sk_offset k) = unit_at (Block_unit b2) (sk_offset k)) ->
  forall m s,
    (1 <= m)%nat -> Z.of_nat (m + n) = Block_length b1 ->
    (forall x, In x s -> In x (keysFrom (Block_unit b1) (Block_start b1) m)) ->
    keysLoop b1 n (Z.of_nat m) s = keysLoop b2 n (Z.of_nat m) s.
Proof.
  intros Hlen Hil Hat; induction n as [|n IH]; intros m s Hm Hmn Hs; [reflexivity|].
  cbn [keysLoop]; rewrite <- Hlen.
  destruct (lastKey s) as [k| | |e] eqn:Hk;
    try (destruct (negb (Z.of_nat m =? Block_length b1 - 1)); reflexivity).
  assert (Hin : In k (keysFrom (Block_unit b1) (Block_start b1) m))
    by (apply Hs, lastKey_In, Hk).
  assert (Hchk : (if negb (Z.of_nat m =? Block_length b1 - 1)
                  then (k0 <- Done k ;;
                        (if instrFlagsTF (unit_at (Block_unit b1) (sk_offset k0))
                         then Abort else Done tt) ;;;
                        (if instrIsNonCallControlFlow
                              (unit_at (Block_unit b1) (sk_offset k0))
                         then Abort else Done tt))
                  else Done tt)
                 = (if negb (Z.of_nat m =? Block_length b1 - 1)
                    then (k0 <- Done k ;;
                          (if instrFlagsTF (unit_at (Block_unit b2) (sk_offset k0))
                           then Abort else Done tt) ;;;
                          (if instrIsNonCallControlFlow
                                (unit_at (Block_unit b2) (sk_offset k0))
                           then Abort else Done tt))
                    else Done tt)).
  { destruct (Z.of_nat m =? Block_length b1 - 1) eqn:Em; [reflexivity|].
    apply Z.eqb_neq in Em; cbn [negb bind].
    rewrite (Hat k); [reflexivity|].
    unfold checkedKeys; eapply keysFrom_le; [|exact Hin]; lia. }
  rewrite Hchk; clear Hchk.
  match goal with |- bind ?c _ = bind ?c _ => destruct c; try reflexivity end.
  cbn [bind].
  replace (advanced k (Block_unit b2)) with (advanced k (Block_unit b1))
    by (unfold advanced; rewrite Hil; reflexivity).
  replace (Z.of_nat m + 1) with (Z.of_nat (S m)) by lia.
  apply IH; [lia | lia |].
  intros x Hx; apply set_insert_In_inv in Hx as [-> | Hx].
  - apply keysFrom_step; exact Hin.
  - apply keysFrom_mono, Hs, Hx.
Qed.

(** Two blocks that differ at most in opcodes the loop never reads have the
    same outcome of the check. *)
Lemma checkInvariants_opcodes_ext (debug : bool) (b1 b2 : Block) :
  sameButOpcodes b1 b2 ->
  (forall k, In k (checkedKeys b1) ->
     unit_at (Block_unit b1) (sk_offset k) = unit_at (Block_unit b2) (sk_offset k)) ->
  checkInvariants debug b1 = checkInvariants debug b2.
Proof.
  intros (Hid & Hnl & Hil & Hst & Hlen & Htp & Hbr & Hrp) Hat.
  unfold checkInvariants.
  assert (Hstart : Block_start b1 = Block_start b2)
    by (unfold Block_start; rewrite Hid, Hst; reflexivity).
  change (Block_length b1) with (m_length b1).
  change (Block_length b2) with (m_length b2).
  rewrite <- Hlen, <- Hstart, <- Hnl, <- Htp, <- Hbr, <- Hrp.
  destruct (negb debug || (m_length b1 =? 0)) eqn:E; [reflexivity|].
  apply orb_false_iff in E as [_ E]; apply Z.eqb_neq in E.
  destruct (Z_lt_le_dec (m_length b1) 1) as [Hneg | Hpos].
  - replace (Z.to_nat (m_length b1 - 1)) with O by lia; reflexivity.
  - assert (Hloop := @keysLoop_opcodes_ext b1 b2 (Z.to_nat (m_length b1 - 1))
                       Hlen Hil Hat 1%nat (set_insert (Block_start b1) [])).
    change (Z.of_nat 1) with 1 in Hloop.
    rewrite Hloop; [reflexivity | lia | unfold Block_length; lia |].
    intros x Hx; exact Hx.
Qed.

(** ** The positions of a checked block are distinct *)

Lemma set_insert_Sorted (k : SrcKey) (s : list SrcKey) :
  Sorted (fun a b => SrcKey_ltb a b = true) s ->
  Sorted (fun a b => SrcKey_ltb a b = true) (set_insert k s).
Proof.
  induction s as [|k' s IH]; intros Hs; simpl; [repeat constructor|].
  destruct (SrcKey_ltb k k') eqn:Elt.
  - constructor; [exact Hs | constructor; exact Elt].
  - destruct (SrcKey_eqb k k') eqn:Eeq; [exact Hs|].
    apply Sorted_inv in Hs as [Hs Hhd].
    constructor; [apply IH; exact Hs|].
    destruct s as [|k'' s]; simpl.
    + constructor; apply SrcKey_ltb_total; assumption.
    + apply HdRel_inv in Hhd.
      destruct (SrcKey_ltb k k''); [constructor; apply SrcKey_ltb_total; assumption|].
      destruct (SrcKey_eqb k k''); constructor; exact Hhd.
Qed.

Lemma Sorted_NoDup (s : list SrcKey) :
  Sorted (fun a b => SrcKey_ltb a b = true) s -> NoDup s.
Proof.
  intros Hs; apply Sorted_StronglySorted in Hs;
    [|intros a b c; apply SrcKey_ltb_trans].
  induction Hs as [|a l Hl IH Hall]; constructor; [|exact IH].
  intros Hin; rewrite Forall_forall in Hall.
  specialize (Hall _ Hin); rewrite SrcKey_ltb_irrefl in Hall; discriminate.
Qed.

Lemma keysLoop_Sorted (b : Block) (n : nat) :
  forall i s s',
    keysLoop b n i s = Done s' ->
    Sorted (fun a b => SrcKey_ltb a b = true) s ->
    Sorted (fun a b => SrcKey_ltb a b = true) s'.
Proof.
  induction n as [|n IH]; intros i s s' E Hs.
  - simpl in E; injection E as <-; exact Hs.
  - simpl in E.
    apply bind_Done_inv in E as [[] [_ E]].
    apply bind_Done_inv in E as [k [_ E]].
    apply (IH _ _ _ E), set_insert_Sorted, Hs.
Qed.

(** A block that passes the check of a debug build and is not empty has
    pairwise distinct instruction positions. *)
Lemma checkInvariants_NoDup (b : Block) :
  checkInvariants true b = Done tt -> Block_length b <> 0 -> NoDup (blockKeys b).
Proof.
  intros E Hlen.
  pose proof (checkInvariants_Done_inv b E Hlen) as [Hpos _].
  unfold checkInvariants in E.
  apply Z.eqb_neq in Hlen; rewrite Hlen in E; simpl in E.
  apply bind_Done_inv in E as [keys [Hkeys E]].
  apply bind_Done_inv in E as [[] [Hsize _]].
  destruct (Z.of_nat (List.length keys) =? Block_length b) eqn:Es; [|discriminate].
  apply Z.eqb_eq in Es.
  apply NoDup_incl_NoDup with (l := keys).
  - apply Sorted_NoDup.
    apply (keysLoop_Sorted _ _ _ Hkeys); repeat constructor.
  - unfold blockKeys; rewrite keysFrom_length; lia.
  - intros x Hx; unfold blockKeys.
    replace (Z.to_nat (Block_length b)) with (Z.to_nat (Block_length b - 1) + 1)%nat
      by lia.
    apply (keysLoop_subset b (Block_start b) _ _ _ 1%nat Hkeys); [|exact Hx].
    simpl; intros y [<- | []]; auto.
Qed.

Lemma checkInvariants_negative (b : Block) :
  Block_length b < 0 -> checkInvariants true b = Abort.
Proof.
  intros Hneg.
  destruct (checkInvariants_returnsOrAborts true b) as [E | [[] E]]; [exact E|].
  apply checkInvariants_Done_inv in E as [Hpos _]; lia.
Qed.

End CheckerScope.

(** ** Flags: insertion and lookup *)

Section FlagLookup.
Context `{BC : Bytecode} `{TS : TypeSystem}.

Lemma keysAscend_tail (V : Type) (p : SrcKey * V) (m : list (SrcKey * V)) :
  keysAscend (p :: m) ->
  keysAscend m /\ forall k v, In (k, v) m -> SrcKey_ltb (fst p) k = true.
Proof.
  unfold keysAscend; simpl; intros Hs.
  apply Sorted_StronglySorted in Hs; [|intros a b c; apply SrcKey_ltb_trans].
  apply StronglySorted_inv in Hs as [Hs Hall].
  split; [apply StronglySorted_Sorted; exact Hs|].
  intros k v Hin; rewrite Forall_forall in Hall.
  apply Hall, (in_map fst _ _ Hin).
Qed.

(** Inserting at a key the map holds leaves the map as it is. *)
Lemma map_insert_present (V : Type) (k : SrcKey) (v v0 : V) (m : list (SrcKey * V)) :
  keysAscend m -> In (k, v0) m -> map_insert k v m = m.
Proof.
  induction m as [|[k' v'] m IH]; intros Hasc Hin; [contradiction|].
  apply keysAscend_tail in Hasc as [Hasc Hlt]; simpl in Hlt.
  simpl; destruct Hin as [E | Hin].
  - injection E as -> ->.
    rewrite SrcKey_ltb_irrefl, SrcKey_eqb_refl; reflexivity.
  - specialize (Hlt _ _ Hin).
    rewrite (SrcKey_ltb_asym _ _ Hlt), (SrcKey_ltb_neq _ _ Hlt).
    rewrite IH; auto.
Qed.

Lemma map_find_insert_fresh (V : Type) (k : SrcKey) (v : V) (m : list (SrcKey * V)) :
  map_find k m = None -> map_find k (map_insert k v m) = Some v.
Proof.
  induction m as [|[k' v'] m IH]; simpl; intros Hf.
  - rewrite SrcKey_eqb_refl; reflexivity.
  - destruct (SrcKey_eqb k k') eqn:Eeq; [discriminate|].
    destruct (SrcKey_ltb k k'); simpl.
    + rewrite SrcKey_eqb_refl; reflexivity.
    + rewrite Eeq; apply IH; exact Hf.
Qed.

Lemma map_find_insert_other (V : Type) (k k0 : SrcKey) (v : V) (m : list (SrcKey * V)) :
  k0 <> k -> map_find k0 (map_insert k v m) = map_find k0 m.
Proof.
  intros Hne.
  assert (Hkk : SrcKey_eqb k0 k = false).
  { destruct (SrcKey_eqb k0 k) eqn:E; [|reflexivity].
    apply SrcKey_eqb_eq in E; contradiction. }
  induction m as [|[k' v'] m IH]; simpl.
  - rewrite Hkk; reflexivity.
  - destruct (SrcKey_ltb k k'); simpl; [rewrite Hkk; reflexivity|].
    destruct (SrcKey_eqb k k'); simpl; [reflexivity|].
    rewrite IH; reflexivity.
Qed.

Lemma map_find_insert_same (V : Type) (k : SrcKey) (v : V) (m : list (SrcKey * V)) :
  keysAscend m ->
  map_find k (map_insert k v m)
  = Some (match map_find k m with Some v0 => v0 | None => v end).
Proof.
  intros Hasc; destruct (map_find k m) as [v0|] eqn:Ef.
  - assert (Hin : In (k, v0) m) by (apply map_find_Some_In; exact Ef).
    rewrite (@map_insert_present V k v v0 m Hasc Hin); exact Ef.
  - apply map_find_insert_fresh; exact Ef.
Qed.

End FlagLookup.

(** X1.  Looking up a flag after [setParamByRef] has returned: on a block
    whose flags are keyed in ascending order, as those of a [std::map] are,
    the position holds the flag it held before, if any, and the new flag
    otherwise, which is the case in a debug build; the flag of every other
    position and the rest of the block are as before. *)
Theorem setParamByRef_lookup `{BC : Bytecode} `{TS : TypeSystem}
  (debug : bool) (b b' : Block) (sk : SrcKey) (byRef : ParamByRef) :
  keysAscend (m_byRefs b) ->
  setParamByRef debug b sk byRef = Done b' ->
  map_find sk (m_byRefs b')
  = Some (match map_find sk (m_byRefs b) with Some old => old | None => byRef end)
  /\ (debug = true -> map_find sk (m_byRefs b') = Some byRef)
  /\ (forall k, k <> sk -> map_find k (m_byRefs b') = map_find k (m_byRefs b))
  /\ m_func b' = m_func b /\ m_start b' = m_start b /\ m_length b' = m_length b
  /\ m_typePreds b' = m_typePreds b /\ m_refPreds b' = m_refPreds b.
Proof.
  intros Hasc E.
  apply setParamByRef_Done_inv in E as [-> Hfresh]; cbn.
  split; [apply map_find_insert_same; exact Hasc|].
  split.
  { intros Hd; rewrite map_find_insert_same by exact Hasc.
    rewrite (Hfresh Hd); reflexivity. }
  split; [intros k Hk; apply map_find_insert_other; exact Hk|].
  repeat split.
Qed.

Lemma setParamByRef_lookup_witness :
  setParamByRef true (newBlock sampleFunc 31 2) (sampleKey 31) Yes
  = Done {| m_func := sampleFunc; m_start := 31; m_length := 2;
            m_typePreds := []; m_byRefs := [(sampleKey 31, Yes)];
            m_refPreds := [] |}
  /\ map_find (sampleKey 31) [(sampleKey 31, Yes)] = Some Yes
  /\ map_find (sampleKey 32) [(sampleKey 31, Yes)] = None.
Proof.
  assert (E : setParamByRef true (newBlock sampleFunc 31 2) (sampleKey 31) Yes
              = Done {| m_func := sampleFunc; m_start := 31; m_length := 2;
                        m_typePreds := []; m_byRefs := [(sampleKey 31, Yes)];
                        m_refPreds := [] |}) by reflexivity.
  assert (Hasc : keysAscend (m_byRefs (newBlock sampleFunc 31 2))) by constructor.
  destruct (setParamByRef_lookup true (newBlock sampleFunc 31 2) (sampleKey 31) Yes
              Hasc E) as (Hsame & _ & Hother & _).
  split; [exact E|].
  split; [exact Hsame|].
  apply (Hother (sampleKey 32)); discriminate.
Defined.

(** X2.  In a release build a second flag for a position is dropped
    without notice: on a block whose flags are keyed in ascending order and
    hold one for the position, [setParamByRef] returns the block unchanged,
    whatever the new flag is.  (A debug build aborts instead.) *)
Theorem setParamByRef_release_keeps_first `{BC : Bytecode} `{TS : TypeSystem}
  (b : Block) (sk : SrcKey) (old byRef : ParamByRef) :
  keysAscend (m_byRefs b) -> In (sk, old) (m_byRefs b) ->
  setParamByRef false b sk byRef = Done b
  /\ map_find sk (m_byRefs b) = Some old
  /\ setParamByRef true b sk byRef = Abort.
Proof.
  intros Hasc Hin.
  assert (Hf : map_find sk (m_byRefs b) = Some old).
  { destruct (map_find sk (m_byRefs b)) as [v|] eqn:Ef.
    - f_equal; eapply keysAscend_functional;
        [exact Hasc | apply map_find_Some_In; exact Ef | exact Hin].
    - rewrite map_find_None in Ef; destruct (Ef _ Hin). }
  split; [|split; [exact Hf|]].
  - unfold setParamByRef; cbn.
    rewrite (@map_insert_present _ sk byRef old (m_byRefs b) Hasc Hin).
    destruct b; reflexivity.
  - unfold setParamByRef, assert_; rewrite Hf; reflexivity.
Qed.

Lemma setParamByRef_release_keeps_first_witness :
  setParamByRef false
    {| m_func := sampleFunc; m_start := 31; m_length := 2;
       m_typePreds := []; m_byRefs := [(sampleKey 31, Yes)]; m_refPreds := [] |}
    (sampleKey 31) No
  = Done {| m_func := sampleFunc; m_start := 31; m_length := 2;
            m_typePreds := []; m_byRefs := [(sampleKey 31, Yes)]; m_refPreds := [] |}.
Proof.
  refine (proj1 (setParamByRef_release_keeps_first
                   {| m_func := sampleFunc; m_start := 31; m_length := 2;
                      m_typePreds := []; m_byRefs := [(sampleKey 31, Yes)];
                      m_refPreds := [] |}
                   (sampleKey 31) Yes No _ _)).
  - repeat constructor.
  - left; reflexivity.
Defined.

(** ** The checker, decided *)

(** X3.  The check of a debug build, decided: on a block of at least one
    instruction whose instructions, the last one aside, have a positive
    length, [checkInvariants] returns exactly when the instructions at the
    first [length() - 2] positions fall through and are no control flow,
    every key of the three mappings is a position of the block and every
    predicted local is one of the function's; it aborts otherwise.  The
    last instruction and the one before it are not looked at. *)
Theorem checkInvariants_decided `{BC : Bytecode} `{TS : TypeSystem} (b : Block) :
  1 <= Block_length b ->
  stepsForward (Block_unit b) (removelast (blockKeys b)) ->
  checkInvariants true b
  = if checkedMidBlock b && metadataOk b then Done tt else Abort.
Proof. apply checkInvariants_exact. Qed.

Lemma checkInvariants_decided_witness :
  checkedKeys jmpInsideBlock = [sampleKey 10]
  /\ blockKeys jmpInsideBlock = [sampleKey 10; sampleKey 11; sampleKey 16]
  /\ singleEntrySingleExit jmpInsideBlock = false
  /\ checkInvariants true jmpInsideBlock = Done tt.
Proof.
  split; [reflexivity|].
  split; [reflexivity|].
  split; [reflexivity|].
  refine (checkInvariants_decided jmpInsideBlock _ _).
  - simpl; lia.
  - unfold stepsForward; simpl; repeat constructor.
Defined.

(** X4.  The checker never reads the opcode of the last two instructions
    of a block: two blocks that differ at most in the opcodes their units
    hold, and not at the positions of the first [length() - 2]
    instructions, have the same outcome of [checkInvariants], in every
    build. *)
Theorem checkInvariants_ignores_last_two `{BC : Bytecode} `{TS : TypeSystem}
  (debug : bool) (b1 b2 : Block) :
  sameButOpcodes b1 b2 ->
  (forall k, In k (checkedKeys b1) ->
     unit_at (Block_unit b1) (sk_offset k) = unit_at (Block_unit b2) (sk_offset k)) ->
  checkInvariants debug b1 = checkInvariants debug b2.
Proof. apply checkInvariants_opcodes_ext. Qed.

Lemma checkInvariants_ignores_last_two_witness :
  unit_at (Block_unit jmpInsideBlock) 11 = Jmp
  /\ unit_at (Block_unit (newBlock straightFunc 10 3)) 11 = Nop
  /\ checkInvariants true jmpInsideBlock
     = checkInvariants true (newBlock straightFunc 10 3).
Proof.
  split; [reflexivity|].
  split; [reflexivity|].
  refine (@checkInvariants_ignores_last_two _ _ true jmpInsideBlock
            (newBlock straightFunc 10 3) _ _).
  - repeat split.
  - intros k [<- | []]; reflexivity.
Defined.

(** X5.  What the size assertion of the checker enforces: a block of
    negative length fails the check of a debug build, and a block that
    passes it and is not empty has pairwise distinct instruction
    positions. *)
Theorem checkInvariants_positions_distinct `{BC : Bytecode} `{TS : TypeSystem}
  (b : Block) :
  (Block_length b < 0 -> checkInvariants true b = Abort)
  /\ (checkInvariants true b = Done tt -> Block_length b <> 0 ->
      0 < Block_length b /\ NoDup (blockKeys b)).
Proof.
  split; [apply checkInvariants_negative|].
  intros E Hlen; split; [|apply checkInvariants_NoDup; assumption].
  apply checkInvariants_Done_inv in E as [Hpos _]; assumption.
Qed.

Lemma checkInvariants_positions_distinct_witness :
  checkInvariants true (newBlock sampleFunc 10 (-1)) = Abort
  /\ NoDup (blockKeys twoInstrBlock).
Proof.
  split.
  - apply (proj1 (checkInvariants_positions_distinct (newBlock sampleFunc 10 (-1)))).
    simpl; lia.
  - apply (proj2 (checkInvariants_positions_distinct twoInstrBlock));
      [reflexivity | discriminate].
Defined.

(** ** The builder: the blocks it makes *)

Section BuilderBlocks.
Context `{BC : Bytecode} `{TS : TypeSystem}.

Lemma splitAtJmps_segments (nis : list Transl.NormalizedInstruction) :
  forall seg,
    nis <> [] \/ seg <> [] ->
    Forall (fun s => s <> []) (splitAtJmps nis seg).
Proof.
  induction nis as [|ni next IH]; intros seg Hne; simpl.
  - constructor; [|constructor].
    destruct Hne as [H | H]; [contradiction|].
    intros E; apply H; destruct seg; [reflexivity|].
    simpl in E; destruct (rev seg); discriminate.
  - destruct (isJmp ni && hasNext next) eqn:Ej.
    + constructor.
      * simpl; destruct (rev seg); discriminate.
      * apply IH; left.
        apply andb_true_iff in Ej as [_ Hn].
        destruct next; [discriminate | discriminate].
    + apply IH; right; discriminate.
Qed.

Lemma segments_total (A : Type) (segs : list (list A)) :
  fold_right Z.add 0 (map (fun s => Z.of_nat (List.length s)) segs)
  = Z.of_nat (List.length (List.concat segs)).
Proof.
  induction segs as [|s segs IH]; simpl; [reflexivity|].
  rewrite IH, length_app; lia.
Qed.

End BuilderBlocks.

(** X6.  The blocks of a region [createRegion] returns: there is at least
    one, each is a block of the tracelet's function and holds at least one
    instruction, and their lengths add up to the number of instructions of
    the trace. *)
Theorem createRegion_blocks_cover_trace `{BC : Bytecode} `{TS : TypeSystem}
  (debug : bool) (tlet : Transl.Tracelet) (r : RegionDesc) :
  createRegion debug tlet = Done r ->
  blocks r <> []
  /\ Forall (fun b => m_func b = Transl.m_func tlet) (blocks r)
  /\ Forall (fun b => 1 <= m_length b) (blocks r)
  /\ fold_right Z.add 0 (map m_length (blocks r))
     = Z.of_nat (List.length (Transl.m_instrStream tlet)).
Proof.
  intros E.
  apply createRegion_structure in E
    as (first & next & front0 & front & rest & Hs & Hw & Hb & Hsh & _).
  destruct Hsh as (Hf & _ & Hl & _).
  pose proof Hw as Hfuncs; apply walk_funcs in Hfuncs.
  pose proof Hw as Hlens; apply (walk_lengths) with (seg := []) in Hlens;
    [|reflexivity].
  cbn [map app] in Hfuncs, Hlens.
  assert (Hlens' : map m_length (blocks r)
                   = map (fun s => Z.of_nat (List.length s))
                         (splitAtJmps (first :: next) [])).
  { rewrite Hb; cbn [map]; rewrite Hl; exact Hlens. }
  rewrite Hb; split; [discriminate|].
  split.
  { injection Hfuncs as H0 Hrest.
    constructor; [rewrite Hf; exact H0|].
    apply (map_const_Forall _ _ _ _ Hrest). }
  rewrite <- Hb; split.
  - assert (Hall : Forall (fun z => 1 <= z) (map m_length (blocks r))).
    { rewrite Hlens'; rewrite Forall_map.
      eapply Forall_impl; [|apply splitAtJmps_segments; left; discriminate].
      intros s Hne; destruct s; [contradiction | simpl; lia]. }
    rewrite Forall_map in Hall; exact Hall.
  - rewrite Hlens', segments_total, splitAtJmps_concat, Hs; reflexivity.
Qed.

Lemma createRegion_blocks_cover_trace_witness :
  blocks sampleRegion <> []
  /\ Forall (fun b => m_func b = sampleFunc) (blocks sampleRegion)
  /\ Forall (fun b => 1 <= m_length b) (blocks sampleRegion)
  /\ fold_right Z.add 0 (map m_length (blocks sampleRegion)) = 4.
Proof.
  exact (@createRegion_blocks_cover_trace _ _ true sampleTracelet sampleRegion
           eq_refl).
Defined.

(** X7.  The reffiness dependencies: when [createRegion] returns a region,
    the reffiness predicates of its first block are, in the order of
    [m_arMap], one per entry, each keyed by the tracelet's starting
    position and holding the entry's mask and values and, as its offset,
    the entry's key; no entry is left out, and the other blocks have no
    reffiness predicate. *)
Theorem createRegion_reffiness_lifted `{BC : Bytecode} `{TS : TypeSystem}
  (debug : bool) (tlet : Transl.Tracelet) (r : RegionDesc) :
  createRegion debug tlet = Done r ->
  exists front rest,
    blocks r = front :: rest
    /\ m_refPreds front
       = map (fun dep : Z * Transl.RefDepsRecord =>
                (Transl.m_sk tlet,
                 {| mask := Transl.m_mask (snd dep);
                    vals := Transl.m_vals (snd dep);
                    arSpOffset := fst dep |}))
             (Transl.m_arMap tlet)
    /\ Forall (fun b => m_refPreds b = []) rest.
Proof.
  intros E.
  apply createRegion_structure in E
    as (first & next & front0 & front & rest & _ & _ & Hb & _ & _ & Hr & _ & Hrest).
  exists front, rest; auto.
Qed.

Lemma createRegion_reffiness_lifted_witness :
  exists front rest,
    blocks sampleRegion = front :: rest
    /\ m_refPreds front
       = [ (sampleKey 10,
            {| mask := [true; false]; vals := [true; false]; arSpOffset := 3 |}) ]
    /\ Forall (fun b => m_refPreds b = []) rest.
Proof.
  exact (@createRegion_reffiness_lifted _ _ true sampleTracelet sampleRegion eq_refl).
Defined.

(** ** The builder in a debug build: what a returned region has passed *)

Section BuilderChecked.
Context `{BC : Bytecode} `{TS : TypeSystem}.

(** One iteration of the loop in a debug build: the two facts
    [walk_cons_inv] leaves out. *)
Lemma walk_cons_debug (f : Func) (u : Unit) (ni : Transl.NormalizedInstruction)
  (next : list Transl.NormalizedInstruction) (sk : SrcKey)
  (closed : list Block) (cur : Block) (bs : list Block) :
  walk true f u (ni :: next) sk closed cur = Done bs ->
  unit_addr (Transl.m_unit ni) = unit_addr u
  /\ (isArgPass ni = true -> checkInvariants true (visited ni sk cur) = Done tt).
Proof.
  cbn [walk]; intros E.
  apply bind_Done_inv in E as [[] [_ E]].
  apply bind_Done_inv in E as [[] [Hu E]].
  apply bind_Done_inv in E as [cur1 [Hadd E]].
  apply addInstruction_Done_inv in Hadd; subst cur1.
  apply bind_Done_inv in E as [cur' [Hcur _]].
  split.
  { unfold assert_ in Hu.
    destruct (unit_addr (Transl.m_unit ni) =? unit_addr u) eqn:Eu;
      [apply Z.eqb_eq; exact Eu | discriminate]. }
  intros Harg; unfold isArgPass in Harg; rewrite Harg in Hcur.
  unfold setParamByRef in Hcur.
  apply bind_Done_inv in Hcur as [[] [_ Hcur]].
  apply bind_Done_inv in Hcur as [[] [Hchk _]].
  unfold visited, isArgPass; rewrite Harg; exact Hchk.
Qed.

Lemma visited_flagsInRange (ni : Transl.NormalizedInstruction) (sk : SrcKey)
  (cur : Block) :
  flagsInRange cur ->
  (isArgPass ni = true -> checkInvariants true (visited ni sk cur) = Done tt) ->
  flagsInRange (visited ni sk cur).
Proof.
  intros [Hlen Hfl] Hchk; split; [simpl; lia|].
  destruct (isArgPass ni) eqn:Harg.
  - specialize (Hchk eq_refl).
    apply checkInvariants_Done_inv in Hchk as (_ & _ & H & _);
      [exact H | unfold Block_length; simpl; lia].
  - intros k v Hin; unfold visited in Hin; rewrite Harg in Hin; simpl in Hin.
    rewrite visited_blockKeys by exact Hlen.
    apply in_or_app; left; eapply Hfl; exact Hin.
Qed.

Lemma walk_flagsInRange (f : Func) (u : Unit) :
  forall nis sk closed cur bs,
    walk true f u nis sk closed cur = Done bs ->
    Forall flagsInRange closed -> flagsInRange cur ->
    Forall flagsInRange bs.
Proof.
  induction nis as [|ni next IH]; intros sk closed cur bs Hw Hcl Hcur.
  - simpl in Hw; injection Hw as <-.
    apply Forall_app; split; [exact Hcl | constructor; [exact Hcur | constructor]].
  - pose proof Hw as Hd; apply walk_cons_debug in Hd as [_ Hchk].
    apply walk_cons_inv in Hw as (_ & _ & Hw).
    assert (Hv : flagsInRange (visited ni sk cur))
      by (apply visited_flagsInRange; assumption).
    destruct (isJmp ni && hasNext next).
    + destruct Hw as [_ Hw].
      apply (IH _ _ _ _ Hw).
      * apply Forall_app; split; [exact Hcl | constructor; [exact Hv | constructor]].
      * split; [simpl; lia | intros k v []].
    + apply (IH _ _ _ _ Hw); assumption.
Qed.

Lemma walk_units (f : Func) (u : Unit) :
  forall nis sk closed cur bs,
    walk true f u nis sk closed cur = Done bs ->
    Forall (fun ni => unit_addr (Transl.m_unit ni) = unit_addr u) nis.
Proof.
  induction nis as [|ni next IH]; intros sk closed cur bs Hw; [constructor|].
  pose proof Hw as Hd; apply walk_cons_debug in Hd as [Hu _].
  apply walk_cons_inv in Hw as (_ & _ & Hw).
  constructor; [exact Hu|].
  destruct (isJmp ni && hasNext next); [destruct Hw as [_ Hw]|];
    apply (IH _ _ _ _ Hw).
Qed.

(** A dependency that is lifted in a debug build has passed the assertion
    of [addPredicted] and the check of the block. *)
Lemma addDependency_debug_inv (tlet : Transl.Tracelet) (b b' : Block)
  (dep : Transl.Location * Transl.DynLocation) :
  addDependency true tlet b dep = Done b' ->
  (isLifted dep = false /\ b' = b)
  \/ (isLifted dep = true
      /\ subtypeOfGenCls (fromRuntimeType (Transl.rtt (snd dep))) = true
      /\ checkInvariants true b' = Done tt
      /\ m_func b' = m_func b /\ m_length b' = m_length b
      /\ exists loc, liftedLocation (fst dep) = Some loc
                     /\ In (Transl.m_sk tlet,
                            {| location := loc;
                               type := fromRuntimeType (Transl.rtt (snd dep)) |})
                           (m_typePreds b')).
Proof.
  unfold addDependency, isLifted, liftedLocation.
  destruct (isVagueValue _ || Transl.isThis _) eqn:Eskip.
  - intros E; injection E as <-; left; split; [|reflexivity].
    apply orb_true_iff in Eskip as [-> | ->]; simpl; [reflexivity|].
    apply andb_false_r.
  - apply orb_false_iff in Eskip as [-> ->]; simpl.
    assert (Hadd : forall loc,
               addPredicted true b (Transl.m_sk tlet)
                 {| location := loc;
                    type := fromRuntimeType (Transl.rtt (snd dep)) |} = Done b' ->
               subtypeOfGenCls (fromRuntimeType (Transl.rtt (snd dep))) = true
               /\ checkInvariants true b' = Done tt
               /\ m_func b' = m_func b /\ m_length b' = m_length b
               /\ In (Transl.m_sk tlet,
                      {| location := loc;
                         type := fromRuntimeType (Transl.rtt (snd dep)) |})
                     (m_typePreds b')).
    { intros loc E; unfold addPredicted in E.
      apply bind_Done_inv in E as [[] [Ha E]].
      apply bind_Done_inv in E as [[] [Hc E]].
      injection E as <-.
      split; [apply (assert_Done_inv _ Ha); reflexivity|].
      split; [exact Hc|].
      split; [reflexivity|]. split; [reflexivity|].
      simpl; apply multimap_insert_In. }
    destruct (Transl.space (fst dep)); intros E; try discriminate; right;
      (split; [reflexivity|]);
      apply Hadd in E as (H1 & H2 & H3 & H4 & H5);
      repeat (split; [assumption|]); eexists; (split; [reflexivity | exact H5]).
Qed.

Lemma foldM_addDependency_checked (tlet : Transl.Tracelet) :
  forall deps b b',
    foldM (addDependency true tlet) deps b = Done b' ->
    m_length b <> 0 -> m_func b = Transl.m_func tlet ->
    (b' = b \/ checkInvariants true b' = Done tt)
    /\ m_length b' = m_length b /\ m_func b' = m_func b
    /\ Forall (dependencyChecks tlet) deps.
Proof.
  induction deps as [|dep deps IH]; intros b b' E Hlen Hf.
  - simpl in E; injection E as <-; auto.
  - simpl in E; apply bind_Done_inv in E as [b1 [Hdep E]].
    apply addDependency_debug_inv in Hdep
      as [[Hl ->] | (Hl & Hty & Hchk & Hf1 & Hl1 & loc & Hloc & Hin)].
    + apply IH in E as (Hb & Hl' & Hf' & Hall); [|assumption|assumption].
      repeat (split; [assumption|]).
      constructor; [|exact Hall].
      intros Hl2; rewrite Hl in Hl2; discriminate.
    + apply IH in E as (Hb & Hl' & Hf' & Hall);
        [|rewrite Hl1; exact Hlen | rewrite Hf1; exact Hf].
      split; [right; destruct Hb as [-> | Hb]; assumption|].
      split; [rewrite Hl', Hl1; reflexivity|].
      split; [rewrite Hf', Hf1; reflexivity|].
      constructor; [|exact Hall].
      intros _; split; [exact Hty|].
      apply checkInvariants_Done_inv in Hchk as (_ & Htp & _);
        [|unfold Block_length; rewrite Hl1; exact Hlen].
      apply Htp in Hin as [_ Hloc']; simpl in Hloc'.
      unfold liftedLocation in Hloc.
      destruct (Transl.space (fst dep)); try discriminate; injection Hloc as <-.
      * left; reflexivity.
      * right; split; [reflexivity|].
        rewrite <- Hf, <- Hf1; exact Hloc'.
Qed.

Lemma foldM_addRefDep_checked (tlet : Transl.Tracelet) :
  forall deps b b',
    foldM (addRefDep true tlet) deps b = Done b' ->
    (b' = b \/ checkInvariants true b' = Done tt) /\ m_length b' = m_length b.
Proof.
  induction deps as [|dep deps IH]; intros b b' E.
  - simpl in E; injection E as <-; auto.
  - simpl in E; apply bind_Done_inv in E as [b1 [Hdep E]].
    unfold addRefDep, addReffinessPred in Hdep.
    apply bind_Done_inv in Hdep as [[] [Hchk Hdep]]; injection Hdep as <-.
    apply IH in E as [[-> | E] Hl]; (split; [right; assumption | exact Hl]).
Qed.

Lemma walk_front_length (debug : bool) (f : Func) (u : Unit)
  (first : Transl.NormalizedInstruction) (next : list Transl.NormalizedInstruction)
  (sk : SrcKey) (o : Offset) (front0 : Block) (rest : list Block) :
  walk debug f u (first :: next) sk [] (newBlock f o 0) = Done (front0 :: rest) ->
  1 <= m_length front0.
Proof.
  intros Hw.
  apply (walk_lengths) with (seg := []) in Hw; [|reflexivity].
  cbn [map app] in Hw.
  pose proof (@splitAtJmps_segments _ (first :: next) []) as Hne.
  destruct (splitAtJmps (first :: next) []) as [|s segs]; [discriminate|].
  injection Hw as -> _.
  assert (Hs : s <> []).
  { assert (Hall : Forall (fun s0 : list Transl.NormalizedInstruction => s0 <> [])
                          (s :: segs))
      by (apply Hne; left; discriminate).
    apply Forall_inv in Hall; exact Hall. }
  destruct s; [contradiction | simpl; lia].
Qed.

Lemma metadataOk_intro (b : Block) :
  (forall k v, In (k, v) (m_typePreds b) ->
     In k (blockKeys b)
     /\ match location v with
        | Local locId => locId < func_numLocals (m_func b)
        | Stack _ => True
        end) ->
  (forall k v, In (k, v) (m_byRefs b) -> In k (blockKeys b)) ->
  (forall k v, In (k, v) (m_refPreds b) -> In k (blockKeys b)) ->
  metadataOk b = true.
Proof.
  intros Htp Hbr Hrp; unfold metadataOk.
  rewrite !andb_true_iff, !forallb_forall; repeat split.
  - intros [k v] Hin; unfold typePredOk, inRange; cbn [fst snd].
    destruct (Htp _ _ Hin) as [Hk Hl].
    apply andb_true_iff; split; [apply set_count_In; exact Hk|].
    destruct (location v); [apply Z.ltb_lt; exact Hl | reflexivity].
  - intros [k v] Hin; apply set_count_In; eapply Hbr; exact Hin.
  - intros [k v] Hin; apply set_count_In; eapply Hrp; exact Hin.
Qed.

Lemma metadataOk_checked (b : Block) :
  checkInvariants true b = Done tt -> Block_length b <> 0 -> metadataOk b = true.
Proof.
  intros E Hlen; apply checkInvariants_Done_inv in E as (_ & Htp & Hbr & Hrp);
    [|exact Hlen].
  apply metadataOk_intro; assumption.
Qed.

Lemma metadataOk_flags (b : Block) :
  flagsInRange b -> m_typePreds b = [] -> m_refPreds b = [] -> metadataOk b = true.
Proof.
  intros [_ Hfl] Htp Hrp; apply metadataOk_intro; [| exact Hfl |].
  - intros k v Hin; rewrite Htp in Hin; destruct Hin.
  - intros k v Hin; rewrite Hrp in Hin; destruct Hin.
Qed.

End BuilderChecked.

(** X8.  In a debug build every block of a region [createRegion] returns
    holds its metadata within its range: every key of its type
    predictions, flags and reffiness predicates is an instruction position
    of the block, and every predicted local is one of the function's. *)
Theorem createRegion_debug_metadata_in_range `{BC : Bytecode} `{TS : TypeSystem}
  (tlet : Transl.Tracelet) (r : RegionDesc) :
  createRegion true tlet = Done r ->
  forallb metadataOk (blocks r) = true.
Proof.
  intros E.
  apply createRegion_Done_inv in E
    as (first & next & front0 & front1 & front2 & rest & Hs & Hw & Hd & Hr & Hb).
  assert (Hfl : Forall flagsInRange (front0 :: rest)).
  { eapply walk_flagsInRange; [exact Hw | constructor |].
    split; [simpl; lia | intros k v []]. }
  pose proof Hw as Htp; apply walk_typePreds in Htp.
  pose proof Hw as Hrp; apply walk_refPreds in Hrp.
  pose proof Hw as Hfn; apply walk_funcs in Hfn.
  assert (Hlen : 1 <= m_length front0) by (eapply walk_front_length; exact Hw).
  cbn [map app] in Htp, Hrp, Hfn.
  injection Htp as Htp0 Htps; injection Hrp as Hrp0 Hrps; injection Hfn as Hf0 _.
  apply Forall_cons_iff in Hfl as [Hfl0 Hflr].
  apply foldM_addDependency_checked in Hd as (Hc1 & Hl1 & _ & _);
    [|lia | exact Hf0].
  apply foldM_addRefDep_checked in Hr as (Hc2 & Hl2).
  rewrite Hb; cbn [forallb]; apply andb_true_iff; split.
  - destruct Hc2 as [-> | Hc2];
      [|apply metadataOk_checked; [exact Hc2 | unfold Block_length; lia]].
    destruct Hc1 as [-> | Hc1];
      [|apply metadataOk_checked; [exact Hc1 | unfold Block_length; lia]].
    apply metadataOk_flags; assumption.
  - apply forallb_forall; intros b Hin.
    apply map_const_Forall in Htps, Hrps.
    rewrite Forall_forall in Hflr, Htps, Hrps.
    apply metadataOk_flags; auto.
Qed.

Lemma createRegion_debug_metadata_in_range_witness :
  forallb metadataOk (blocks sampleRegion) = true.
Proof.
  exact (@createRegion_debug_metadata_in_range _ _ sampleTracelet sampleRegion
           eq_refl).
Defined.

(** X9.  What a debug build asks of a tracelet before [createRegion]
    returns a region for it: the tracelet starts at the position its first
    instruction records, every instruction is of the first one's unit, and
    every dependency that is lifted has a type of the value-or-class domain
    and is a stack dependency or a local one whose index is below the local
    count of the function.  On any other tracelet a debug build does not
    return. *)
Theorem createRegion_debug_requires `{BC : Bytecode} `{TS : TypeSystem}
  (tlet : Transl.Tracelet) (r : RegionDesc) :
  createRegion true tlet = Done r ->
  exists first,
    head (Transl.m_instrStream tlet) = Some first
    /\ Transl.m_sk tlet = Transl.source first
    /\ Forall (fun ni => unit_addr (Transl.m_unit ni) = unit_addr (Transl.m_unit first))
              (Transl.m_instrStream tlet)
    /\ Forall (dependencyChecks tlet) (Transl.m_dependencies tlet).
Proof.
  intros E.
  apply createRegion_Done_inv in E
    as (first & next & front0 & front1 & front2 & rest & Hs & Hw & Hd & _ & _).
  exists first; rewrite Hs; split; [reflexivity|].
  pose proof Hw as Hsk; apply walk_cons_inv in Hsk as (Hsk & _).
  split; [apply Hsk; reflexivity|].
  split; [eapply walk_units; exact Hw|].
  pose proof Hw as Hfn; apply walk_funcs in Hfn.
  cbn [map app] in Hfn; injection Hfn as Hf0 _.
  assert (Hlen : 1 <= m_length front0) by (eapply walk_front_length; exact Hw).
  apply foldM_addDependency_checked in Hd as (_ & _ & _ & Hall);
    [exact Hall | lia | exact Hf0].
Qed.

Lemma createRegion_debug_requires_witness :
  exists first,
    head (Transl.m_instrStream sampleTracelet) = Some first
    /\ Transl.m_sk sampleTracelet = Transl.source first
    /\ Forall (fun ni => unit_addr (Transl.m_unit ni) = unit_addr (Transl.m_unit first))
              (Transl.m_instrStream sampleTracelet)
    /\ Forall (dependencyChecks sampleTracelet) (Transl.m_dependencies sampleTracelet).
Proof.
  exact (@createRegion_debug_requires _ _ sampleTracelet sampleRegion eq_refl).
Defined.

(** ** Debug and release builds agree on what they return *)

Section SelectorAgree.
Context `{BC : Bytecode} `{TS : TypeSystem}.
Variables regionMethod regionOneBC : RegionContext -> Outcome RegionDescPtr.

Lemma regionMode_debug_release (s : string) (ev : list Event) (mode : RegionMode.t) :
  regionMode true s = (ev, Done mode) -> regionMode false s = (ev, Done mode).
Proof.
  unfold regionMode.
  repeat match goal with
         | |- context [if (?a =? ?b)%string then _ else _] =>
             destruct (a =? b)%string; [exact (fun E => E)|]
         end.
  simpl; discriminate.
Qed.

Lemma createRegion_traced_debug_release (tlet : Transl.Tracelet) (ev : list Event)
  (o : Outcome RegionDescPtr) :
  createRegion_traced true tlet = (ev, o) -> o <> Abort -> o <> Undefined ->
  createRegion_traced false tlet = (ev, o).
Proof.
  unfold createRegion_traced, invoke, tbind.
  pose proof (@createRegion_neverThrows _ _ true tlet) as Hn.
  destruct (createRegion true tlet) as [r| | |e] eqn:Ec.
  - apply createRegion_debug_release in Ec; rewrite Ec; auto.
  - intros E; injection E as <- <-; intros H; destruct (H eq_refl).
  - intros E; injection E as <- <-; intros _ H; destruct (H eq_refl).
  - destruct (Hn e eq_refl).
Qed.

Lemma dispatch_debug_release (mode : RegionMode.t) (context : RegionContext)
  (t : option Transl.Tracelet) (ev : list Event) (o : Outcome RegionDescPtr) :
  dispatch true regionMethod regionOneBC mode context t = (ev, o) ->
  o <> Abort -> o <> Undefined ->
  dispatch false regionMethod regionOneBC mode context t = (ev, o).
Proof.
  destruct mode; try (intros E _ _; exact E).
  unfold dispatch, dispatchOver; destruct t as [tlet|]; cbn [isSome always_assert tbind].
  - destruct (createRegion_traced true tlet) as [ev1 o1] eqn:E1.
    intros E; rewrite app_nil_l in E; injection E as <- <-; intros Ha Hu.
    apply createRegion_traced_debug_release in E1; [|assumption|assumption].
    rewrite E1; reflexivity.
  - intros E; injection E as <- <-; intros H; destruct (H eq_refl).
Qed.

Lemma selectRegion_debug_release (s : string) (context : RegionContext)
  (t : option Transl.Tracelet) (ev : list Event) (region : RegionDescPtr) :
  selectRegion true regionMethod regionOneBC s context t = (ev, Done region) ->
  selectRegion false regionMethod regionOneBC s context t = (ev, Done region).
Proof.
  unfold selectRegion, selectRegionOver.
  destruct (regionMode true s) as [evm om] eqn:Em.
  destruct om as [mode| | |e]; try discriminate.
  apply regionMode_debug_release in Em; rewrite Em.
  unfold tbind at 1 2 6 7; unfold ftrace at 1 3.
  fold (dispatch true regionMethod regionOneBC mode context t).
  fold (dispatch false regionMethod regionOneBC mode context t).
  destruct (dispatch true regionMethod regionOneBC mode context t)
    as [evd od] eqn:Ed.
  destruct od as [x| | |[w|]]; try discriminate.
  - apply dispatch_debug_release in Ed; [|discriminate|discriminate].
    rewrite Ed; auto.
  - apply dispatch_debug_release in Ed; [|discriminate|discriminate].
    rewrite Ed; auto.
Qed.

End SelectorAgree.

(** X10.  The assertions of a debug build only ever stop a run; they do not
    change what is returned.  Whenever an insertion into a block, the
    builder or the selector returns in a debug build, a release build
    returns the same value on the same input, the selector with the same
    trace lines and the same strategy invoked. *)
Theorem release_returns_what_debug_returns `{BC : Bytecode} `{TS : TypeSystem} :
  (forall b b' sk pred,
     addPredicted true b sk pred = Done b' -> addPredicted false b sk pred = Done b')
  /\ (forall b b' sk byRef,
        setParamByRef true b sk byRef = Done b' ->
        setParamByRef false b sk byRef = Done b')
  /\ (forall b b' sk rpred,
        addReffinessPred true b sk rpred = Done b' ->
        addReffinessPred false b sk rpred = Done b')
  /\ (forall tlet r,
        createRegion true tlet = Done r -> createRegion false tlet = Done r)
  /\ (forall regionMethod regionOneBC s context t ev region,
        selectRegion true regionMethod regionOneBC s context t = (ev, Done region) ->
        selectRegion false regionMethod regionOneBC s context t = (ev, Done region)).
Proof.
  split; [intros b b' sk pred; apply addPredicted_debug_release|].
  split; [intros b b' sk byRef; apply setParamByRef_debug_release|].
  split; [intros b b' sk rpred; apply addReffinessPred_debug_release|].
  split; [intros tlet r; apply createRegion_debug_release|].
  intros rM rO s context t ev region; apply selectRegion_debug_release.
Qed.

Lemma release_returns_what_debug_returns_witness :
  createRegion false sampleTracelet = Done sampleRegion
  /\ selectRegion false noRegionStrategy noRegionStrategy "tracelet" sampleContext
       (Some sampleTracelet)
     = ([FTRACE 1 (SelectRegion sampleContext RegionMode.Tracelet);
         Invoke CreateRegion;
         FTRACE 2 (ConvertedTracelet sampleTracelet sampleRegion);
         FTRACE 3 (ShowRegion sampleRegion)],
        Done (Some sampleRegion))
  /\ addPredicted false twoInstrBlock (sampleKey 10) (samplePred (Stack 0) TInt)
     = Done {| m_func := sampleFunc; m_start := 10; m_length := 2;
               m_typePreds := [(sampleKey 10, samplePred (Stack 0) TInt)];
               m_byRefs := []; m_refPreds := [] |}
  /\ setParamByRef false twoInstrBlock (sampleKey 10) Yes
     = Done {| m_func := sampleFunc; m_start := 10; m_length := 2;
               m_typePreds := []; m_byRefs := [(sampleKey 10, Yes)];
               m_refPreds := [] |}
  /\ addReffinessPred false twoInstrBlock (sampleKey 10) sampleRefPred
     = Done {| m_func := sampleFunc; m_start := 10; m_length := 2;
               m_typePreds := []; m_byRefs := [];
               m_refPreds := [(sampleKey 10, sampleRefPred)] |}.
Proof.
  destruct (@release_returns_what_debug_returns _ _) as (Hp & Hb & Hr & Hc & Hs).
  split; [apply Hc; reflexivity|].
  split; [apply Hs; reflexivity|].
  split; [apply Hp; reflexivity|].
  split; [apply Hb; reflexivity | apply Hr; reflexivity].
Defined.

(** ** The selector: what it invokes and what it hands back *)

(** X12.  The selector hands back what the chosen strategy returned.  In
    mode "onebc" and in mode "method" it invokes the one strategy, once,
    with the context it was given, and returns that strategy's region, or
    its "no region", unchanged; in mode "tracelet" it returns the region
    [createRegion] made of the trace.  Its last trace line shows the region
    or reports that none was selected. *)
Theorem selectRegion_returns_strategy_result `{BC : Bytecode} `{TS : TypeSystem}
  (debug : bool) (regionMethod regionOneBC : RegionContext -> Outcome RegionDescPtr)
  (context : RegionContext) (t : option Transl.Tracelet) :
  (forall region,
     regionOneBC context = Done region ->
     selectRegion debug regionMethod regionOneBC "onebc" context t
     = ([FTRACE 1 (SelectRegion context RegionMode.OneBC);
         Invoke RegionOneBC;
         match region with
         | Some r => FTRACE 3 (ShowRegion r)
         | None => FTRACE 1 NoRegionSelectable
         end],
        Done region))
  /\ (forall region,
        regionMethod context = Done region ->
        selectRegion debug regionMethod regionOneBC "method" context t
        = ([FTRACE 1 (SelectRegion context RegionMode.Method);
            Invoke RegionMethod;
            match region with
            | Some r => FTRACE 3 (ShowRegion r)
            | None => FTRACE 1 NoRegionSelectable
            end],
           Done region))
  /\ (forall tlet r,
        createRegion debug tlet = Done r ->
        selectRegion debug regionMethod regionOneBC "tracelet" context (Some tlet)
        = ([FTRACE 1 (SelectRegion context RegionMode.Tracelet);
            Invoke CreateRegion;
            FTRACE 2 (ConvertedTracelet tlet r);
            FTRACE 3 (ShowRegion r)],
           Done (Some r))).
Proof.
  split; [|split].
  - intros region E; unfold selectRegion, selectRegionOver; cbn; rewrite E.
    destruct region; reflexivity.
  - intros region E; unfold selectRegion, selectRegionOver; cbn; rewrite E.
    destruct region; reflexivity.
  - intros tlet r E; unfold selectRegion, selectRegionOver; cbn.
    unfold createRegion_traced, invoke; rewrite E; reflexivity.
Qed.

Lemma selectRegion_returns_strategy_result_witness :
  selectRegion true failingStrategy noRegionStrategy "onebc" sampleContext None
  = ([FTRACE 1 (SelectRegion sampleContext RegionMode.OneBC);
      Invoke RegionOneBC;
      FTRACE 1 NoRegionSelectable],
     Done None)
  /\ selectRegion true (fun _ => Done (Some retRegion)) failingStrategy "method"
       sampleContext None
     = ([FTRACE 1 (SelectRegion sampleContext RegionMode.Method);
         Invoke RegionMethod;
         FTRACE 3 (ShowRegion retRegion)],
        Done (Some retRegion))
  /\ selectRegion true failingStrategy failingStrategy "tracelet" sampleContext
       (Some sampleTracelet)
     = ([FTRACE 1 (SelectRegion sampleContext RegionMode.Tracelet);
         Invoke CreateRegion;
         FTRACE 2 (ConvertedTracelet sampleTracelet sampleRegion);
         FTRACE 3 (ShowRegion sampleRegion)],
        Done (Some sampleRegion)).
Proof.
  split; [|split].
  - exact (proj1 (selectRegion_returns_strategy_result true failingStrategy
                    noRegionStrategy sampleContext None) None eq_refl).
  - exact (proj1 (proj2 (selectRegion_returns_strategy_result true
                           (fun _ => Done (Some retRegion)) failingStrategy
                           sampleContext None)) (Some retRegion) eq_refl).
  - exact (proj2 (proj2 (selectRegion_returns_strategy_result true failingStrategy
                           failingStrategy sampleContext None))
                 sampleTracelet sampleRegion eq_refl).
Defined.

Section SelectorInvokes.
Context `{BC : Bytecode} `{TS : TypeSystem}.
Variable debug : bool.
Variables regionMethod regionOneBC : RegionContext -> Outcome RegionDescPtr.

(** The events of a run of the selector, by the mode it is in. *)
Lemma selectRegion_events (s : string) (context : RegionContext)
  (t : option Transl.Tracelet) :
  forall ev, In ev (fst (selectRegion debug regionMethod regionOneBC s context t)) ->
    isInvoke ev = true ->
    (ev = Invoke RegionOneBC /\ s = "onebc"%string)
    \/ (ev = Invoke RegionMethod /\ s = "method"%string)
    \/ (ev = Invoke CreateRegion /\ s = "tracelet"%string /\ t <> None).
Proof.
  unfold selectRegion, selectRegionOver, dispatchOver, regionMode.
  destruct (s =? "")%string eqn:E0.
  { cbn; intros ev [<- | [<- | []]]; discriminate. }
  destruct (s =? "onebc")%string eqn:E1.
  { apply String.eqb_eq in E1; cbn.
    destruct (regionOneBC context) as [[r|]| | |[w|]]; cbn; intros ev Hin Hi;
      repeat (destruct Hin as [<- | Hin]; [try discriminate; auto|]);
      destruct Hin. }
  destruct (s =? "method")%string eqn:E2.
  { apply String.eqb_eq in E2; cbn.
    destruct (regionMethod context) as [[r|]| | |[w|]]; cbn; intros ev Hin Hi;
      repeat (destruct Hin as [<- | Hin]; [try discriminate; auto|]);
      destruct Hin. }
  destruct (s =? "tracelet")%string eqn:E3.
  { apply String.eqb_eq in E3; cbn.
    destruct t as [tlet|]; cbn.
    - unfold createRegion_traced, invoke.
      destruct (createRegion debug tlet) as [r| | |[w|]]; cbn; intros ev Hin Hi;
        repeat (destruct Hin as [<- | Hin];
                [try discriminate; right; right; repeat split; auto; discriminate|]);
        destruct Hin.
    - intros ev [<- | []]; discriminate. }
  cbn; destruct debug; cbn; intros ev Hin Hi;
    repeat (destruct Hin as [<- | Hin]; [discriminate|]); destruct Hin.
Qed.

Lemma selectRegion_invoked_once (s : string) (context : RegionContext)
  (t : option Transl.Tracelet) :
  (List.length (invoked (fst (selectRegion debug regionMethod regionOneBC s context t)))
   <= 1)%nat.
Proof.
  unfold selectRegion, selectRegionOver, dispatchOver, regionMode, invoked.
  destruct (s =? "")%string; [cbn; lia|].
  destruct (s =? "onebc")%string.
  { cbn; destruct (regionOneBC context) as [[r|]| | |[w|]]; cbn; lia. }
  destruct (s =? "method")%string.
  { cbn; destruct (regionMethod context) as [[r|]| | |[w|]]; cbn; lia. }
  destruct (s =? "tracelet")%string.
  { cbn; destruct t as [tlet|]; cbn; [|lia].
    unfold createRegion_traced, invoke.
    destruct (createRegion debug tlet) as [r| | |[w|]]; cbn; lia. }
  cbn; destruct debug; cbn; lia.
Qed.

Lemma selectRegion_ignores_trace (s : string) (context : RegionContext)
  (t t' : option Transl.Tracelet) :
  s <> "tracelet"%string ->
  selectRegion debug regionMethod regionOneBC s context t
  = selectRegion debug regionMethod regionOneBC s context t'.
Proof.
  intros Hs; apply String.eqb_neq in Hs.
  unfold selectRegion, selectRegionOver, dispatchOver, regionMode.
  destruct (s =? "")%string; [reflexivity|].
  destruct (s =? "onebc")%string; [reflexivity|].
  destruct (s =? "method")%string; [reflexivity|].
  rewrite Hs; destruct debug; reflexivity.
Qed.

End SelectorInvokes.

(** X13.  A run of the selector invokes at most one strategy, and only the
    one of its mode: [regionOneBC] only when the selector string is
    "onebc", [regionMethod] only when it is "method", and [createRegion]
    only when it is "tracelet" and a trace was supplied. *)
Theorem selectRegion_invokes_at_most_one `{BC : Bytecode} `{TS : TypeSystem}
  (debug : bool) (regionMethod regionOneBC : RegionContext -> Outcome RegionDescPtr)
  (s : string) (context : RegionContext) (t : option Transl.Tracelet) :
  (List.length (invoked (fst (selectRegion debug regionMethod regionOneBC s context t)))
   <= 1)%nat
  /\ forall strategy,
       In (Invoke strategy)
          (fst (selectRegion debug regionMethod regionOneBC s context t)) ->
       match strategy with
       | RegionOneBC => s = "onebc"%string
       | RegionMethod => s = "method"%string
       | CreateRegion => s = "tracelet"%string /\ t <> None
       end.
Proof.
  split; [apply selectRegion_invoked_once|].
  intros strategy Hin.
  apply selectRegion_events in Hin; [|reflexivity].
  destruct Hin as [[E ->] | [[E ->] | [E [-> Ht]]]]; injection E as ->; auto.
Qed.

Lemma selectRegion_invokes_at_most_one_witness :
  invoked (fst (selectRegion true failingStrategy noRegionStrategy "tracelet"
                  sampleContext (Some sampleTracelet)))
  = [Invoke CreateRegion]
  /\ ("tracelet"%string = "tracelet"%string /\ Some sampleTracelet <> None)
  /\ ~ In (Invoke RegionMethod)
          (fst (selectRegion true failingStrategy noRegionStrategy "tracelet"
                  sampleContext (Some sampleTracelet))).
Proof.
  pose proof (proj2 (selectRegion_invokes_at_most_one true failingStrategy
                       noRegionStrategy "tracelet" sampleContext
                       (Some sampleTracelet))) as H.
  split; [reflexivity|].
  split.
  - apply (H CreateRegion); right; left; reflexivity.
  - intros Hin; apply (H RegionMethod) in Hin; discriminate Hin.
Defined.

(** X14.  The selector reads only what its mode needs: outside mode
    "tracelet" the trace it is given has no influence on the run, and a
    strategy other than the one of the mode has none either. *)
Theorem selectRegion_reads_only_its_mode `{BC : Bytecode} `{TS : TypeSystem}
  (debug : bool)
  (regionMethod regionOneBC regionMethod' regionOneBC'
     : RegionContext -> Outcome RegionDescPtr)
  (s : string) (context : RegionContext) (t t' : option Transl.Tracelet) :
  (s <> "tracelet"%string ->
   selectRegion debug regionMethod regionOneBC s context t
   = selectRegion debug regionMethod regionOneBC s context t')
  /\ (s <> "method"%string ->
      selectRegion debug regionMethod regionOneBC s context t
      = selectRegion debug regionMethod' regionOneBC s context t)
  /\ (s <> "onebc"%string ->
      selectRegion debug regionMethod regionOneBC s context t
      = selectRegion debug regionMethod regionOneBC' s context t).
Proof.
  split; [apply selectRegion_ignores_trace|].
  split; intros Hs; apply String.eqb_neq in Hs; unfold selectRegion, selectRegionOver, dispatchOver, regionMode.
  - destruct (s =? "")%string; [reflexivity|].
    destruct (s =? "onebc")%string; [reflexivity|].
    rewrite Hs.
    destruct (s =? "tracelet")%string; [reflexivity|].
    destruct debug; reflexivity.
  - destruct (s =? "")%string; [reflexivity|].
    rewrite Hs.
    destruct (s =? "method")%string; [reflexivity|].
    destruct (s =? "tracelet")%string; [reflexivity|].
    destruct debug; reflexivity.
Qed.

Lemma selectRegion_reads_only_its_mode_witness :
  selectRegion true failingStrategy noRegionStrategy "onebc" sampleContext
    (Some sampleTracelet)
  = selectRegion true failingStrategy noRegionStrategy "onebc" sampleContext None
  /\ selectRegion true failingStrategy noRegionStrategy "onebc" sampleContext None
     = selectRegion true foreignStrategy noRegionStrategy "onebc" sampleContext None
  /\ selectRegion true failingStrategy noRegionStrategy "method" sampleContext None
     = selectRegion true failingStrategy foreignStrategy "method" sampleContext None.
Proof.
  split; [|split].
  - apply (proj1 (selectRegion_reads_only_its_mode true failingStrategy
                    noRegionStrategy failingStrategy noRegionStrategy "onebc"
                    sampleContext (Some sampleTracelet) None)).
    discriminate.
  - apply (proj1 (proj2 (selectRegion_reads_only_its_mode true failingStrategy
                           noRegionStrategy foreignStrategy noRegionStrategy "onebc"
                           sampleContext None None))).
    discriminate.
  - apply (proj2 (proj2 (selectRegion_reads_only_its_mode true failingStrategy
                           noRegionStrategy failingStrategy foreignStrategy "method"
                           sampleContext None None))).
    discriminate.
Defined.

(** ** The lifted locations *)

Section LiftedLocations.

Lemma mod_eq_iff (a b : Z) :
  a mod 2 ^ 32 = b mod 2 ^ 32 <-> exists k, a = b + k * 2 ^ 32.
Proof.
  split.
  - intros E; exists (a / 2 ^ 32 - b / 2 ^ 32).
    pose proof (Z.div_mod a (2 ^ 32)) as Ha.
    pose proof (Z.div_mod b (2 ^ 32)) as Hb.
    lia.
  - intros [k ->]; apply Z_mod_plus_full.
Qed.

Lemma to_uint32_stack (o1 o2 : Z) :
  to_uint32 (- o1 - 1) = to_uint32 (- o2 - 1) <-> o1 mod 2 ^ 32 = o2 mod 2 ^ 32.
Proof.
  unfold to_uint32; rewrite !mod_eq_iff; split; intros [k E]; exists (- k); lia.
Qed.

End LiftedLocations.

(** X15.  When two dependencies are lifted to the same location: never a
    stack and a local one; two of the same space exactly when their tracer
    offsets agree modulo [2^32], the width of the [uint32_t] conversion;
    hence two dependencies whose offsets are in the range of an [int32_t]
    are lifted to the same location only if they are the same. *)
Theorem liftedLocation_collisions (l1 l2 : Transl.Location) (loc : Location) :
  liftedLocation l1 = Some loc ->
  (liftedLocation l2 = Some loc
   <-> Transl.space l2 = Transl.space l1
       /\ Transl.offset l2 mod 2 ^ 32 = Transl.offset l1 mod 2 ^ 32)
  /\ (- 2 ^ 31 <= Transl.offset l1 < 2 ^ 31 ->
      - 2 ^ 31 <= Transl.offset l2 < 2 ^ 31 ->
      liftedLocation l2 = Some loc -> l2 = l1).
Proof.
  intros H1.
  assert (Hiff : liftedLocation l2 = Some loc
                 <-> Transl.space l2 = Transl.space l1
                     /\ Transl.offset l2 mod 2 ^ 32 = Transl.offset l1 mod 2 ^ 32).
  { unfold liftedLocation in *.
    destruct (Transl.space l1) eqn:S1; try discriminate; injection H1 as <-;
      destruct (Transl.space l2) eqn:S2; split;
      try (intros E; discriminate E); try (intros [E _]; discriminate E).
    - intros E; injection E as E.
      apply (proj1 (to_uint32_stack (Transl.offset l2) (Transl.offset l1))) in E; auto.
    - intros [_ E].
      apply (proj2 (to_uint32_stack (Transl.offset l2) (Transl.offset l1))) in E.
      rewrite E; reflexivity.
    - intros E; injection E as E; auto.
    - intros [_ E]; unfold to_uint32; rewrite E; reflexivity. }
  split; [exact Hiff|].
  intros R1 R2 H2; apply Hiff in H2 as [Hs Ho].
  apply mod_eq_iff in Ho as [k Ho].
  destruct l1 as [s1 o1], l2 as [s2 o2]; simpl in *.
  f_equal; [exact Hs | lia].
Qed.

Lemma liftedLocation_collisions_witness :
  liftedLocation {| Transl.space := Transl.Stack; Transl.offset := 4294967295 |}
  = Some (Stack 0)
  /\ ({| Transl.space := Transl.Local; Transl.offset := 0 |}
      = {| Transl.space := Transl.Stack; Transl.offset := -1 |} -> False).
Proof.
  destruct (@liftedLocation_collisions
              {| Transl.space := Transl.Stack; Transl.offset := -1 |}
              {| Transl.space := Transl.Stack; Transl.offset := 4294967295 |}
              (Stack 0) eq_refl) as [Hiff _].
  split; [apply Hiff; split; reflexivity | discriminate].
Defined.

(** ** The rendered text tells values apart *)

Section Rendering.

Lemma append_assoc (a b c : string) : ((a ++ b) ++ c = a ++ (b ++ c))%string.
Proof. induction a as [|x a IH]; simpl; [reflexivity | rewrite IH; reflexivity]. Qed.

(** Two texts that agree and are each cut at the first occurrence of [c]
    agree before and after the cut. *)
Lemma split_at_char (c : ascii) :
  forall a a' r r' : string,
    hasChar c a = false -> hasChar c a' = false ->
    (a ++ String c r = a' ++ String c r')%string ->
    a = a' /\ r = r'.
Proof.
  induction a as [|x a IH]; intros [|x' a'] r r' Ha Ha' E; simpl in *.
  - injection E as ->; auto.
  - injection E as <- _; rewrite Ascii.eqb_refl in Ha'; discriminate.
  - injection E as -> _; rewrite Ascii.eqb_refl in Ha; discriminate.
  - injection E as -> E.
    apply orb_false_iff in Ha as [_ Ha]; apply orb_false_iff in Ha' as [_ Ha'].
    destruct (IH _ _ _ Ha Ha' E) as [-> ->]; auto.
Qed.

Lemma decimal_inj (a b : Z) : decimal a = decimal b -> a = b.
Proof.
  unfold decimal; intros E.
  apply DecimalZ.to_int_inj.
  pose proof (NilEmpty.isi (Z.to_int a)) as Ha.
  rewrite E, NilEmpty.isi in Ha; injection Ha as ->; reflexivity.
Qed.

Lemma uint_no_brace (d : Decimal.uint) :
  hasChar "}" (NilEmpty.string_of_uint d) = false.
Proof. induction d; simpl; auto. Qed.

Lemma uint_no_space (d : Decimal.uint) :
  hasChar " " (NilEmpty.string_of_uint d) = false.
Proof. induction d; simpl; auto. Qed.

Lemma decimal_no_brace (z : Z) : hasChar "}" (decimal z) = false.
Proof. unfold decimal; destruct (Z.to_int z); simpl; apply uint_no_brace. Qed.

Lemma decimal_no_space (z : Z) : hasChar " " (decimal z) = false.
Proof. unfold decimal; destruct (Z.to_int z); simpl; apply uint_no_space. Qed.

Lemma show_bits_no_space (v : list bool) : hasChar " " (show_bits v) = false.
Proof.
  unfold show_bits; induction v as [|[] v IH]; simpl; auto.
Qed.

Lemma show_bits_inj (v v' : list bool) : show_bits v = show_bits v' -> v = v'.
Proof.
  unfold show_bits; revert v'.
  induction v as [|x v IH]; intros [|x' v'] E; simpl in E; try discriminate;
    [reflexivity|].
  injection E as Hx E; rewrite (IH _ E); f_equal.
  destruct x, x'; try reflexivity; discriminate.
Qed.

(** The rendering of a location, read back: the text between the braces
    is the decimal of its number. *)
Lemma show_Location_cut (l l' : Location) (r r' : string) :
  (show_Location l ++ r = show_Location l' ++ r')%string -> l = l' /\ r = r'.
Proof.
  destruct l as [a|a], l' as [b|b]; unfold show_Location;
    rewrite !append_assoc; simpl; intros E; try discriminate;
    injection E as E;
    apply split_at_char in E as [E ->];
    try apply decimal_no_brace;
    apply decimal_inj in E as ->; auto.
Qed.

End Rendering.

(** X16.  The rendering of a location tells locations apart: two
    locations that [show] renders alike are the same. *)
Theorem show_Location_injective (l l' : Location) :
  show_Location l = show_Location l' -> l = l'.
Proof.
  intros E.
  assert (E' : (show_Location l ++ "" = show_Location l' ++ "")%string)
    by (rewrite E; reflexivity).
  apply show_Location_cut in E' as [-> _]; reflexivity.
Qed.

Lemma show_Location_injective_witness :
  show_Location (Stack 4294967295) = "Stack{4294967295}"%string
  /\ show_Location (Local 3) = "Local{3}"%string
  /\ Stack (to_uint32 (- 0 - 1)) = Stack 4294967295.
Proof.
  split; [reflexivity|].
  split; [reflexivity|].
  apply show_Location_injective; reflexivity.
Defined.

(** X17.  The rendering of a type prediction, and that of a live type,
    tells them apart whenever [Type::toString] tells types apart: two
    predictions rendered alike have the same location and the same type. *)
Theorem show_TypePred_injective `{TS : TypeSystem} `{TP : !TypePrinter}
  (ta tb : TypePred) :
  (forall t1 t2, toString t1 = toString t2 -> t1 = t2) ->
  (show_TypePred ta = show_TypePred tb -> ta = tb)
  /\ (show_LiveType ta = show_LiveType tb -> ta = tb).
Proof.
  intros Hinj.
  assert (H : show_TypePred ta = show_TypePred tb -> ta = tb).
  { unfold show_TypePred; intros E.
    apply show_Location_cut in E as [El E].
    injection E as E; apply Hinj in E.
    destruct ta, tb; simpl in *; subst; reflexivity. }
  split; [exact H | exact H].
Qed.

Lemma show_TypePred_injective_witness :
  show_TypePred (samplePred (Local 1) TStr) = "Local{1} :: Str"%string
  /\ show_LiveType (samplePred (Stack 0) TInt) = "Stack{0} :: Int"%string
  /\ samplePred (Local (to_uint32 1)) TStr = samplePred (Local 1) TStr.
Proof.
  split; [reflexivity|].
  split; [reflexivity|].
  refine (proj1 (@show_TypePred_injective SampleTypes SampleTypePrinter
                   (samplePred (Local (to_uint32 1)) TStr)
                   (samplePred (Local 1) TStr) _) _).
  - intros [] []; simpl; intros E; try reflexivity; discriminate E.
  - reflexivity.
Defined.

(** X18.  The rendering of a reffiness predicate tells them apart: the
    offset, the mask and the values can be read back from the text, so two
    predicates rendered alike are the same. *)
Theorem show_ReffinessPred_injective (p q : ReffinessPred) :
  show_ReffinessPred p = show_ReffinessPred q -> p = q.
Proof.
  unfold show_ReffinessPred; simpl; intros E; injection E as E.
  apply split_at_char in E as [Eo E]; try apply decimal_no_space.
  injection E as E.
  apply split_at_char in E as [Em E]; try apply show_bits_no_space.
  injection E as Ev.
  apply decimal_inj in Eo; apply show_bits_inj in Em, Ev.
  destruct p, q; simpl in *; subst; reflexivity.
Qed.

Lemma show_ReffinessPred_injective_witness :
  show_ReffinessPred {| mask := [true; false]; vals := [true; false]; arSpOffset := -3 |}
  = "offset: -3 mask: 10 vals: 10"%string
  /\ snd (liftedRefPred sampleTracelet
            (3, {| Transl.m_mask := [true]; Transl.m_vals := [false] |}))
     = sampleRefPred.
Proof.
  split; [reflexivity | apply show_ReffinessPred_injective; reflexivity].
Defined.
